(** * MarioGame: a shallow embedding of the simulation in
      [src/components/MarioGame.tsx]

    The component keeps its world in React refs (arrays of mutable objects)
    and its run state, score, camera and modifiers in React state hooks.
    The embedding follows that layout:

    - JavaScript numbers are modelled as exact rationals ([Q]); the rounding
      of IEEE doubles is abstracted away.  The score and the speed tier only
      ever hold integers and are modelled in [Z].
    - bricks, hazards ("enemies") and boosts ("power-ups") are objects that
      are mutated in place while two arrays may hold them at the same time;
      they live in stores addressed by [ref], and the arrays hold addresses.
      Platforms are never mutated and coins are only reached through one
      array, so those arrays hold the records themselves.
    - [Math.random] is a stream of draws with a cursor.
    - the frame callback runs the [updateGame] closure of the render in which
      the run state last changed; what that closure sees of the hook state is
      the [Closure] record.  The effect that owns the frame loop is set up
      at mount and again whenever the run state has changed, and each time
      its body runs one frame at once.
    - theme, canvas drawing and the DOM are not modelled. *)

From Stdlib Require Import QArith Qround Lqa ZArith.
From stdpp Require Import gmap strings list sorting.

Local Open Scope Q_scope.

(** ** Numbers *)

(** [a < b] and [a > b] on JavaScript numbers, as booleans. *)
Definition Qltb (a b : Q) : bool := negb (Qle_bool b a).
Definition Qgtb (a b : Q) : bool := Qltb b a.
(** [a <= b] and [a >= b]. *)
Definition Qleb (a b : Q) : bool := Qle_bool a b.
Definition Qgeb (a b : Q) : bool := Qle_bool b a.

Definition Math_max (a b : Q) : Q := if Qltb a b then b else a.
Definition Math_min (a b : Q) : Q := if Qltb b a then b else a.
Definition Math_floor (a : Q) : Z := Qfloor a.

(** ** Data model (the interfaces at the top of the source file) *)

Module GameObject.
Record t := mk {
    x : Q; y : Q; width : Q; height : Q;
    velocityX : Q; velocityY : Q; onGround : bool }.
Definition set_x (v : Q) (o : t) := mk v (y o) (width o) (height o) (velocityX o) (velocityY o) (onGround o).
Definition set_y (v : Q) (o : t) := mk (x o) v (width o) (height o) (velocityX o) (velocityY o) (onGround o).
Definition set_velocityX (v : Q) (o : t) := mk (x o) (y o) (width o) (height o) v (velocityY o) (onGround o).
Definition set_velocityY (v : Q) (o : t) := mk (x o) (y o) (width o) (height o) (velocityX o) v (onGround o).
Definition set_onGround (v : bool) (o : t) := mk (x o) (y o) (width o) (height o) (velocityX o) (velocityY o) v.
End GameObject.

Module Platform.
Record t := mk { x : Q; y : Q; width : Q; height : Q }.
End Platform.

(** [PowerUp.type]: "speed" | "jump" | "shield". *)
Module Kind.
Inductive t := speed | jump | shield.
End Kind.
Abbreviation PowerUpKind := Kind.t.

(** The non-null values of [Brick.powerUpType]: "coin" or one of the three
    modifiers. *)
Module Reward.
Inductive t := coin | modifier (k : PowerUpKind).
End Reward.
Abbreviation BrickReward := Reward.t.

Module Brick.
Record t := mk {
    x : Q; y : Q; width : Q; height : Q;
    broken : bool; hasPowerUp : bool; powerUpType : option BrickReward }.
Definition set_broken (v : bool) (b : t) := mk (x b) (y b) (width b) (height b) v (hasPowerUp b) (powerUpType b).
End Brick.

Module Coin.
Record t := mk { x : Q; y : Q; width : Q; height : Q; collected : bool }.
Definition set_collected (v : bool) (c : t) := mk (x c) (y c) (width c) (height c) v.
End Coin.

Module PowerUp.
Record t := mk {
    x : Q; y : Q; width : Q; height : Q;
    type : PowerUpKind; collected : bool; velocityY : Q }.
Definition set_y (v : Q) (p : t) := mk (x p) v (width p) (height p) (type p) (collected p) (velocityY p).
Definition set_velocityY (v : Q) (p : t) := mk (x p) (y p) (width p) (height p) (type p) (collected p) v.
Definition set_collected (v : bool) (p : t) := mk (x p) (y p) (width p) (height p) (type p) v (velocityY p).
End PowerUp.

(** The run state hook: "playing" | "paused" | "gameOver" | "won". *)
Inductive GameState := playing | paused | gameOver | won.

#[global] Instance GameState_eq_dec : EqDecision GameState.
Proof. solve_decision. Defined.

#[global] Instance PowerUpKind_eq_dec : EqDecision PowerUpKind.
Proof. solve_decision. Defined.

(** The [powerUpActive] hook. *)
Module Active.
Record t := mk { speed : bool; jump : bool; shield : bool }.
Definition none : t := mk false false false.
(** [{ ...prev, [type]: v }] *)
Definition set (k : PowerUpKind) (v : bool) (a : t) : t :=
    match k with
    | Kind.speed => mk v (jump a) (shield a)
    | Kind.jump => mk (speed a) v (shield a)
    | Kind.shield => mk (speed a) (jump a) v
    end.
End Active.

(** ** The component's state *)

(** Address of an object in its store. *)
Definition ref := nat.

(** What the running frame callback sees of the hook state: [updateGame] and
    [spawnObstacles] read the identifiers [powerUpActive] and [cameraX] of
    the render that created them. *)
Record Closure := mkClosure { seen_powerUpActive : Active.t; seen_cameraX : Q }.

Record World := mkWorld {
  (* useState *)
  gameState : GameState;
  score : Z;
  cameraX : Q;
  gameSpeed : Z;
  powerUpActive : Active.t;
  (* useRef *)
  playerRef : GameObject.t;
  platformsRef : list Platform.t;
  bricksRef : list ref;
  enemiesRef : list ref;
  coinsRef : list Coin.t;
  powerUpsRef : list ref;
  keysRef : gset string;
  (* the objects the arrays point to *)
  brickStore : list Brick.t;
  enemyStore : list GameObject.t;
  powerUpStore : list PowerUp.t;
  (* pending [setTimeout] expiries, oldest first *)
  timers : list PowerUpKind;
  (* number of [Math.random] draws made so far *)
  drawn : nat;
  (* the closure the frame callback is running *)
  loop : Closure }.

Definition set_gameState v w := mkWorld v (score w) (cameraX w) (gameSpeed w) (powerUpActive w) (playerRef w) (platformsRef w) (bricksRef w) (enemiesRef w) (coinsRef w) (powerUpsRef w) (keysRef w) (brickStore w) (enemyStore w) (powerUpStore w) (timers w) (drawn w) (loop w).
Definition set_score v w := mkWorld (gameState w) v (cameraX w) (gameSpeed w) (powerUpActive w) (playerRef w) (platformsRef w) (bricksRef w) (enemiesRef w) (coinsRef w) (powerUpsRef w) (keysRef w) (brickStore w) (enemyStore w) (powerUpStore w) (timers w) (drawn w) (loop w).
Definition set_cameraX v w := mkWorld (gameState w) (score w) v (gameSpeed w) (powerUpActive w) (playerRef w) (platformsRef w) (bricksRef w) (enemiesRef w) (coinsRef w) (powerUpsRef w) (keysRef w) (brickStore w) (enemyStore w) (powerUpStore w) (timers w) (drawn w) (loop w).
Definition set_gameSpeed v w := mkWorld (gameState w) (score w) (cameraX w) v (powerUpActive w) (playerRef w) (platformsRef w) (bricksRef w) (enemiesRef w) (coinsRef w) (powerUpsRef w) (keysRef w) (brickStore w) (enemyStore w) (powerUpStore w) (timers w) (drawn w) (loop w).
Definition set_powerUpActive v w := mkWorld (gameState w) (score w) (cameraX w) (gameSpeed w) v (playerRef w) (platformsRef w) (bricksRef w) (enemiesRef w) (coinsRef w) (powerUpsRef w) (keysRef w) (brickStore w) (enemyStore w) (powerUpStore w) (timers w) (drawn w) (loop w).
Definition set_playerRef v w := mkWorld (gameState w) (score w) (cameraX w) (gameSpeed w) (powerUpActive w) v (platformsRef w) (bricksRef w) (enemiesRef w) (coinsRef w) (powerUpsRef w) (keysRef w) (brickStore w) (enemyStore w) (powerUpStore w) (timers w) (drawn w) (loop w).
Definition set_platformsRef v w := mkWorld (gameState w) (score w) (cameraX w) (gameSpeed w) (powerUpActive w) (playerRef w) v (bricksRef w) (enemiesRef w) (coinsRef w) (powerUpsRef w) (keysRef w) (brickStore w) (enemyStore w) (powerUpStore w) (timers w) (drawn w) (loop w).
Definition set_bricksRef v w := mkWorld (gameState w) (score w) (cameraX w) (gameSpeed w) (powerUpActive w) (playerRef w) (platformsRef w) v (enemiesRef w) (coinsRef w) (powerUpsRef w) (keysRef w) (brickStore w) (enemyStore w) (powerUpStore w) (timers w) (drawn w) (loop w).
Definition set_enemiesRef v w := mkWorld (gameState w) (score w) (cameraX w) (gameSpeed w) (powerUpActive w) (playerRef w) (platformsRef w) (bricksRef w) v (coinsRef w) (powerUpsRef w) (keysRef w) (brickStore w) (enemyStore w) (powerUpStore w) (timers w) (drawn w) (loop w).
Definition set_coinsRef v w := mkWorld (gameState w) (score w) (cameraX w) (gameSpeed w) (powerUpActive w) (playerRef w) (platformsRef w) (bricksRef w) (enemiesRef w) v (powerUpsRef w) (keysRef w) (brickStore w) (enemyStore w) (powerUpStore w) (timers w) (drawn w) (loop w).
Definition set_powerUpsRef v w := mkWorld (gameState w) (score w) (cameraX w) (gameSpeed w) (powerUpActive w) (playerRef w) (platformsRef w) (bricksRef w) (enemiesRef w) (coinsRef w) v (keysRef w) (brickStore w) (enemyStore w) (powerUpStore w) (timers w) (drawn w) (loop w).
Definition set_keysRef v w := mkWorld (gameState w) (score w) (cameraX w) (gameSpeed w) (powerUpActive w) (playerRef w) (platformsRef w) (bricksRef w) (enemiesRef w) (coinsRef w) (powerUpsRef w) v (brickStore w) (enemyStore w) (powerUpStore w) (timers w) (drawn w) (loop w).
Definition set_brickStore v w := mkWorld (gameState w) (score w) (cameraX w) (gameSpeed w) (powerUpActive w) (playerRef w) (platformsRef w) (bricksRef w) (enemiesRef w) (coinsRef w) (powerUpsRef w) (keysRef w) v (enemyStore w) (powerUpStore w) (timers w) (drawn w) (loop w).
Definition set_enemyStore v w := mkWorld (gameState w) (score w) (cameraX w) (gameSpeed w) (powerUpActive w) (playerRef w) (platformsRef w) (bricksRef w) (enemiesRef w) (coinsRef w) (powerUpsRef w) (keysRef w) (brickStore w) v (powerUpStore w) (timers w) (drawn w) (loop w).
Definition set_powerUpStore v w := mkWorld (gameState w) (score w) (cameraX w) (gameSpeed w) (powerUpActive w) (playerRef w) (platformsRef w) (bricksRef w) (enemiesRef w) (coinsRef w) (powerUpsRef w) (keysRef w) (brickStore w) (enemyStore w) v (timers w) (drawn w) (loop w).
Definition set_timers v w := mkWorld (gameState w) (score w) (cameraX w) (gameSpeed w) (powerUpActive w) (playerRef w) (platformsRef w) (bricksRef w) (enemiesRef w) (coinsRef w) (powerUpsRef w) (keysRef w) (brickStore w) (enemyStore w) (powerUpStore w) v (drawn w) (loop w).
Definition set_drawn v w := mkWorld (gameState w) (score w) (cameraX w) (gameSpeed w) (powerUpActive w) (playerRef w) (platformsRef w) (bricksRef w) (enemiesRef w) (coinsRef w) (powerUpsRef w) (keysRef w) (brickStore w) (enemyStore w) (powerUpStore w) (timers w) v (loop w).
Definition set_loop v w := mkWorld (gameState w) (score w) (cameraX w) (gameSpeed w) (powerUpActive w) (playerRef w) (platformsRef w) (bricksRef w) (enemiesRef w) (coinsRef w) (powerUpsRef w) (keysRef w) (brickStore w) (enemyStore w) (powerUpStore w) (timers w) (drawn w) v.

(** ** Game constants *)

Definition GRAVITY : Q := 0.8.
Definition JUMP_FORCE : Q := -15.
Definition MOVE_SPEED : Q := 5.
Definition CANVAS_WIDTH : Q := 800.
Definition CANVAS_HEIGHT : Q := 450.
Definition FINISH_LINE : Q := 10000.

(** The initial values of the refs and hooks. *)
Definition initialPlayer : GameObject.t := GameObject.mk 100 300 30 30 0 0 false.
Definition startingGround : Platform.t := Platform.mk 0 400 200 40.

Definition initialWorld : World :=
  {| gameState := playing; score := 0; cameraX := 0; gameSpeed := 2;
     powerUpActive := Active.none;
     playerRef := initialPlayer; platformsRef := [startingGround];
     bricksRef := []; enemiesRef := []; coinsRef := []; powerUpsRef := [];
     keysRef := ∅;
     brickStore := []; enemyStore := []; powerUpStore := [];
     timers := []; drawn := 0%nat;
     loop := mkClosure Active.none 0 |}.

(** ** Geometry *)

(** The four-way rectangle test the source writes out at every collision:
    [a.x < b.x + b.width && a.x + a.width > b.x &&
     a.y < b.y + b.height && a.y + a.height > b.y]. *)
Definition overlaps (ax ay aw ah bx by_ bw bh : Q) : bool :=
  Qltb ax (bx + bw) && Qgtb (ax + aw) bx && Qltb ay (by_ + bh) && Qgtb (ay + ah) by_.

Definition overlapsPlatform (o : GameObject.t) (p : Platform.t) : bool :=
  overlaps (GameObject.x o) (GameObject.y o) (GameObject.width o) (GameObject.height o)
           (Platform.x p) (Platform.y p) (Platform.width p) (Platform.height p).

(** [array.indexOf(r)] on an array of object references; [None] is -1. *)
Fixpoint indexOf (l : list ref) (r : ref) : option nat :=
  match l with
  | [] => None
  | r' :: l' => if decide (r' = r) then Some 0%nat else S <$> indexOf l' r
  end.

(** ** Procedural generator *)

Section Game.

(** The sequence of values [Math.random()] returns. *)
Variable random : nat → Q.

Definition Math_random (w : World) : Q * World :=
  (random (drawn w), set_drawn (S (drawn w)) w).

(** One pass of the brick loop of [spawnObstacles] (lines 157-180). *)
Definition spawnBrick (spawnX platformY : Q) (i : nat) (w : World) : World :=
  let i' := inject_Z (Z.of_nat i) in
  let '(r, w) := Math_random w in
  let brickX := spawnX + i' * 30 + r * 20 in
  let brickY := platformY - 30 - i' * 30 in
  let '(r, w) := Math_random w in
  let hasPowerUp := Qgtb r 0.7 in
  let '(powerUpType, w) :=
    if hasPowerUp then
      let '(powerUpChance, w) := Math_random w in
      (Some (if Qltb powerUpChance 0.4 then Reward.coin
             else if Qltb powerUpChance 0.6 then Reward.modifier Kind.speed
             else if Qltb powerUpChance 0.8 then Reward.modifier Kind.jump
             else Reward.modifier Kind.shield), w)
    else (None, w) in
  let brick := Brick.mk brickX brickY 25 25 false hasPowerUp powerUpType in
  set_bricksRef (bricksRef w ++ [length (brickStore w)])
    (set_brickStore (brickStore w ++ [brick]) w).

Fixpoint spawnBricks (spawnX platformY : Q) (count : nat) (i : nat) (w : World) : World :=
  match count with
  | O => w
  | S count' => spawnBricks spawnX platformY count' (S i) (spawnBrick spawnX platformY i w)
  end.

(** Lines 145-153: "Spawn platform". *)
Definition spawnPlatform (spawnX platformY : Q) (w : World) : World :=
  let '(r, w) := Math_random w in
  set_platformsRef (platformsRef w ++ [Platform.mk spawnX platformY (r * 100 + 80) 20]) w.

(** Lines 155-180: "Spawn bricks above the platform". *)
Definition spawnBrickStack (spawnX platformY : Q) (w : World) : World :=
  let '(r, w) := Math_random w in
  let brickCount := (Math_floor (r * 3) + 1)%Z in
  spawnBricks spawnX platformY (Z.to_nat brickCount) 0 w.

(** Lines 182-194: "Spawn enemy on the platform". *)
Definition spawnEnemy (spawnX platformY : Q) (w : World) : World :=
  let '(r, w) := Math_random w in
  if Qgtb r 0.3 then
    let '(r, w) := Math_random w in
    let enemy := GameObject.mk (spawnX + 20) (platformY - 25) 25 25
                   (if Qgtb r 0.5 then 1.5 else -1.5) 0 true in
    set_enemiesRef (enemiesRef w ++ [length (enemyStore w)])
      (set_enemyStore (enemyStore w ++ [enemy]) w)
  else w.

(** Lines 196-206: "Spawn coin". *)
Definition spawnCoin (spawnX platformY : Q) (w : World) : World :=
  let '(r, w) := Math_random w in
  if Qgtb r 0.2 then
    let '(r, w) := Math_random w in
    set_coinsRef (coinsRef w ++ [Coin.mk (spawnX + r * 60 + 10) (platformY - 40) 20 20 false]) w
  else w.

(** Lines 141-206 of [spawnObstacles]: the new group is pushed onto the
    arrays the refs currently hold. *)
Definition spawnGroup (lastPlatform : Platform.t) (w : World) : World :=
  let '(r, w) := Math_random w in
  let spawnX := Platform.x lastPlatform + Platform.width lastPlatform + r * 200 + 100 in
  let '(r, w) := Math_random w in
  let platformHeight := r * 60 + 20 in
  let platformY := 400 - platformHeight in
  let w := spawnPlatform spawnX platformY w in
  let w := spawnBrickStack spawnX platformY w in
  let w := spawnEnemy spawnX platformY w in
  spawnCoin spawnX platformY w.

(** The platform a group begins with. *)
Definition nextPlatform (lastPlatform : Platform.t) (w : World) : Platform.t :=
  Platform.mk
    (Platform.x lastPlatform + Platform.width lastPlatform + random (drawn w) * 200 + 100)
    (400 - (random (S (drawn w)) * 60 + 20))
    (random (S (S (drawn w))) * 100 + 80)
    20.

(** Lines 208-220: every ref is rebound to a filtered copy of its array.
    [cameraX] is the identifier as the generator's closure sees it. *)
Definition removeOld (cameraX : Q) (w : World) : World :=
  let cleanupDistance := cameraX - 200 in
  let w := set_platformsRef
             (List.filter (λ p, Qgtb (Platform.x p + Platform.width p) cleanupDistance)
                (platformsRef w)) w in
  let w := set_bricksRef
             (List.filter (λ b, match brickStore w !! b with
                                | Some b => Qgtb (Brick.x b) cleanupDistance
                                | None => false end) (bricksRef w)) w in
  let w := set_enemiesRef
             (List.filter (λ e, match enemyStore w !! e with
                                | Some e => Qgtb (GameObject.x e) cleanupDistance
                                | None => false end) (enemiesRef w)) w in
  let w := set_coinsRef
             (List.filter (λ c, Qgtb (Coin.x c) cleanupDistance) (coinsRef w)) w in
  set_powerUpsRef
    (List.filter (λ p, match powerUpStore w !! p with
                       | Some p => Qgtb (PowerUp.x p) cleanupDistance
                       | None => false end) (powerUpsRef w)) w.

(** [spawnObstacles]; [None] is the TypeError of reading [lastPlatform.x]
    when the platform array is empty. *)
Definition spawnObstacles (cameraX : Q) (w : World) : option World :=
  lastPlatform ← last (platformsRef w);
  Some (removeOld cameraX (spawnGroup lastPlatform w)).

(** [activatePowerUp]: the flag is set and an expiry is scheduled. *)
Definition activatePowerUp (type : PowerUpKind) (w : World) : World :=
  set_timers (timers w ++ [type])
    (set_powerUpActive (Active.set type true (powerUpActive w)) w).

(** ** One simulation tick *)

(** The local bindings of [updateGame] next to the component state.
    [platforms], [enemies], [bricks] and [powerUps] are the arrays the refs
    held when the tick began.  When [spawnObstacles] ran in this tick the
    refs were rebound to filtered copies ([rebound]); the locals then still
    name the old, unfiltered arrays, which share their objects with the new
    ones. *)
Record Frame := mkFrame {
  world : World;
  platforms : list Platform.t;
  enemies : list ref;
  bricks : list ref;
  powerUps : list ref;
  rebound : bool }.

Definition with_world (w : World) (f : Frame) : Frame :=
  mkFrame w (platforms f) (enemies f) (bricks f) (powerUps f) (rebound f).

Definition has (w : World) (key : string) : bool := bool_decide (key ∈ keysRef w).

(** Lines 239-262: input, with the modifiers the closure sees. *)
Definition handleInput (env : Closure) (w : World) : World :=
  let currentMoveSpeed :=
    if Active.speed (seen_powerUpActive env) then MOVE_SPEED * 1.5 else MOVE_SPEED in
  let currentJumpForce :=
    if Active.jump (seen_powerUpActive env) then JUMP_FORCE * 1.3 else JUMP_FORCE in
  let player := playerRef w in
  let player :=
    if has w "ArrowLeft" || has w "a" then
      GameObject.set_velocityX (- currentMoveSpeed) player
    else if has w "ArrowRight" || has w "d" then
      GameObject.set_velocityX currentMoveSpeed player
    else GameObject.set_velocityX (GameObject.velocityX player * 0.8) player in
  let player :=
    if (has w "ArrowUp" || has w "w" || has w " ") && GameObject.onGround player then
      GameObject.set_onGround false (GameObject.set_velocityY currentJumpForce player)
    else player in
  set_playerRef player w.

(** Lines 264-267: gravity and the position update. *)
Definition integrate (w : World) : World :=
  let player := playerRef w in
  let player := GameObject.set_velocityY (GameObject.velocityY player + GRAVITY) player in
  let player := GameObject.set_x (GameObject.x player + GameObject.velocityX player) player in
  let player := GameObject.set_y (GameObject.y player + GameObject.velocityY player) player in
  set_playerRef player w.

(** The test of line 271. *)
Definition needsSpawn (w : World) : option Platform.t :=
  match last (platformsRef w) with
  | Some lastPlatform =>
      if Qgtb (GameObject.x (playerRef w)) (Platform.x lastPlatform - 200)
      then Some lastPlatform else None
  | None => None
  end.

(** Lines 269-273.  The locals were bound at line 233-237; after a spawn
    they name the arrays that received the pushes. *)
Definition spawnIfNeeded (env : Closure) (w : World) : Frame :=
  match needsSpawn w with
  | Some lastPlatform =>
      let pushed := spawnGroup lastPlatform w in
      mkFrame (removeOld (seen_cameraX env) pushed)
        (platformsRef pushed) (enemiesRef pushed) (bricksRef pushed) (powerUpsRef pushed)
        true
  | None =>
      mkFrame w (platformsRef w) (enemiesRef w) (bricksRef w) (powerUpsRef w) false
  end.

(** Lines 275-294: the camera follows the player. *)
Definition clampedCameraX (player : GameObject.t) : Q :=
  let targetCameraX := GameObject.x player - CANVAS_WIDTH / 2 in
  Math_max 0 (Math_min targetCameraX (FINISH_LINE - CANVAS_WIDTH)).

Definition cameraSpeed (player : GameObject.t) : Q :=
  if Qgtb (GameObject.velocityX player) 0 then 0.4
  else if Qltb (GameObject.velocityX player) 0 then 0.2
  else 0.3.

Definition followPlayer (w : World) : World :=
  let player := playerRef w in
  set_cameraX (cameraX w + (clampedCameraX player - cameraX w) * cameraSpeed player) w.

(** Lines 299-326: the body of the platform loop. *)
Definition hitPlatform (player : GameObject.t) (platform : Platform.t) : GameObject.t :=
  if overlapsPlatform player platform then
    if Qgtb (GameObject.velocityY player) 0 && Qltb (GameObject.y player) (Platform.y platform) then
      GameObject.set_onGround true
        (GameObject.set_velocityY 0
           (GameObject.set_y (Platform.y platform - GameObject.height player) player))
    else if Qltb (GameObject.velocityY player) 0 && Qgtb (GameObject.y player) (Platform.y platform) then
      GameObject.set_velocityY 0
        (GameObject.set_y (Platform.y platform + Platform.height platform) player)
    else if Qgtb (GameObject.velocityX player) 0 && Qltb (GameObject.x player) (Platform.x platform) then
      GameObject.set_velocityX 0
        (GameObject.set_x (Platform.x platform - GameObject.width player) player)
    else if Qltb (GameObject.velocityX player) 0 && Qgtb (GameObject.x player) (Platform.x platform) then
      GameObject.set_velocityX 0
        (GameObject.set_x (Platform.x platform + Platform.width platform) player)
    else player
  else player.

(** Lines 296-327. *)
Definition platformSweep (player : GameObject.t) (platforms : list Platform.t) : GameObject.t :=
  foldl hitPlatform (GameObject.set_onGround false player) platforms.

Definition platformCollisions (f : Frame) : Frame :=
  let w := world f in
  with_world (set_playerRef (platformSweep (playerRef w) (platforms f)) w) f.

(** [powerUpsRef.current.push(p)]: the object is allocated and its address
    appended to the array the ref holds, which is also the local [powerUps]
    unless the ref was rebound in this tick. *)
Definition pushPowerUp (p : PowerUp.t) (f : Frame) : Frame :=
  let w := world f in
  let r := length (powerUpStore w) in
  let w := set_powerUpsRef (powerUpsRef w ++ [r]) (set_powerUpStore (powerUpStore w ++ [p]) w) in
  mkFrame w (platforms f) (enemies f) (bricks f)
    (if rebound f then powerUps f else powerUps f ++ [r]) (rebound f).

(** Lines 331-362: the body of the brick loop. *)
Definition hitBrick (f : Frame) (r : ref) : Frame :=
  let w := world f in
  match brickStore w !! r with
  | None => f
  | Some brick =>
      let player := playerRef w in
      if negb (Brick.broken brick) &&
         overlaps (GameObject.x player) (GameObject.y player)
                  (GameObject.width player) (GameObject.height player)
                  (Brick.x brick) (Brick.y brick) (Brick.width brick) (Brick.height brick)
      then
        if Qltb (GameObject.velocityY player) 0 && Qgtb (GameObject.y player) (Brick.y brick) then
          let f := with_world (set_brickStore (<[r := Brick.set_broken true brick]> (brickStore w)) w) f in
          let f :=
            match Brick.hasPowerUp brick, Brick.powerUpType brick with
            | true, Some Reward.coin => with_world (set_score (score (world f) + 100)%Z (world f)) f
            | true, Some (Reward.modifier type) =>
                pushPowerUp (PowerUp.mk (Brick.x brick) (Brick.y brick + Brick.height brick)
                               20 20 type false 0) f
            | _, _ => f
            end in
          with_world (set_playerRef (GameObject.set_velocityY 2 (playerRef (world f))) (world f)) f
        else f
      else f
  end.

(** Lines 329-363. *)
Definition brickCollisions (f : Frame) : Frame := foldl hitBrick f (bricks f).

(** Lines 373-383: a falling boost comes to rest on a platform. *)
Definition landPowerUp (powerUp : PowerUp.t) (platform : Platform.t) : PowerUp.t :=
  if overlaps (PowerUp.x powerUp) (PowerUp.y powerUp) (PowerUp.width powerUp) (PowerUp.height powerUp)
              (Platform.x platform) (Platform.y platform) (Platform.width platform) (Platform.height platform)
  then
    if Qgtb (PowerUp.velocityY powerUp) 0 && Qltb (PowerUp.y powerUp) (Platform.y platform) then
      PowerUp.set_velocityY 0
        (PowerUp.set_y (Platform.y platform - PowerUp.height powerUp) powerUp)
    else powerUp
  else powerUp.

(** Lines 367-397: the body of the boost loop. *)
Definition stepPowerUp (f : Frame) (r : ref) : Frame :=
  let w := world f in
  match powerUpStore w !! r with
  | None => f
  | Some powerUp =>
      if negb (PowerUp.collected powerUp) then
        let powerUp := PowerUp.set_velocityY (PowerUp.velocityY powerUp + GRAVITY * 0.5) powerUp in
        let powerUp := PowerUp.set_y (PowerUp.y powerUp + PowerUp.velocityY powerUp) powerUp in
        let powerUp := foldl landPowerUp powerUp (platforms f) in
        let player := playerRef w in
        if overlaps (GameObject.x player) (GameObject.y player)
                    (GameObject.width player) (GameObject.height player)
                    (PowerUp.x powerUp) (PowerUp.y powerUp) (PowerUp.width powerUp) (PowerUp.height powerUp)
        then
          let powerUp := PowerUp.set_collected true powerUp in
          let w := set_powerUpStore (<[r := powerUp]> (powerUpStore w)) w in
          let w := activatePowerUp (PowerUp.type powerUp) w in
          with_world (set_score (score w + 50)%Z w) f
        else with_world (set_powerUpStore (<[r := powerUp]> (powerUpStore w)) w) f
      else f
  end.

(** Lines 365-398. *)
Definition updatePowerUps (f : Frame) : Frame := foldl stepPowerUp f (powerUps f).

(** Lines 405-421: the first platform the hazard overlaps, as
    [(onPlatform, platformLeft, platformRight)]. *)
Fixpoint findPlatform (enemy : GameObject.t) (platforms : list Platform.t) : bool * Q * Q :=
  match platforms with
  | [] => (false, 0, 0)
  | platform :: rest =>
      if overlapsPlatform enemy platform
      then (true, Platform.x platform, Platform.x platform + Platform.width platform)
      else findPlatform enemy rest
  end.

(** Lines 402-436: a hazard moves, then turns around at an edge. *)
Definition patrol (platforms : list Platform.t) (enemy : GameObject.t) : GameObject.t :=
  let enemy := GameObject.set_x (GameObject.x enemy + GameObject.velocityX enemy) enemy in
  let '(onPlatform, platformLeft, platformRight) := findPlatform enemy platforms in
  if negb onPlatform
     || Qleb (GameObject.x enemy) platformLeft
     || Qgeb (GameObject.x enemy + GameObject.width enemy) platformRight
  then
    let enemy := GameObject.set_velocityX (GameObject.velocityX enemy * -1) enemy in
    if Qleb (GameObject.x enemy) platformLeft then
      GameObject.set_x platformLeft enemy
    else if Qgeb (GameObject.x enemy + GameObject.width enemy) platformRight then
      GameObject.set_x (platformRight - GameObject.width enemy) enemy
    else enemy
  else enemy.

(** [enemies.splice(index, 1)] on the local array, which is the array of
    [enemiesRef] unless the ref was rebound in this tick. *)
Definition spliceEnemy (index : nat) (f : Frame) : Frame :=
  let w := world f in
  let w := if rebound f then w else set_enemiesRef (delete index (enemiesRef w)) w in
  mkFrame w (platforms f) (delete index (enemies f)) (bricks f) (powerUps f) (rebound f).

(** Lines 401-460: the body of the hazard loop. *)
Definition stepEnemy (env : Closure) (f : Frame) (r : ref) : Frame :=
  let w := world f in
  match enemyStore w !! r with
  | None => f
  | Some enemy =>
      let enemy := patrol (platforms f) enemy in
      let w := set_enemyStore (<[r := enemy]> (enemyStore w)) w in
      let f := with_world w f in
      let player := playerRef w in
      if overlaps (GameObject.x player) (GameObject.y player)
                  (GameObject.width player) (GameObject.height player)
                  (GameObject.x enemy) (GameObject.y enemy)
                  (GameObject.width enemy) (GameObject.height enemy)
      then
        if Qgtb (GameObject.velocityY player) 0 && Qltb (GameObject.y player) (GameObject.y enemy) then
          let f :=
            match indexOf (enemies f) r with
            | Some index =>
                let f := spliceEnemy index f in
                with_world (set_score (score (world f) + 100)%Z (world f)) f
            | None => f
            end in
          with_world (set_playerRef (GameObject.set_velocityY (JUMP_FORCE / 2) (playerRef (world f)))
                        (world f)) f
        else if negb (Active.shield (seen_powerUpActive env)) then
          with_world (set_gameState gameOver w) f
        else f
      else f
  end.

(** [for (const enemy of enemies)]: the array iterator reads [enemies[i]]
    for i = 0, 1, ... until it runs past the end of the array as it is at
    that moment.  The array never grows inside the loop, so its initial
    length bounds the number of passes. *)
Fixpoint enemyLoop (env : Closure) (passes : nat) (i : nat) (f : Frame) : Frame :=
  match passes with
  | O => f
  | S passes' =>
      match enemies f !! i with
      | None => f
      | Some r => enemyLoop env passes' (S i) (stepEnemy env f r)
      end
  end.

Definition updateEnemies (env : Closure) (f : Frame) : Frame :=
  enemyLoop env (length (enemies f)) 0 f.

(** Lines 463-475: the coin loop runs over [coinsRef.current]. *)
Definition collectCoin (w : World) (i : nat) : World :=
  match coinsRef w !! i with
  | None => w
  | Some coin =>
      let player := playerRef w in
      if negb (Coin.collected coin) &&
         overlaps (GameObject.x player) (GameObject.y player)
                  (GameObject.width player) (GameObject.height player)
                  (Coin.x coin) (Coin.y coin) (Coin.width coin) (Coin.height coin)
      then
        set_score (score w + 50)%Z
          (set_coinsRef (<[i := Coin.set_collected true coin]> (coinsRef w)) w)
      else w
  end.

Definition collectCoins (w : World) : World :=
  foldl collectCoin w (seq 0 (length (coinsRef w))).

(** Lines 477-480. *)
Definition checkWin (w : World) : World :=
  if Qgeb (GameObject.x (playerRef w)) FINISH_LINE then set_gameState won w else w.

(** Lines 482-489. *)
Definition keepInBounds (w : World) : World :=
  let player := playerRef w in
  let player := if Qltb (GameObject.x player) 0 then GameObject.set_x 0 player else player in
  let player :=
    if Qgtb (GameObject.y player) 400 then
      GameObject.set_onGround true (GameObject.set_velocityY 0 (GameObject.set_y 400 player))
    else player in
  set_playerRef player w.

(** Lines 491-492. *)
Definition updateSpeed (w : World) : World :=
  set_gameSpeed (2 + Math_floor (GameObject.x (playerRef w) / 1000))%Z w.

(** [updateGame], as run by a closure that sees [env], in three stretches:
    lines 239-294 (input, motion, generator, camera), lines 296-461 (the
    collision loops over the local arrays) and lines 463-492. *)
Definition approach (env : Closure) (w : World) : Frame :=
  let w := handleInput env w in
  let w := integrate w in
  let f := spawnIfNeeded env w in
  with_world (followPlayer (world f)) f.

Definition resolve (env : Closure) (f : Frame) : Frame :=
  let f := platformCollisions f in
  let f := brickCollisions f in
  let f := updatePowerUps f in
  updateEnemies env f.

Definition settle (w : World) : World :=
  let w := collectCoins w in
  let w := checkWin w in
  let w := keepInBounds w in
  updateSpeed w.

Definition updateGame (env : Closure) (w : World) : World :=
  settle (world (resolve env (approach env w))).

(** ** The component's event handlers *)

(** [resetGame], the "Play Again" button. *)
Definition resetGame (w : World) : World :=
  let w := set_playerRef (GameObject.mk 100 300 30 30 0 0 false) w in
  let w := set_platformsRef [Platform.mk 0 400 200 40] w in
  let w := set_bricksRef [] w in
  let w := set_enemiesRef [] w in
  let w := set_coinsRef [] w in
  let w := set_powerUpsRef [] w in
  let w := set_score 0%Z w in
  let w := set_cameraX 0 w in
  let w := set_gameSpeed 2%Z w in
  let w := set_powerUpActive (Active.mk false false false) w in
  set_gameState playing w.

(** [handleKeyDown]. *)
Definition handleKeyDown (key : string) (w : World) : World :=
  if bool_decide (key = "p") || bool_decide (key = "P") then
    set_gameState (if decide (gameState w = playing) then paused else playing) w
  else set_keysRef ({[ key ]} ∪ keysRef w) w.

(** [handleKeyUp]. *)
Definition handleKeyUp (key : string) (w : World) : World :=
  set_keysRef (keysRef w ∖ {[ key ]}) w.

(** [gameLoop]: one animation frame. *)
Definition gameLoop (w : World) : World :=
  if decide (gameState w = playing) then updateGame (loop w) w else w.

(** The callback scheduled by [activatePowerUp]; the oldest pending expiry
    fires first since all delays are equal. *)
Definition expire (w : World) : World :=
  match timers w with
  | [] => w
  | type :: rest => set_timers rest (set_powerUpActive (Active.set type false (powerUpActive w)) w)
  end.

(** What can happen to the mounted component. *)
Inductive Event :=
| KeyDown (key : string)
| KeyUp (key : string)
| AnimationFrame
| Timeout
| ClickPlayAgain
| ClickResume.

Definition handle (e : Event) (w : World) : World :=
  match e with
  | KeyDown key => handleKeyDown key w
  | KeyUp key => handleKeyUp key w
  | AnimationFrame => gameLoop w
  | Timeout => expire w
  | ClickPlayAgain =>
      (* the button is rendered in the "gameOver" and "won" panels only *)
      if decide (gameState w = gameOver) then resetGame w
      else if decide (gameState w = won) then resetGame w
      else w
  | ClickResume =>
      (* the button is rendered in the "paused" panel only *)
      if decide (gameState w = paused) then set_gameState playing w else w
  end.

(** The closures of the current render: what a frame loop set up now sees
    of the modifiers and of the camera. *)
Definition refresh (w : World) : World :=
  set_loop (mkClosure (powerUpActive w) (cameraX w)) w.

(** Lines 122-131: the effect that owns the frame loop is set up with the
    closures of the current render, and its body calls [gameLoop()] at
    once. *)
Definition startLoop (w : World) : World := gameLoop (refresh w).

(** The tick that [gameLoop()] runs at once may end the run; the run state
    has then changed again and the effect is set up once more.  Its
    [gameLoop()] finds a run state other than "playing", so nothing is set
    up a third time. *)
Definition setUp (w : World) : World :=
  let started := startLoop w in
  if decide (gameState started = gameState w) then started else startLoop started.

(** The effect depends on [gameState] alone (line 138): it is torn down and
    set up again exactly when the run state has changed. *)
Definition rerender (before after : World) : World :=
  if decide (gameState after = gameState before) then after else setUp after.

Definition dispatch (e : Event) (w : World) : World := rerender w (handle e w).

Definition run (es : list Event) (w : World) : World := foldl (λ w e, dispatch e w) w es.

(** Mounting: the first render shows [initialWorld], then the effect is set
    up for the first time. *)
Definition mounted : World := setUp initialWorld.

(** The states the mounted component can be in. *)
Definition reachable (w : World) : Prop := ∃ es, w = run es mounted.

End Game.

(** ** Vocabulary of the properties *)

(** The two run states the spec calls terminal. *)
Definition terminal (s : GameState) : Prop := s = gameOver ∨ s = won.

(** A hazard after its move of line 402. *)
Definition advanced (enemy : GameObject.t) : GameObject.t :=
  GameObject.set_x (GameObject.x enemy + GameObject.velocityX enemy) enemy.

(** The payoff a brick carries: [brick.hasPowerUp && brick.powerUpType]. *)
Definition reward (brick : Brick.t) : option BrickReward :=
  if Brick.hasPowerUp brick then Brick.powerUpType brick else None.

(** Upward head contact of the player with an intact brick: the guards of
    lines 331-339. *)
Definition headContact (player : GameObject.t) (brick : Brick.t) : Prop :=
  Brick.broken brick = false ∧
  overlaps (GameObject.x player) (GameObject.y player)
           (GameObject.width player) (GameObject.height player)
           (Brick.x brick) (Brick.y brick) (Brick.width brick) (Brick.height brick) = true ∧
  GameObject.velocityY player < 0 ∧
  Brick.y brick < GameObject.y player.

(** A boost after its fall of lines 368-384. *)
Definition fallen (platforms : list Platform.t) (powerUp : PowerUp.t) : PowerUp.t :=
  let powerUp := PowerUp.set_velocityY (PowerUp.velocityY powerUp + GRAVITY * 0.5) powerUp in
  let powerUp := PowerUp.set_y (PowerUp.y powerUp + PowerUp.velocityY powerUp) powerUp in
  foldl landPowerUp powerUp platforms.

(** The player touches the boost (lines 387-392). *)
Definition touches (player : GameObject.t) (powerUp : PowerUp.t) : bool :=
  overlaps (GameObject.x player) (GameObject.y player)
           (GameObject.width player) (GameObject.height player)
           (PowerUp.x powerUp) (PowerUp.y powerUp) (PowerUp.width powerUp) (PowerUp.height powerUp).

(** What the collision loops and the end of the tick never write: the
    camera, the random cursor, the platform array, the player's size and the
    frame closure. *)
Definition quiet (w w' : World) : Prop :=
  cameraX w' = cameraX w ∧
  drawn w' = drawn w ∧
  platformsRef w' = platformsRef w ∧
  GameObject.width (playerRef w') = GameObject.width (playerRef w) ∧
  loop w' = loop w.

(** [quiet], and the bricks are left alone as well. *)
Definition calm (w w' : World) : Prop := quiet w w' ∧ brickStore w' = brickStore w.

(** What the generator's pushes do to a world: hook state, player, keys,
    timers and boosts stay; cursor, arrays and stores only grow, and the
    bricks added are intact. *)
Definition grows (w w' : World) : Prop :=
  (gameState w', score w', cameraX w', gameSpeed w', powerUpActive w', playerRef w',
   keysRef w', timers w', loop w', powerUpsRef w', powerUpStore w')
  = (gameState w, score w, cameraX w, gameSpeed w, powerUpActive w, playerRef w,
     keysRef w, timers w, loop w, powerUpsRef w, powerUpStore w) ∧
  (drawn w ≤ drawn w')%nat ∧
  platformsRef w `prefix_of` platformsRef w' ∧
  bricksRef w `prefix_of` bricksRef w' ∧
  enemiesRef w `prefix_of` enemiesRef w' ∧
  coinsRef w `prefix_of` coinsRef w' ∧
  enemyStore w `prefix_of` enemyStore w' ∧
  ∃ new, brickStore w' = brickStore w ++ new ∧ Forall (λ b, Brick.broken b = false) new.

(** The brick at an address is broken. *)
Definition brokenAt (w : World) (r : ref) : Prop :=
  ∃ brick, brickStore w !! r = Some brick ∧ Brick.broken brick = true.

(** The brick at [r] goes from intact (or not yet there) to broken. *)
Definition breaks (w w' : World) (r : ref) : Prop := brokenAt w' r ∧ ¬ brokenAt w r.

(** What the brick loop can have done to the store it started from. *)
Definition atMostOneBroken (before after : list Brick.t) : Prop :=
  after = before ∨
  ∃ (r : ref) brick, before !! r = Some brick ∧ Brick.broken brick = false ∧
                     after = <[r := Brick.set_broken true brick]> before.

(** [q] begins at least 100 beyond the end of [p]: the smallest gap the
    generator leaves. *)
Definition gap (p q : Platform.t) : Prop :=
  Platform.x p + Platform.width p + 100 <= Platform.x q.

(** The platform array as the generator builds it: left to right with gaps,
    no platform of negative width. *)
Definition spaced (platforms : list Platform.t) : Prop :=
  StronglySorted gap platforms ∧ Forall (λ p, 0 <= Platform.width p) platforms.

(** The player is narrower than a gap. *)
Definition wellFormed (w : World) : Prop :=
  spaced (platformsRef w) ∧ GameObject.width (playerRef w) = 30.

(** Horizontal part of the rectangle test. *)
Definition besides (player : GameObject.t) (p : Platform.t) : Prop :=
  Platform.x p + Platform.width p <= GameObject.x player ∨
  GameObject.x player + GameObject.width player <= Platform.x p.

(** ** Sample states *)

(** The player rising into a brick that carries a jump boost. *)
Definition jumpBrick : Brick.t :=
  Brick.mk 100 280 25 25 false true (Some (Reward.modifier Kind.jump)).

Definition underBrick : World :=
  set_brickStore [jumpBrick]
    (set_bricksRef [0%nat]
       (set_playerRef (GameObject.mk 100 290 30 30 0 (-9) false) initialWorld)).

Definition underBrickFrame : Frame :=
  mkFrame underBrick (platformsRef underBrick) [] [0%nat] [] false.

(** The player running over the finish line into a hazard that stands in
    the last platform. *)
Definition atFinish : World :=
  set_keysRef {[ "d" ]}
    (set_enemyStore [GameObject.mk 10000 380 25 25 0 0 true]
       (set_enemiesRef [0%nat]
          (set_platformsRef [Platform.mk 9900 400 300 40]
             (set_playerRef (GameObject.mk 9996 370 30 30 0 0 true) initialWorld)))).

(** The player rising into two stacked intact bricks at once. *)
Definition underTwoBricks : World :=
  set_brickStore [Brick.mk 100 280 25 25 false false None; Brick.mk 100 285 25 25 false false None]
    (set_bricksRef [0%nat; 1%nat]
       (set_playerRef (GameObject.mk 100 300 30 30 0 (-10) false) initialWorld)).


(** ** Head-up display *)

(** [Math.round]: to the nearest integer, halves upward. *)
Definition Math_round (a : Q) : Z := Qfloor (a + 0.5).

(** [renderGame], lines 603-609: the figures drawn next to the score. *)
Definition progress (player : GameObject.t) : Q :=
  Math_min (GameObject.x player / FINISH_LINE * 100) 100.

Definition distanceLeft (player : GameObject.t) : Q :=
  Math_max 0 (FINISH_LINE - GameObject.x player).

(** ** Vocabulary of the further properties *)

(** The flag of one modifier. *)
Definition isActive (k : PowerUpKind) (a : Active.t) : bool :=
  match k with
  | Kind.speed => Active.speed a
  | Kind.jump => Active.jump a
  | Kind.shield => Active.shield a
  end.

(** Every modifier that is on has an expiry pending. *)
Definition expiring (w : World) : Prop :=
  ∀ k, isActive k (powerUpActive w) = true → k ∈ timers w.

(** What a stretch of a tick may do to the books: the score rises by a
    multiple of 50, the run state stays or, only when no shield is seen,
    becomes "gameOver", a modifier is switched on only together with a new
    expiry, and no pending expiry is dropped. *)
Definition bookkeeping (shielded : bool) (w w' : World) : Prop :=
  (∃ n : nat, score w' = (score w + 50 * Z.of_nat n)%Z) ∧
  (gameState w' = gameState w ∨ (shielded = false ∧ gameState w' = gameOver)) ∧
  (∀ k, isActive k (powerUpActive w') = true →
        isActive k (powerUpActive w) = true ∨ k ∈ timers w') ∧
  timers w `prefix_of` timers w'.

(** A hazard standing in a platform next to the player, away from the
    finish line. *)
Definition besideHazard : World :=
  set_enemyStore [GameObject.mk 510 380 25 25 0 0 true]
    (set_enemiesRef [0%nat]
       (set_platformsRef [Platform.mk 400 400 300 40]
          (set_playerRef (GameObject.mk 500 370 30 30 0 0 true) initialWorld))).

(** What the generator promises of a brick it places over a platform that
    begins at [spawnX] with its top at [platformY]. *)
Definition freshBrick (spawnX platformY : Q) (b : Brick.t) : Prop :=
  Brick.broken b = false ∧
  Brick.width b = 25 ∧ Brick.height b = 25 ∧
  (Brick.hasPowerUp b = true ↔ is_Some (Brick.powerUpType b)) ∧
  spawnX <= Brick.x b ∧
  Brick.y b + Brick.height b <= platformY - 5.

(** ... of the hazard it places on the platform ... *)
Definition freshHazard (spawnX platformY : Q) (e : GameObject.t) : Prop :=
  GameObject.x e = spawnX + 20 ∧
  GameObject.y e + GameObject.height e == platformY ∧
  GameObject.width e = 25 ∧
  (GameObject.velocityX e = 1.5 ∨ GameObject.velocityX e = -1.5) ∧
  GameObject.velocityY e = 0.

(** ... and of the coin above it. *)
Definition freshCoin (spawnX platformY : Q) (c : Coin.t) : Prop :=
  Coin.collected c = false ∧
  spawnX + 10 <= Coin.x c ∧
  Coin.y c + Coin.height c == platformY - 20.

(** The guard of the coin loop, lines 465-471. *)
Definition pocketed (player : GameObject.t) (coin : Coin.t) : bool :=
  negb (Coin.collected coin) &&
  overlaps (GameObject.x player) (GameObject.y player)
           (GameObject.width player) (GameObject.height player)
           (Coin.x coin) (Coin.y coin) (Coin.width coin) (Coin.height coin).

(** A coin after the loop has looked at it. *)
Definition pocket (player : GameObject.t) (coin : Coin.t) : Coin.t :=
  if pocketed player coin then Coin.set_collected true coin else coin.

(** A boost passes a platform by on the left or on the right. *)
Definition clearOf (powerUp : PowerUp.t) (p : Platform.t) : Prop :=
  Platform.x p + Platform.width p <= PowerUp.x powerUp ∨
  PowerUp.x powerUp + PowerUp.width powerUp <= Platform.x p.

(** The boost after lines 368-369, before it is tested against platforms. *)
Definition dropped (powerUp : PowerUp.t) : PowerUp.t :=
  let powerUp := PowerUp.set_velocityY (PowerUp.velocityY powerUp + GRAVITY * 0.5) powerUp in
  PowerUp.set_y (PowerUp.y powerUp + PowerUp.velocityY powerUp) powerUp.

(** The far edge of a platform. *)
Definition farEdge (p : Platform.t) : Q := Platform.x p + Platform.width p.

(** The player's horizontal motion. *)
Definition sameTrack (w w' : World) : Prop :=
  GameObject.x (playerRef w') = GameObject.x (playerRef w) ∧
  GameObject.velocityX (playerRef w') = GameObject.velocityX (playerRef w).

(** A player of width 30 no further right than [limit], no faster than the
    boosted walking speed. *)
Definition within (limit : Q) (player : GameObject.t) : Prop :=
  GameObject.x player <= limit ∧
  -7.5 <= GameObject.velocityX player <= 7.5 ∧
  GameObject.width player = 30.

(** The generator has kept up: the platform array ends with a platform that
    lies ahead of the cleanup line of the camera, and of the camera position
    the frame closure sees, and the player is at most 200 past its far
    edge. *)
Definition supplied (w : World) : Prop :=
  ∃ lastPlatform,
    last (platformsRef w) = Some lastPlatform ∧
    200 <= farEdge lastPlatform ∧
    cameraX w + 192.5 <= farEdge lastPlatform ∧
    seen_cameraX (loop w) + 192.5 <= farEdge lastPlatform ∧
    within (farEdge lastPlatform + 200) (playerRef w).

(** A grounded player is at rest on the floor line or on top of one of the
    platforms. *)
Definition standing (platforms : list Platform.t) (player : GameObject.t) : Prop :=
  GameObject.onGround player = true →
  GameObject.velocityY player = 0 ∧
  (GameObject.y player = 400 ∨
   ∃ p, p ∈ platforms ∧ GameObject.y player = Platform.y p - GameObject.height player).

(** Collected boosts are left exactly as they are. *)
Definition keepsSpent (w w' : World) : Prop :=
  ∀ r p, powerUpStore w !! r = Some p → PowerUp.collected p = true →
         powerUpStore w' !! r = Some p.

(** What may become of a hazard: it keeps its height above the ground, its
    size and its speed, and moves to the left or to the right. *)
Definition lane (enemy enemy' : GameObject.t) : Prop :=
  (GameObject.y enemy', GameObject.width enemy', GameObject.height enemy',
   GameObject.velocityY enemy', GameObject.onGround enemy')
  = (GameObject.y enemy, GameObject.width enemy, GameObject.height enemy,
     GameObject.velocityY enemy, GameObject.onGround enemy) ∧
  (GameObject.velocityX enemy' == GameObject.velocityX enemy ∨
   GameObject.velocityX enemy' == - GameObject.velocityX enemy).

(** Every hazard object is still there, in its lane. *)
Definition keepsLanes (w w' : World) : Prop :=
  ∀ r enemy, enemyStore w !! r = Some enemy →
             ∃ enemy', enemyStore w' !! r = Some enemy' ∧ lane enemy enemy'.

(** A run during which no handler changes the run state. *)
Fixpoint steady (random : nat → Q) (w : World) (es : list Event) : Prop :=
  match es with
  | [] => True
  | e :: es' => gameState (handle random e w) = gameState w ∧ steady random (dispatch random e w) es'
  end.

(** * Properties *)

(** ** Comparisons *)

Lemma Qltb_lt (a b : Q) : Qltb a b = true ↔ a < b.
Proof.
  unfold Qltb. rewrite negb_true_iff, <- not_true_iff_false, Qle_bool_iff.
  split; [apply Qnot_le_lt | apply Qlt_not_le].
Qed.

Lemma Qltb_ge (a b : Q) : Qltb a b = false ↔ b <= a.
Proof. unfold Qltb. rewrite negb_false_iff. apply Qle_bool_iff. Qed.

Lemma Qgtb_gt (a b : Q) : Qgtb a b = true ↔ b < a.
Proof. apply Qltb_lt. Qed.

Lemma Qgtb_le (a b : Q) : Qgtb a b = false ↔ a <= b.
Proof. apply Qltb_ge. Qed.

Lemma Qleb_le (a b : Q) : Qleb a b = true ↔ a <= b.
Proof. apply Qle_bool_iff. Qed.

Lemma Qleb_gt (a b : Q) : Qleb a b = false ↔ b < a.
Proof.
  unfold Qleb. rewrite <- not_true_iff_false, Qle_bool_iff.
  split; [apply Qnot_le_lt | apply Qlt_not_le].
Qed.

Lemma Qgeb_ge (a b : Q) : Qgeb a b = true ↔ b <= a.
Proof. apply Qle_bool_iff. Qed.

Lemma Qgeb_lt (a b : Q) : Qgeb a b = false ↔ a < b.
Proof. apply Qleb_gt. Qed.

(** Turn every boolean comparison in the context and goal into an
    inequality that [lra] understands. *)
Ltac compare_hyps :=
  repeat match goal with
  | H : Qltb _ _ = true |- _ => apply Qltb_lt in H
  | H : Qltb _ _ = false |- _ => apply Qltb_ge in H
  | H : Qgtb _ _ = true |- _ => apply Qgtb_gt in H
  | H : Qgtb _ _ = false |- _ => apply Qgtb_le in H
  | H : Qleb _ _ = true |- _ => apply Qleb_le in H
  | H : Qleb _ _ = false |- _ => apply Qleb_gt in H
  | H : Qgeb _ _ = true |- _ => apply Qgeb_ge in H
  | H : Qgeb _ _ = false |- _ => apply Qgeb_lt in H
  end.

Ltac compare_goal :=
  match goal with
  | |- Qltb _ _ = true => apply Qltb_lt
  | |- Qltb _ _ = false => apply Qltb_ge
  | |- Qgtb _ _ = true => apply Qgtb_gt
  | |- Qgtb _ _ = false => apply Qgtb_le
  | |- Qleb _ _ = true => apply Qleb_le
  | |- Qleb _ _ = false => apply Qleb_gt
  | |- Qgeb _ _ = true => apply Qgeb_ge
  | |- Qgeb _ _ = false => apply Qgeb_lt
  end.

Lemma overlaps_spec (ax ay aw ah bx by_ bw bh : Q) :
  overlaps ax ay aw ah bx by_ bw bh = true ↔
  ax < bx + bw ∧ bx < ax + aw ∧ ay < by_ + bh ∧ by_ < ay + ah.
Proof.
  unfold overlaps. rewrite !andb_true_iff, !Qltb_lt, !Qgtb_gt. tauto.
Qed.

(** ** Restart *)

(** C7. After [resetGame], whatever the state before: the player is back at
    x = 100, y = 300 with zero velocity and not grounded, the score and the
    camera offset are 0, the platform array holds the starting ground alone,
    the brick, hazard, coin and boost arrays are empty, no modifier is
    active and the run state is "playing"; these are the values the
    component was mounted with. *)
Theorem resetGame_full_reset (w : World) :
  let w' := resetGame w in
  playerRef w' = GameObject.mk 100 300 30 30 0 0 false ∧
  score w' = 0%Z ∧
  cameraX w' = 0 ∧
  platformsRef w' = [Platform.mk 0 400 200 40] ∧
  bricksRef w' = [] ∧ enemiesRef w' = [] ∧ coinsRef w' = [] ∧ powerUpsRef w' = [] ∧
  powerUpActive w' = Active.mk false false false ∧
  gameState w' = playing ∧
  (playerRef w', score w', cameraX w', platformsRef w', bricksRef w', enemiesRef w',
   coinsRef w', powerUpsRef w', powerUpActive w', gameState w')
  = (playerRef initialWorld, score initialWorld, cameraX initialWorld,
     platformsRef initialWorld, bricksRef initialWorld, enemiesRef initialWorld,
     coinsRef initialWorld, powerUpsRef initialWorld, powerUpActive initialWorld,
     gameState initialWorld).
Proof. repeat split. Qed.

(** ** Run state *)

Section RunState.

Variable random : nat → Q.

Lemma run_snoc (es : list Event) (e : Event) (w : World) :
  run random (es ++ [e]) w = dispatch random e (run random es w).
Proof. unfold run. by rewrite foldl_app. Qed.

(** Outside "playing" setting up the loop runs no tick. *)
Lemma startLoop_outside_playing (w : World) :
  gameState w ≠ playing → startLoop random w = refresh w.
Proof. intros Hs. unfold startLoop, gameLoop. simpl. by rewrite decide_False. Qed.

(** Setting up the loop comes to rest: either the tick it runs at once
    leaves the run state alone, or that tick has ended the run and the loop
    set up in its place does nothing. *)
Lemma setUp_cases (w : World) :
  (setUp random w = startLoop random w ∧ gameState (startLoop random w) = gameState w) ∨
  (gameState w = playing ∧ gameState (startLoop random w) ≠ playing ∧
   setUp random w = refresh (startLoop random w)).
Proof.
  unfold setUp.
  destruct (decide (gameState (startLoop random w) = gameState w)) as [E | Hne]; [by left |].
  right. destruct (decide (gameState w = playing)) as [Hp | Hp].
  - assert (Hs : gameState (startLoop random w) ≠ playing) by congruence.
    split; [done |]. split; [done |]. by apply startLoop_outside_playing.
  - exfalso. apply Hne. by rewrite startLoop_outside_playing.
Qed.

(** So the effect is set up at most twice in a row: each time the run
    state it leaves is the one it was set up with, or it is the first of
    two. *)
Lemma setUp_rests (w : World) :
  (setUp random w = startLoop random w ∧ gameState (setUp random w) = gameState w) ∨
  (setUp random w = startLoop random (startLoop random w) ∧
   gameState (setUp random w) = gameState (startLoop random w)).
Proof.
  destruct (setUp_cases w) as [[E1 E2] | (Hp & Hs & E)].
  - left. split; [done |]. by rewrite E1.
  - right. rewrite E. split; [| done].
    by rewrite (startLoop_outside_playing (startLoop random w)).
Qed.

Lemma setUp_outside_playing (w : World) :
  gameState w ≠ playing → setUp random w = refresh w.
Proof.
  intros Hs. destruct (setUp_cases w) as [[E _] | (Hp & _)]; [| done].
  by rewrite E, startLoop_outside_playing.
Qed.

(** A frame is followed by a new set-up only when it has ended the run, and
    that set-up runs no tick. *)
Lemma frame_then_rerender (w : World) :
  dispatch random AnimationFrame w = gameLoop random w ∨
  (gameState w = playing ∧ gameState (gameLoop random w) ≠ playing ∧
   dispatch random AnimationFrame w = refresh (gameLoop random w)).
Proof.
  unfold dispatch, rerender. simpl.
  destruct (decide (gameState (gameLoop random w) = gameState w)) as [E | Hne]; [by left |].
  right. destruct (decide (gameState w = playing)) as [Hp | Hp].
  - assert (Hs : gameState (gameLoop random w) ≠ playing) by congruence.
    split; [done |]. split; [done |]. by apply setUp_outside_playing.
  - exfalso. apply Hne. unfold gameLoop. by rewrite decide_False.
Qed.

Lemma dispatch_frame (w : World) :
  dispatch random AnimationFrame w
  = if decide (gameState (gameLoop random w) = gameState w) then gameLoop random w
    else refresh (gameLoop random w).
Proof.
  unfold dispatch, rerender. simpl.
  destruct (decide (gameState (gameLoop random w) = gameState w)) as [E | Hne]; [done |].
  apply setUp_outside_playing.
  destruct (decide (gameState w = playing)) as [Hp | Hp]; [congruence |].
  exfalso. apply Hne. unfold gameLoop. by rewrite decide_False.
Qed.

(** Setting the loop up on a world whose closure is already fresh does what
    a frame does. *)
Lemma setUp_fresh (w : World) :
  refresh w = w → setUp random w = dispatch random AnimationFrame w.
Proof.
  intros Hw. rewrite dispatch_frame.
  destruct (setUp_cases w) as [[E1 E2] | (Hp & Hs & E)]; unfold startLoop in *; rewrite Hw in *.
  - rewrite E1. by rewrite decide_True.
  - rewrite E. rewrite decide_False by congruence. done.
Qed.

(** The component is mounted by the first tick: the world of the first
    render after one frame. *)
Lemma mounted_first_frame : mounted random = dispatch random AnimationFrame initialWorld.
Proof. unfold mounted. by apply setUp_fresh. Qed.

(** What holds of a world and survives a fresh closure and a frame also
    holds once the loop is set up. *)
Lemma setUp_kept (P : World → Prop) (w : World) :
  (∀ v, P v → P (refresh v)) → (∀ v, P v → P (gameLoop random v)) →
  P w → P (setUp random w).
Proof.
  intros Hf Hg Hw. unfold setUp, startLoop. case_match; repeat (apply Hg || apply Hf); done.
Qed.

Lemma rerender_kept (P : World → Prop) (before after : World) :
  (∀ v, P v → P (refresh v)) → (∀ v, P v → P (gameLoop random v)) →
  P after → P (rerender random before after).
Proof.
  intros Hf Hg Ha. unfold rerender. case_match; [done |]. by apply (setUp_kept P).
Qed.

(** The same when the handler's result is only fit for a loop set up
    anew. *)
Lemma rerender_kept_fresh (P : World → Prop) (before after : World) :
  (∀ v, P v → P (refresh v)) → (∀ v, P v → P (gameLoop random v)) →
  (gameState after = gameState before → P after) → P (refresh after) →
  P (rerender random before after).
Proof.
  intros Hf Hg Hsame Hfresh. unfold rerender. case_match; [by apply Hsame |].
  unfold setUp, startLoop. case_match; [by apply Hg |].
  apply Hg, Hf. by apply Hg.
Qed.

(** Induction over the life of the component. *)
Lemma reachable_kept (P : World → Prop) :
  P initialWorld →
  (∀ v, P v → P (refresh v)) →
  (∀ e v, P v → P (handle random e v)) →
  ∀ w, reachable random w → P w.
Proof.
  intros H0 Hf Hh w [es ->].
  assert (Hg : ∀ v, P v → P (gameLoop random v)) by (intros v; apply (Hh AnimationFrame)).
  induction es as [| e es IH] using rev_ind.
  - by apply (setUp_kept P).
  - rewrite run_snoc. apply (rerender_kept P); [done | done |]. by apply Hh.
Qed.

(** A frame outside "playing" changes nothing. *)
Lemma frame_outside_playing (w : World) :
  gameState w ≠ playing → dispatch random AnimationFrame w = w.
Proof.
  intros Hs. unfold dispatch, handle, gameLoop.
  destruct (decide (gameState w = playing)); [done |].
  unfold rerender. by rewrite decide_True.
Qed.

(** Keys other than the pause key, key releases, expiring modifiers and
    frames leave a terminal run state as it is. *)
Lemma terminal_state_kept (e : Event) (w : World) :
  terminal (gameState w) →
  e ≠ KeyDown "p" → e ≠ KeyDown "P" → e ≠ ClickPlayAgain →
  gameState (dispatch random e w) = gameState w.
Proof.
  intros Ht Hp HP Hr.
  assert (Hnp : gameState w ≠ playing) by (destruct Ht as [-> | ->]; done).
  assert (Hnq : gameState w ≠ paused) by (destruct Ht as [-> | ->]; done).
  assert (Hk : ∀ w', gameState w' = gameState w → gameState (rerender random w w') = gameState w).
  { intros w' Hw'. unfold rerender. by rewrite decide_True. }
  destruct e as [key | key | | | |]; unfold dispatch; apply Hk; simpl.
  - unfold handleKeyDown.
    destruct (bool_decide (key = "p")) eqn:E1.
    { apply bool_decide_eq_true in E1. congruence. }
    destruct (bool_decide (key = "P")) eqn:E2.
    { apply bool_decide_eq_true in E2. congruence. }
    done.
  - done.
  - unfold gameLoop. by rewrite decide_False.
  - unfold expire. by destruct (timers w).
  - done.
  - by rewrite decide_False.
Qed.

(** C1 (the code departs from the claim). In a terminal run state the pause
    key ("p" or "P") puts the run state back to "playing" and changes
    nothing else: nothing is restarted.  The run state having changed, the
    frame loop is set up again on the world as the ended run left it and
    runs a simulation tick on it at once.  The run state is "playing"
    afterwards unless that very tick ends the run again. *)
Theorem pause_key_resumes_terminal_state (key : string) (w : World) :
  terminal (gameState w) →
  key = "p" ∨ key = "P" →
  let resumed := refresh (set_gameState playing w) in
  let ticked := updateGame random (loop resumed) resumed in
  handle random (KeyDown key) w = set_gameState playing w ∧
  (playerRef resumed, score resumed, cameraX resumed, platformsRef resumed, bricksRef resumed,
   enemiesRef resumed, coinsRef resumed, powerUpsRef resumed, powerUpActive resumed)
  = (playerRef w, score w, cameraX w, platformsRef w, bricksRef w,
     enemiesRef w, coinsRef w, powerUpsRef w, powerUpActive w) ∧
  dispatch random (KeyDown key) w
  = (if decide (gameState ticked = playing) then ticked else refresh ticked) ∧
  (gameState ticked = playing → gameState (dispatch random (KeyDown key) w) = playing).
Proof.
  intros Ht Hkey resumed ticked.
  assert (Hne : playing ≠ gameState w) by (destruct Ht as [E | E]; rewrite E; done).
  assert (Hh : handle random (KeyDown key) w = set_gameState playing w).
  { simpl. unfold handleKeyDown.
    assert (Hb : bool_decide (key = "p") || bool_decide (key = "P") = true).
    { destruct Hkey as [-> | ->]; reflexivity. }
    rewrite Hb. by rewrite (decide_False (P := gameState w = playing)). }
  assert (Hd : dispatch random (KeyDown key) w = setUp random (set_gameState playing w)).
  { unfold dispatch. rewrite Hh. unfold rerender. simpl.
    by rewrite (decide_False (P := playing = gameState w)). }
  assert (Hs : startLoop random (set_gameState playing w) = ticked).
  { unfold startLoop, gameLoop. fold resumed. by rewrite decide_True. }
  assert (Hcases : dispatch random (KeyDown key) w
                   = if decide (gameState ticked = playing) then ticked else refresh ticked).
  { rewrite Hd. destruct (setUp_cases (set_gameState playing w)) as [[E1 E2] | (_ & E1 & E2)];
      rewrite Hs in *.
    - rewrite E1. by rewrite decide_True.
    - rewrite E2. by rewrite decide_False. }
  split; [exact Hh |]. split; [done |]. split; [exact Hcases |].
  intros Hp. rewrite Hcases. by rewrite decide_True.
Qed.

End RunState.

(** After a lost run the pause key alone sets the simulation going again:
    the run state is "playing", the score is the old one, and the player
    has already moved. *)
Lemma pause_key_resumes_terminal_state_witness :
  let w := set_gameState gameOver initialWorld in
  terminal (gameState w) ∧
  gameState (dispatch (λ _, 0.5) (KeyDown "p") w) = playing ∧
  score (dispatch (λ _, 0.5) (KeyDown "p") w) = score w ∧
  playerRef (dispatch (λ _, 0.5) (KeyDown "p") w) ≠ playerRef w.
Proof.
  intros w.
  assert (Ht : terminal (gameState w)) by (left; reflexivity).
  assert (Hk : "p" = "p" ∨ "p" = "P") by (left; reflexivity).
  destruct (pause_key_resumes_terminal_state (λ _, 0.5) "p" w Ht Hk) as (_ & _ & E & _).
  split; [exact Ht |]. rewrite E. vm_compute. repeat split; discriminate.
Defined.

(** ** Hazard patrol *)

Section Patrol.

Implicit Types (enemy : GameObject.t) (platforms : list Platform.t).

Lemma findPlatform_on enemy platforms l r :
  findPlatform enemy platforms = (true, l, r) →
  ∃ p, p ∈ platforms ∧ overlapsPlatform enemy p = true ∧
       l = Platform.x p ∧ r = Platform.x p + Platform.width p.
Proof.
  induction platforms as [| p ps IH]; simpl; [done |].
  destruct (overlapsPlatform enemy p) eqn:E.
  - intros [= <- <-]. exists p. split; [left | done].
  - intros H. destruct (IH H) as (q & Hq & ?). exists q. split; [by right | done].
Qed.

Lemma findPlatform_off enemy platforms l r :
  findPlatform enemy platforms = (false, l, r) →
  l = 0 ∧ r = 0 ∧ ∀ p, p ∈ platforms → overlapsPlatform enemy p = false.
Proof.
  induction platforms as [| p ps IH]; simpl.
  - intros [= <- <-]. repeat split. intros p Hp. by apply elem_of_nil in Hp.
  - destruct (overlapsPlatform enemy p) eqn:E; [done |].
    intros H. destruct (IH H) as (-> & -> & Hall). repeat split.
    intros q [-> | Hq]%elem_of_cons; auto.
Qed.

(** On a platform the patrol does what the spec says: strictly inside the
    span the hazard just moves; at an edge it turns and is put on that
    edge. *)
Lemma patrol_on_platform enemy platforms l r :
  findPlatform (advanced enemy) platforms = (true, l, r) →
  let e := advanced enemy in
  let e' := patrol platforms enemy in
  (l < GameObject.x e ∧ GameObject.x e + GameObject.width e < r → e' = e) ∧
  (GameObject.x e <= l →
     e' = GameObject.set_x l (GameObject.set_velocityX (GameObject.velocityX e * -1) e)) ∧
  (l < GameObject.x e → r <= GameObject.x e + GameObject.width e →
     e' = GameObject.set_x (r - GameObject.width e)
            (GameObject.set_velocityX (GameObject.velocityX e * -1) e)).
Proof.
  intros Hf e e'. unfold e', patrol. fold (advanced enemy). fold e. unfold e in Hf |- *.
  rewrite Hf. simpl. repeat split.
  - intros [H1 H2]. apply Qleb_gt in H1. apply Qgeb_lt in H2. by rewrite H1, H2.
  - intros H1. apply Qleb_le in H1. by rewrite H1.
  - intros H1 H2. apply Qleb_gt in H1. apply Qgeb_ge in H2. by rewrite H1, H2.
Qed.

(** Off every platform the edges default to 0: the hazard turns and is put
    at x = 0 or at x = -width, wherever it was. *)
Lemma patrol_off_platform enemy platforms :
  (∀ p, p ∈ platforms → overlapsPlatform (advanced enemy) p = false) →
  let e := advanced enemy in
  let e' := patrol platforms enemy in
  GameObject.velocityX e' = GameObject.velocityX e * -1 ∧
  (GameObject.x e <= 0 → GameObject.x e' = 0) ∧
  (0 < GameObject.x e → 0 <= GameObject.width e → GameObject.x e' = 0 - GameObject.width e).
Proof.
  intros Hoff e e'.
  assert (Hf : findPlatform e platforms = (false, 0, 0)).
  { unfold e. clear e e'. induction platforms as [| p ps IH]; simpl; [done |].
    rewrite Hoff by (by left). apply IH. intros q Hq. apply Hoff. by right. }
  unfold e', patrol. fold (advanced enemy). fold e. rewrite Hf. simpl.
  split; [| split].
  - repeat case_match; reflexivity.
  - intros H. apply Qleb_le in H. unfold e in H. simpl in H. by rewrite H.
  - intros H1 H2.
    assert (H3 : 0 <= GameObject.x enemy + GameObject.velocityX enemy + GameObject.width enemy)
      by lra.
    apply Qleb_gt in H1. apply Qgeb_ge in H3. by rewrite H1, H3.
Qed.

End Patrol.

(** C4 (the code departs from the claim). With every [Math.random()] equal
    to 0.5 the first frame of a run generates a platform spanning
    [400, 530] with a hazard at x = 420 resting on it.  Resting on top is
    not overlapping, so the hazard counts as off every platform: in that
    same frame it turns around and is put at x = -25, the "right edge" 0 of
    no platform minus its width. *)
Theorem generated_hazard_leaves_its_platform :
  let random := λ _ : nat, 0.5 in
  let spawned := spawnGroup random startingGround initialWorld in
  let w := dispatch random AnimationFrame initialWorld in
  let span (p : Platform.t) := (Qred (Platform.x p), Qred (Platform.x p + Platform.width p)) in
  let view (e : GameObject.t) :=
    (Qred (GameObject.x e), Qred (GameObject.y e), Qred (GameObject.width e),
     Qred (GameObject.velocityX e)) in
  span <$> platformsRef spawned = [(0, 200); (400, 530)] ∧
  enemiesRef spawned = [0%nat] ∧
  view <$> enemyStore spawned = [(420, 325, 25, -3 # 2)] ∧
  (λ e, findPlatform (advanced e) (platformsRef spawned)) <$> enemyStore spawned
  = [(false, 0, 0)] ∧
  enemiesRef w = [0%nat] ∧
  view <$> enemyStore w = [(-25, 325, 25, 3 # 2)].
Proof. vm_compute. repeat split. Qed.

(** ** Bricks and boosts *)

(** The boost loop body on a boost that is still there. *)
Lemma stepPowerUp_uncollected (g : Frame) (q : ref) (powerUp : PowerUp.t) :
  powerUpStore (world g) !! q = Some powerUp →
  PowerUp.collected powerUp = false →
  stepPowerUp g q =
    let w := world g in
    let landed := fallen (platforms g) powerUp in
    if touches (playerRef w) landed then
      let w := set_powerUpStore (<[q := PowerUp.set_collected true landed]> (powerUpStore w)) w in
      let w := activatePowerUp (PowerUp.type landed) w in
      with_world (set_score (score w + 50)%Z w) g
    else with_world (set_powerUpStore (<[q := landed]> (powerUpStore w)) w) g.
Proof. intros H1 H2. unfold stepPowerUp. rewrite H1, H2. reflexivity. Qed.

(** Without upward motion no brick reacts. *)
Lemma hitBrick_not_rising (f : Frame) (r : ref) :
  0 <= GameObject.velocityY (playerRef (world f)) → hitBrick f r = f.
Proof.
  intros Hv. unfold hitBrick. apply Qltb_ge in Hv. rewrite Hv.
  destruct (brickStore (world f) !! r); [| done]. by destruct (_ && _).
Qed.

(** A brick the player has no upward head contact with is passed over. *)
Lemma hitBrick_no_contact (f : Frame) (r : ref) :
  (∀ brick, brickStore (world f) !! r = Some brick →
            ¬ headContact (playerRef (world f)) brick) →
  hitBrick f r = f.
Proof.
  intros Hno. unfold hitBrick.
  destruct (brickStore (world f) !! r) as [brick |]; [| done].
  destruct (negb (Brick.broken brick) && _) eqn:E1; [| done].
  destruct (Qltb _ 0 && _) eqn:E2; [| done].
  exfalso. apply (Hno brick eq_refl).
  apply andb_true_iff in E1 as [E1 E3]. apply andb_true_iff in E2 as [E2 E4].
  apply negb_true_iff in E1. apply Qltb_lt in E2. apply Qgtb_gt in E4. done.
Qed.

(** The loop body on the brick the player rises into. *)
Lemma hitBrick_contact (f : Frame) (r : ref) (brick : Brick.t) :
  brickStore (world f) !! r = Some brick →
  headContact (playerRef (world f)) brick →
  hitBrick f r =
    let w := world f in
    let f1 := with_world (set_brickStore (<[r := Brick.set_broken true brick]> (brickStore w)) w) f in
    let f2 := match Brick.hasPowerUp brick, Brick.powerUpType brick with
              | true, Some Reward.coin => with_world (set_score (score (world f1) + 100)%Z (world f1)) f1
              | true, Some (Reward.modifier type) =>
                  pushPowerUp (PowerUp.mk (Brick.x brick) (Brick.y brick + Brick.height brick)
                                 20 20 type false 0) f1
              | _, _ => f1
              end in
    with_world (set_playerRef (GameObject.set_velocityY 2 (playerRef (world f2))) (world f2)) f2.
Proof.
  intros Hr (Hintact & Hover & Hup & Hbelow).
  unfold hitBrick. rewrite Hr, Hintact, Hover. simpl.
  apply Qltb_lt in Hup. apply Qgtb_gt in Hbelow. by rewrite Hup, Hbelow.
Qed.

(** The whole brick loop of a tick does what its body does on the first
    brick of the array that the player rises into: the bricks before it
    have no contact, and after the bounce no later brick reacts. *)
Lemma brickCollisions_first (f : Frame) (r : ref) (brick : Brick.t) (before after : list ref) :
  bricks f = before ++ r :: after →
  (∀ r' b, r' ∈ before → brickStore (world f) !! r' = Some b →
           ¬ headContact (playerRef (world f)) b) →
  brickStore (world f) !! r = Some brick →
  headContact (playerRef (world f)) brick →
  brickCollisions f = hitBrick f r.
Proof.
  intros Hb Hno Hr Hc. unfold brickCollisions. rewrite Hb, foldl_app. simpl.
  assert (E1 : foldl hitBrick f before = f).
  { clear Hb. induction before as [| r' rest IH]; simpl; [done |].
    rewrite hitBrick_no_contact.
    - apply IH. intros q b Hq. apply Hno. by right.
    - intros b. apply Hno. by left. }
  rewrite E1.
  assert (Hv : 0 <= GameObject.velocityY (playerRef (world (hitBrick f r)))).
  { rewrite (hitBrick_contact f r brick Hr Hc). cbv zeta.
    destruct (Brick.hasPowerUp brick), (Brick.powerUpType brick) as [[| k] |]; simpl; lra. }
  revert Hv. generalize (hitBrick f r). clear. intros g Hv.
  induction after as [| r' rest IH]; simpl; [done |].
  by rewrite hitBrick_not_rising.
Qed.

(** C8, amended. Breaking an intact brick by upward head contact marks it
    broken and sets the player's vertical velocity to 2.  A coin reward adds
    exactly 100 to the score and spawns no boost; a modifier reward leaves
    the score alone and appends exactly one boost of that kind, placed under
    the brick: at the brick's x, with its top on the brick's bottom edge
    y + height; a brick without reward does neither.  When the brick is the
    first of the array that the player rises into, this is all the brick
    loop of the tick does.  The 50 points of a boost are added when the
    boost loop finds the player touching it, and only then. *)
Theorem brick_reward (f : Frame) (r : ref) (brick : Brick.t) :
  brickStore (world f) !! r = Some brick →
  headContact (playerRef (world f)) brick →
  let w := world f in
  let w' := world (hitBrick f r) in
  brickStore w' !! r = Some (Brick.set_broken true brick) ∧
  brickStore w' = <[r := Brick.set_broken true brick]> (brickStore w) ∧
  GameObject.velocityY (playerRef w') = 2 ∧
  match reward brick with
  | Some Reward.coin =>
      score w' = (score w + 100)%Z ∧
      powerUpsRef w' = powerUpsRef w ∧ powerUpStore w' = powerUpStore w
  | Some (Reward.modifier kind) =>
      score w' = score w ∧
      powerUpsRef w' = powerUpsRef w ++ [length (powerUpStore w)] ∧
      powerUpStore w' = powerUpStore w ++
        [PowerUp.mk (Brick.x brick) (Brick.y brick + Brick.height brick) 20 20 kind false 0]
  | None =>
      score w' = score w ∧
      powerUpsRef w' = powerUpsRef w ∧ powerUpStore w' = powerUpStore w
  end ∧
  (∀ before after : list ref,
     bricks f = before ++ r :: after →
     (∀ r' b, r' ∈ before → brickStore w !! r' = Some b → ¬ headContact (playerRef w) b) →
     brickCollisions f = hitBrick f r) ∧
  ∀ (g : Frame) (q : ref) (powerUp : PowerUp.t),
    powerUpStore (world g) !! q = Some powerUp →
    let g' := stepPowerUp g q in
    let landed := fallen (platforms g) powerUp in
    if PowerUp.collected powerUp then g' = g
    else if touches (playerRef (world g)) landed then
      score (world g') = (score (world g) + 50)%Z ∧
      powerUpStore (world g') !! q = Some (PowerUp.set_collected true landed)
    else
      score (world g') = score (world g) ∧
      powerUpStore (world g') !! q = Some landed.
Proof.
  intros Hr Hc w w'.
  assert (Hlt : (r < length (brickStore w))%nat) by (by eapply lookup_lt_Some).
  unfold w'. rewrite (hitBrick_contact f r brick Hr Hc). unfold reward.
  split; [| split; [| split; [| split; [| split]]]].
  - destruct (Brick.hasPowerUp brick), (Brick.powerUpType brick) as [[|k]|]; simpl;
      by apply list_lookup_insert_eq.
  - by destruct (Brick.hasPowerUp brick), (Brick.powerUpType brick) as [[|k]|].
  - by destruct (Brick.hasPowerUp brick), (Brick.powerUpType brick) as [[|k]|].
  - by destruct (Brick.hasPowerUp brick), (Brick.powerUpType brick) as [[|k]|].
  - intros before after Hb Hno.
    rewrite (brickCollisions_first f r brick before after Hb Hno Hr Hc).
    exact (hitBrick_contact f r brick Hr Hc).
  - intros g q powerUp Hq. cbv zeta.
    destruct (PowerUp.collected powerUp) eqn:Hcol.
    { unfold stepPowerUp. by rewrite Hq, Hcol. }
    rewrite (stepPowerUp_uncollected g q powerUp Hq Hcol). cbv zeta.
    assert (Hq' : (q < length (powerUpStore (world g)))%nat) by (by eapply lookup_lt_Some).
    destruct (touches _ _); (split; [done | by apply list_lookup_insert_eq]).
Qed.

Lemma brick_reward_witness :
  brickStore (world underBrickFrame) !! 0%nat = Some jumpBrick ∧
  headContact (playerRef (world underBrickFrame)) jumpBrick ∧
  GameObject.velocityY (playerRef (world (hitBrick underBrickFrame 0%nat))) = 2 ∧
  score (world (hitBrick underBrickFrame 0%nat)) = 0%Z ∧
  powerUpStore (world (hitBrick underBrickFrame 0%nat)) = [PowerUp.mk 100 (280 + 25) 20 20 Kind.jump false 0] ∧
  brickCollisions underBrickFrame = hitBrick underBrickFrame 0%nat.
Proof.
  assert (H1 : brickStore (world underBrickFrame) !! 0%nat = Some jumpBrick) by reflexivity.
  assert (H2 : headContact (playerRef (world underBrickFrame)) jumpBrick)
    by (repeat split; vm_compute; reflexivity).
  destruct (brick_reward underBrickFrame 0%nat jumpBrick H1 H2) as (_ & _ & Hv & Hr & Hloop & _).
  simpl in Hr. destruct Hr as (Hs & _ & Hp).
  assert (H3 : brickCollisions underBrickFrame = hitBrick underBrickFrame 0%nat).
  { apply (Hloop [] []); [reflexivity |]. intros r' b Hin. by apply elem_of_nil in Hin. }
  repeat split; try reflexivity; assumption.
Defined.

(** C8 as the spec words it fails.  The player rises into a brick at
    (100, 280) that carries a jump boost.  The boost appears at (100, 305):
    not at the brick's place but under it, its rectangle clear of the
    brick's. *)
Lemma boost_at_brick_refuted :
  let brick := jumpBrick in
  let w' := world (hitBrick underBrickFrame 0%nat) in
  brickStore (world underBrickFrame) !! 0%nat = Some brick ∧
  headContact (playerRef (world underBrickFrame)) brick ∧
  ∃ boost,
    powerUpStore w' = [boost] ∧ powerUpsRef w' = [0%nat] ∧
    PowerUp.type boost = Kind.jump ∧
    PowerUp.x boost == Brick.x brick ∧
    ¬ (PowerUp.y boost == Brick.y brick) ∧
    PowerUp.y boost == Brick.y brick + Brick.height brick ∧
    overlaps (PowerUp.x boost) (PowerUp.y boost) (PowerUp.width boost) (PowerUp.height boost)
             (Brick.x brick) (Brick.y brick) (Brick.width brick) (Brick.height brick) = false.
Proof.
  split; [reflexivity |].
  split; [repeat split; vm_compute; reflexivity |].
  vm_compute. eexists. split; [reflexivity |].
  split; [reflexivity |]. split; [reflexivity |]. split; [reflexivity |].
  split; [discriminate |]. split; reflexivity.
Qed.

(** ** Loops *)

(** A property kept by every pass of a loop holds when the loop is done. *)
Lemma foldl_kept {A B : Type} (P : A → Prop) (step : A → B → A) (l : list B) (a : A) :
  P a → (∀ a b, P a → P (step a b)) → P (foldl step a l).
Proof.
  intros Ha Hstep. revert a Ha. induction l as [| b l IH]; intros a Ha; simpl; [done |].
  apply IH. by apply Hstep.
Qed.

(** ** The end of the tick *)

Lemma collectCoins_player (w : World) : playerRef (collectCoins w) = playerRef w.
Proof.
  unfold collectCoins.
  apply (foldl_kept (λ w', playerRef w' = playerRef w)); [done |].
  intros a i Ha. unfold collectCoin. by repeat case_match.
Qed.

Lemma collectCoins_gameState (w : World) : gameState (collectCoins w) = gameState w.
Proof.
  unfold collectCoins.
  apply (foldl_kept (λ w', gameState w' = gameState w)); [done |].
  intros a i Ha. unfold collectCoin. by repeat case_match.
Qed.

Lemma checkWin_player (w : World) : playerRef (checkWin w) = playerRef w.
Proof. unfold checkWin. by case_match. Qed.

(** The player's x when the win test of line 478 is made is the x the tick
    ends with, unless that is negative. *)
Lemma settle_x (w : World) :
  GameObject.x (playerRef (settle w)) =
    if Qltb (GameObject.x (playerRef w)) 0 then 0 else GameObject.x (playerRef w).
Proof.
  unfold settle, updateSpeed, keepInBounds. simpl.
  rewrite checkWin_player, collectCoins_player. by repeat case_match.
Qed.

Lemma settle_gameState (w : World) :
  gameState (settle w) =
    if Qgeb (GameObject.x (playerRef w)) FINISH_LINE then won else gameState w.
Proof.
  unfold settle, updateSpeed, keepInBounds, checkWin. simpl.
  rewrite collectCoins_player. destruct (Qgeb _ _); simpl; [done |].
  apply collectCoins_gameState.
Qed.

(** C6. A tick that ends with the player's x at or beyond the finish line
    ends in the run state "won", whatever else happened in it: the win test
    comes after the hazard loop and overrides a lethal contact. *)
Theorem finish_line_wins (random : nat → Q) (env : Closure) (w : World) :
  FINISH_LINE <= GameObject.x (playerRef (updateGame random env w)) →
  gameState (updateGame random env w) = won.
Proof.
  unfold updateGame. intros Hx.
  rewrite settle_x in Hx. rewrite settle_gameState.
  destruct (Qltb _ 0) eqn:E.
  - exfalso. unfold FINISH_LINE in Hx. lra.
  - apply Qgeb_ge in Hx. by rewrite Hx.
Qed.

Lemma finish_line_wins_witness :
  let random := λ _ : nat, 0.5 in
  let env := mkClosure Active.none 0 in
  gameState (world (resolve env (approach random env atFinish))) = gameOver ∧
  FINISH_LINE <= GameObject.x (playerRef (updateGame random env atFinish)) ∧
  gameState (updateGame random env atFinish) = won.
Proof.
  split; [vm_compute; reflexivity |].
  assert (H : FINISH_LINE <= GameObject.x (playerRef (updateGame (λ _, 0.5) (mkClosure Active.none 0) atFinish)))
    by (vm_compute; discriminate).
  split; [exact H |].
  exact (finish_line_wins (λ _, 0.5) (mkClosure Active.none 0) atFinish H).
Defined.

(** ** What the phases of a tick leave alone *)

Lemma quiet_refl (w : World) : quiet w w.
Proof. by repeat split. Qed.

Lemma quiet_trans (w1 w2 w3 : World) : quiet w1 w2 → quiet w2 w3 → quiet w1 w3.
Proof. unfold quiet. intros (-> & -> & -> & -> & ->) (-> & -> & -> & -> & ->). done. Qed.

Lemma calm_refl (w : World) : calm w w.
Proof. split; [apply quiet_refl | done]. Qed.

Lemma calm_trans (w1 w2 w3 : World) : calm w1 w2 → calm w2 w3 → calm w1 w3.
Proof.
  intros [Q1 E1] [Q2 E2]. split; [by eapply quiet_trans | congruence].
Qed.

(** Unfold one loop body and check every branch. *)
Ltac by_cases_of step :=
  unfold step; repeat case_match; simpl; unfold calm, quiet; simpl; repeat split; done.

Lemma handleInput_calm (env : Closure) (w : World) : calm w (handleInput env w).
Proof. by_cases_of handleInput. Qed.

Lemma integrate_calm (w : World) : calm w (integrate w).
Proof. by_cases_of integrate. Qed.

Lemma hitPlatform_width (player : GameObject.t) (platform : Platform.t) :
  GameObject.width (hitPlatform player platform) = GameObject.width player.
Proof. unfold hitPlatform. by repeat case_match. Qed.

Lemma platformSweep_width (player : GameObject.t) (platforms : list Platform.t) :
  GameObject.width (platformSweep player platforms) = GameObject.width player.
Proof.
  unfold platformSweep.
  apply (foldl_kept (λ p, GameObject.width p = GameObject.width player)); [done |].
  intros a b Ha. by rewrite hitPlatform_width.
Qed.

Lemma platformCollisions_calm (f : Frame) : calm (world f) (world (platformCollisions f)).
Proof.
  unfold platformCollisions, calm, quiet. simpl. rewrite platformSweep_width. done.
Qed.

Lemma hitBrick_quiet (f : Frame) (r : ref) : quiet (world f) (world (hitBrick f r)).
Proof. by_cases_of hitBrick. Qed.

Lemma brickCollisions_quiet (f : Frame) : quiet (world f) (world (brickCollisions f)).
Proof.
  unfold brickCollisions.
  apply (foldl_kept (λ f', quiet (world f) (world f'))); [apply quiet_refl |].
  intros a r Ha. eapply quiet_trans; [exact Ha | apply hitBrick_quiet].
Qed.

Lemma stepPowerUp_calm (f : Frame) (r : ref) : calm (world f) (world (stepPowerUp f r)).
Proof. by_cases_of stepPowerUp. Qed.

Lemma updatePowerUps_calm (f : Frame) : calm (world f) (world (updatePowerUps f)).
Proof.
  unfold updatePowerUps.
  apply (foldl_kept (λ f', calm (world f) (world f'))); [apply calm_refl |].
  intros a r Ha. eapply calm_trans; [exact Ha | apply stepPowerUp_calm].
Qed.

Lemma stepEnemy_calm (env : Closure) (f : Frame) (r : ref) :
  calm (world f) (world (stepEnemy env f r)).
Proof. unfold stepEnemy, spliceEnemy. by_cases_of stepEnemy. Qed.

Lemma enemyLoop_calm (env : Closure) (passes i : nat) (f : Frame) :
  calm (world f) (world (enemyLoop env passes i f)).
Proof.
  revert i f. induction passes as [| n IH]; intros i f; simpl; [apply calm_refl |].
  destruct (enemies f !! i) as [r |]; [| apply calm_refl].
  eapply calm_trans; [apply stepEnemy_calm | apply IH].
Qed.

Lemma collectCoin_calm (w : World) (i : nat) : calm w (collectCoin w i).
Proof. by_cases_of collectCoin. Qed.

Lemma settle_calm (w : World) : calm w (settle w).
Proof.
  unfold settle.
  assert (H1 : calm w (collectCoins w)).
  { unfold collectCoins. apply (foldl_kept (calm w)); [apply calm_refl |].
    intros a i Ha. eapply calm_trans; [exact Ha | apply collectCoin_calm]. }
  eapply calm_trans; [exact H1 |]. generalize (collectCoins w). intros v.
  unfold updateSpeed, keepInBounds, checkWin, calm, quiet. simpl.
  repeat case_match; simpl; repeat split; done.
Qed.

Lemma resolve_quiet (env : Closure) (f : Frame) : quiet (world f) (world (resolve env f)).
Proof.
  unfold resolve, updateEnemies.
  eapply quiet_trans; [apply platformCollisions_calm |].
  eapply quiet_trans; [apply brickCollisions_quiet |].
  eapply quiet_trans; [apply updatePowerUps_calm |].
  apply enemyLoop_calm.
Qed.

(** ** The generator's pushes *)

Section Generator.

Variable random : nat → Q.

Lemma grows_refl (w : World) : grows w w.
Proof.
  repeat split; try done. exists []. by rewrite app_nil_r.
Qed.

Lemma grows_trans (w1 w2 w3 : World) : grows w1 w2 → grows w2 w3 → grows w1 w3.
Proof.
  intros (E1 & D1 & P1 & B1 & N1 & C1 & S1 & new1 & K1 & F1)
         (E2 & D2 & P2 & B2 & N2 & C2 & S2 & new2 & K2 & F2).
  repeat split; try (etrans; eassumption).
  exists (new1 ++ new2). split.
  - by rewrite K2, K1, app_assoc.
  - by apply Forall_app.
Qed.

Lemma Math_random_grows (w : World) : grows w (Math_random random w).2.
Proof.
  repeat split; simpl; try done; try lia. exists []. by rewrite app_nil_r.
Qed.

Lemma spawnPlatform_grows (spawnX platformY : Q) (w : World) :
  grows w (spawnPlatform random spawnX platformY w).
Proof.
  repeat split; simpl; try done; try lia; try (by apply prefix_app_r).
  exists []. by rewrite app_nil_r.
Qed.

Lemma spawnBrick_grows (spawnX platformY : Q) (i : nat) (w : World) :
  grows w (spawnBrick random spawnX platformY i w).
Proof.
  unfold spawnBrick, Math_random. simpl.
  destruct (Qgtb (random (S (drawn w))) 0.7); simpl;
    (repeat split; simpl; try done; try lia; try (by apply prefix_app_r);
     eexists; split; [reflexivity | by repeat constructor]).
Qed.

Lemma spawnBricks_grows (spawnX platformY : Q) (count i : nat) (w : World) :
  grows w (spawnBricks random spawnX platformY count i w).
Proof.
  revert i w. induction count as [| n IH]; intros i w; simpl; [apply grows_refl |].
  eapply grows_trans; [apply spawnBrick_grows | apply IH].
Qed.

Lemma spawnBrickStack_grows (spawnX platformY : Q) (w : World) :
  grows w (spawnBrickStack random spawnX platformY w).
Proof.
  unfold spawnBrickStack. simpl.
  eapply grows_trans; [apply Math_random_grows | apply spawnBricks_grows].
Qed.

Lemma spawnEnemy_grows (spawnX platformY : Q) (w : World) :
  grows w (spawnEnemy random spawnX platformY w).
Proof.
  unfold spawnEnemy, Math_random. simpl.
  destruct (Qgtb (random (drawn w)) 0.3); simpl;
    (repeat split; simpl; try done; try lia; try (by apply prefix_app_r);
     exists []; by rewrite app_nil_r).
Qed.

Lemma spawnCoin_grows (spawnX platformY : Q) (w : World) :
  grows w (spawnCoin random spawnX platformY w).
Proof.
  unfold spawnCoin, Math_random. simpl.
  destruct (Qgtb (random (drawn w)) 0.2); simpl;
    (repeat split; simpl; try done; try lia; try (by apply prefix_app_r);
     exists []; by rewrite app_nil_r).
Qed.

(** After its first two draws the generator only runs its four blocks. *)
Lemma spawnGroup_blocks_grow (lastPlatform : Platform.t) (w : World) :
  grows (Math_random random (Math_random random w).2).2 (spawnGroup random lastPlatform w).
Proof.
  unfold spawnGroup. simpl.
  eapply grows_trans; [| apply spawnCoin_grows].
  eapply grows_trans; [| apply spawnEnemy_grows].
  eapply grows_trans; [| apply spawnBrickStack_grows].
  apply spawnPlatform_grows.
Qed.

Lemma spawnGroup_grows (lastPlatform : Platform.t) (w : World) :
  grows w (spawnGroup random lastPlatform w).
Proof.
  eapply grows_trans; [| apply spawnGroup_blocks_grow].
  eapply grows_trans; apply Math_random_grows.
Qed.

(** Every invocation draws from [Math.random]. *)
Lemma spawnGroup_draws (lastPlatform : Platform.t) (w : World) :
  (drawn w < drawn (spawnGroup random lastPlatform w))%nat.
Proof.
  destruct (spawnGroup_blocks_grow lastPlatform w) as (_ & H & _). simpl in H. lia.
Qed.

(** Only "Spawn platform" touches the platform array. *)
Lemma spawnBricks_platforms (spawnX platformY : Q) (count i : nat) (w : World) :
  platformsRef (spawnBricks random spawnX platformY count i w) = platformsRef w.
Proof.
  revert i w. induction count as [| n IH]; intros i w; simpl; [done |].
  rewrite IH. unfold spawnBrick, Math_random. simpl. by destruct (Qgtb _ 0.7).
Qed.

Lemma spawnGroup_platforms (lastPlatform : Platform.t) (w : World) :
  platformsRef (spawnGroup random lastPlatform w)
  = platformsRef w ++ [nextPlatform random lastPlatform w].
Proof.
  unfold spawnGroup, spawnCoin, spawnEnemy, spawnBrickStack, Math_random. simpl.
  repeat case_match; simpl; by rewrite spawnBricks_platforms.
Qed.

End Generator.

(** ** The generator inside a tick *)

Section Trigger.

Variable random : nat → Q.

(** The cleanup rebinds the five arrays and nothing else. *)
Lemma removeOld_rest (c : Q) (w : World) :
  (gameState (removeOld c w), score (removeOld c w), cameraX (removeOld c w),
   playerRef (removeOld c w), drawn (removeOld c w), loop (removeOld c w),
   brickStore (removeOld c w), enemyStore (removeOld c w), powerUpStore (removeOld c w))
  = (gameState w, score w, cameraX w, playerRef w, drawn w, loop w,
     brickStore w, enemyStore w, powerUpStore w).
Proof. reflexivity. Qed.

(** When the test of line 271 succeeds the tick runs [spawnObstacles];
    otherwise the world is left as it is. *)
Lemma spawnIfNeeded_world (env : Closure) (w : World) :
  match needsSpawn w with
  | Some _ => spawnObstacles random (seen_cameraX env) w
              = Some (world (spawnIfNeeded random env w))
  | None => world (spawnIfNeeded random env w) = w
  end.
Proof.
  unfold spawnIfNeeded, spawnObstacles, needsSpawn.
  destruct (last (platformsRef w)) as [lastPlatform |]; simpl; [| done].
  by destruct (Qgtb _ _).
Qed.

Lemma spawnIfNeeded_drawn (env : Closure) (w : World) :
  drawn (world (spawnIfNeeded random env w)) ≠ drawn w ↔ is_Some (needsSpawn w).
Proof.
  unfold spawnIfNeeded. destruct (needsSpawn w) as [lastPlatform |]; simpl.
  - pose proof (spawnGroup_draws random lastPlatform w). split; [by eexists | lia].
  - split; [done | by intros [? ?]].
Qed.

Lemma spawnIfNeeded_kept (env : Closure) (w : World) :
  cameraX (world (spawnIfNeeded random env w)) = cameraX w ∧
  playerRef (world (spawnIfNeeded random env w)) = playerRef w ∧
  loop (world (spawnIfNeeded random env w)) = loop w.
Proof.
  unfold spawnIfNeeded. destruct (needsSpawn w) as [lastPlatform |]; simpl; [| done].
  destruct (spawnGroup_grows random lastPlatform w) as (E & _).
  by injection E as _ _ -> _ _ -> _ _ -> _ _.
Qed.

Lemma needsSpawn_spec (w : World) :
  is_Some (needsSpawn w) ↔
  ∃ lastPlatform, last (platformsRef w) = Some lastPlatform ∧
                  Platform.x lastPlatform - 200 < GameObject.x (playerRef w).
Proof.
  unfold needsSpawn. destruct (last (platformsRef w)) as [lastPlatform |].
  - destruct (Qgtb _ _) eqn:E.
    + apply Qgtb_gt in E. split; [intros _; by exists lastPlatform | by eexists].
    + apply Qgtb_le in E. split; [by intros [? ?] |].
      intros (p & [= <-] & H). lra.
  - split; [by intros [? ?] | by intros (? & ? & _)].
Qed.

(** The random cursor after a tick is the one the generator left. *)
Lemma updateGame_drawn (env : Closure) (w : World) :
  drawn (updateGame random env w)
  = drawn (world (spawnIfNeeded random env (integrate (handleInput env w)))).
Proof.
  unfold updateGame, approach.
  destruct (settle_calm (world (resolve env
    (with_world (followPlayer (world (spawnIfNeeded random env (integrate (handleInput env w)))))
       (spawnIfNeeded random env (integrate (handleInput env w))))))) as [(_ & -> & _) _].
  destruct (resolve_quiet env
    (with_world (followPlayer (world (spawnIfNeeded random env (integrate (handleInput env w)))))
       (spawnIfNeeded random env (integrate (handleInput env w))))) as (_ & -> & _).
  reflexivity.
Qed.

(** C3, amended. A tick runs the generator, which shows in the random
    cursor moving, exactly when the platform array is not empty and the
    player's x after the position update is greater than the x of the last
    platform of the array minus 200; the platform's width plays no part. *)
Theorem generator_trigger (env : Closure) (w : World) :
  let moved := integrate (handleInput env w) in
  drawn (updateGame random env w) ≠ drawn w ↔
  ∃ lastPlatform, last (platformsRef w) = Some lastPlatform ∧
                  Platform.x lastPlatform - 200 < GameObject.x (playerRef moved).
Proof.
  intros moved. rewrite updateGame_drawn. fold moved.
  assert (Hd : drawn moved = drawn w).
  { destruct (integrate_calm (handleInput env w)) as [(_ & E1 & _) _].
    destruct (handleInput_calm env w) as [(_ & E2 & _) _]. unfold moved. congruence. }
  assert (Hp : platformsRef moved = platformsRef w).
  { destruct (integrate_calm (handleInput env w)) as [(_ & _ & E1 & _) _].
    destruct (handleInput_calm env w) as [(_ & _ & E2 & _) _]. unfold moved. congruence. }
  rewrite <- Hd, <- Hp, spawnIfNeeded_drawn. apply needsSpawn_spec.
Qed.

End Trigger.

(** C3 as the spec words it fails.  With [Math.random() = 0] the tick run
    at mount leaves the rightmost platform spanning [300, 380] and the
    player at x = 100.  With the right key then held, the next frame moves
    the player to x = 105: that is not beyond 380 - 200, yet the generator
    runs. *)
Lemma trailing_edge_trigger_refuted :
  let random := λ _ : nat, 0 in
  let w := run random [KeyDown "d"] (mounted random) in
  let moved := integrate (handleInput (loop w) w) in
  reachable random w ∧
  gameState w = playing ∧
  ∃ rightmost,
    last (platformsRef w) = Some rightmost ∧
    Forall (λ p, Platform.x p <= Platform.x rightmost) (platformsRef w) ∧
    Platform.x rightmost + Platform.width rightmost == 380 ∧
    GameObject.x (playerRef moved) == 105 ∧
    ¬ (Platform.x rightmost + Platform.width rightmost - 200 < GameObject.x (playerRef moved)) ∧
    drawn (dispatch random AnimationFrame w) ≠ drawn w.
Proof.
  split; [by exists [KeyDown "d"] |].
  vm_compute.
  split; [reflexivity |].
  eexists. split; [reflexivity |].
  split; [repeat constructor; discriminate |].
  split; [reflexivity |].
  split; [reflexivity |].
  split; [discriminate | lia].
Qed.

(** ** Camera *)

Section Camera.

Variable random : nat → Q.

Lemma clampedCameraX_bounds (player : GameObject.t) :
  0 <= clampedCameraX player <= FINISH_LINE - CANVAS_WIDTH.
Proof.
  unfold clampedCameraX, Math_max, Math_min, FINISH_LINE, CANVAS_WIDTH.
  repeat case_match; compare_hyps; lra.
Qed.

Lemma cameraSpeed_cases (player : GameObject.t) :
  cameraSpeed player = 0.4 ∨ cameraSpeed player = 0.2 ∨ cameraSpeed player = 0.3.
Proof. unfold cameraSpeed. repeat case_match; auto. Qed.

(** The one write to the camera in a tick. *)
Lemma updateGame_cameraX (env : Closure) (w : World) :
  let moved := integrate (handleInput env w) in
  cameraX (updateGame random env w)
  = cameraX w + (clampedCameraX (playerRef moved) - cameraX w) * cameraSpeed (playerRef moved).
Proof.
  intros moved. unfold updateGame, approach. fold moved.
  destruct (settle_calm (world (resolve env
    (with_world (followPlayer (world (spawnIfNeeded random env moved)))
       (spawnIfNeeded random env moved))))) as [(-> & _) _].
  destruct (resolve_quiet env
    (with_world (followPlayer (world (spawnIfNeeded random env moved)))
       (spawnIfNeeded random env moved))) as (-> & _).
  simpl. destruct (spawnIfNeeded_kept random env moved) as (-> & -> & _).
  destruct (integrate_calm (handleInput env w)) as [(E1 & _) _].
  destruct (handleInput_calm env w) as [(E2 & _) _].
  unfold moved at 1 3. by rewrite E1, E2.
Qed.

(** A step toward a point of the interval stays in the interval. *)
Lemma toward_in_range (lo hi prev target speed : Q) :
  lo <= prev <= hi → lo <= target <= hi →
  speed = 0.4 ∨ speed = 0.2 ∨ speed = 0.3 →
  lo <= prev + (target - prev) * speed <= hi.
Proof. intros Hp Ht [-> | [-> | ->]]; lra. Qed.

Lemma gameLoop_camera_in_range (w : World) :
  0 <= cameraX w <= FINISH_LINE - CANVAS_WIDTH →
  0 <= cameraX (gameLoop random w) <= FINISH_LINE - CANVAS_WIDTH.
Proof.
  intros Hw. unfold gameLoop. case_match; [| done].
  rewrite updateGame_cameraX.
  apply toward_in_range; [done | apply clampedCameraX_bounds | apply cameraSpeed_cases].
Qed.

Lemma handle_camera_in_range (e : Event) (w : World) :
  0 <= cameraX w <= FINISH_LINE - CANVAS_WIDTH →
  0 <= cameraX (handle random e w) <= FINISH_LINE - CANVAS_WIDTH.
Proof.
  intros Hw.
  assert (H0 : 0 <= cameraX (resetGame w) <= FINISH_LINE - CANVAS_WIDTH).
  { unfold FINISH_LINE, CANVAS_WIDTH. simpl. lra. }
  destruct e as [key | key | | | |]; simpl.
  - unfold handleKeyDown. by case_match.
  - done.
  - by apply gameLoop_camera_in_range.
  - unfold expire. by case_match.
  - by repeat case_match.
  - by case_match.
Qed.

(** C5. In every state the component can reach the camera offset lies in
    [0, FINISH_LINE - CANVAS_WIDTH] = [0, 9200].  It starts at 0, and a
    frame in the "playing" state moves it by 0.4, 0.2 or 0.3 of the
    remaining distance toward the clamped target. *)
Theorem camera_in_range (w : World) :
  reachable random w →
  cameraX initialWorld = 0 ∧
  0 <= cameraX w <= FINISH_LINE - CANVAS_WIDTH ∧
  (gameState w = playing →
   let player := playerRef (integrate (handleInput (loop w) w)) in
   let target := clampedCameraX player in
   let speed := cameraSpeed player in
   cameraX (dispatch random AnimationFrame w) = cameraX w + (target - cameraX w) * speed ∧
   0 <= target <= FINISH_LINE - CANVAS_WIDTH ∧
   (speed = 0.4 ∨ speed = 0.2 ∨ speed = 0.3)).
Proof.
  intros Hr. split; [reflexivity |]. split.
  - revert w Hr.
    apply (reachable_kept random (λ w, 0 <= cameraX w <= FINISH_LINE - CANVAS_WIDTH)).
    + unfold FINISH_LINE, CANVAS_WIDTH. simpl. lra.
    + done.
    + intros e v Hv. by apply handle_camera_in_range.
  - intros Hs player target speed. split; [| split].
    + assert (E : cameraX (dispatch random AnimationFrame w) = cameraX (gameLoop random w)).
      { destruct (frame_then_rerender random w) as [-> | (_ & _ & ->)]; done. }
      rewrite E. unfold gameLoop. rewrite decide_True by done. apply updateGame_cameraX.
    + apply clampedCameraX_bounds.
    + apply cameraSpeed_cases.
Qed.

End Camera.

Lemma camera_in_range_witness :
  let random := λ _ : nat, 0.5 in
  let w := run random [KeyDown "d"; AnimationFrame; AnimationFrame] (mounted random) in
  reachable random w ∧ 0 <= cameraX w <= FINISH_LINE - CANVAS_WIDTH.
Proof.
  assert (H : reachable (λ _, 0.5)
                (run (λ _, 0.5) [KeyDown "d"; AnimationFrame; AnimationFrame]
                   (mounted (λ _, 0.5))))
    by (eexists; reflexivity).
  split; [exact H |].
  exact (proj1 (proj2 (camera_in_range (λ _, 0.5) _ H))).
Defined.

(** ** One brick per tick *)

Section OneBrick.

Variable random : nat → Q.

(** A pass of the brick loop either leaves the bricks alone or breaks the
    intact brick it looks at and sends the player downward. *)
Lemma hitBrick_cases (f : Frame) (r : ref) :
  brickStore (world (hitBrick f r)) = brickStore (world f) ∨
  ∃ brick, brickStore (world f) !! r = Some brick ∧ Brick.broken brick = false ∧
           brickStore (world (hitBrick f r)) = <[r := Brick.set_broken true brick]> (brickStore (world f)) ∧
           GameObject.velocityY (playerRef (world (hitBrick f r))) = 2.
Proof.
  unfold hitBrick. destruct (brickStore (world f) !! r) as [brick |] eqn:Hr; [| by left].
  destruct (Brick.broken brick) eqn:Hb; simpl; [by left |].
  destruct (overlaps _ _ _ _ _ _ _ _); simpl; [| by left].
  destruct (_ && _); [| by left].
  right. exists brick. repeat split; try done;
    by destruct (Brick.hasPowerUp brick), (Brick.powerUpType brick) as [[|k]|].
Qed.

Lemma brickCollisions_atMostOne (f : Frame) :
  atMostOneBroken (brickStore (world f)) (brickStore (world (brickCollisions f))).
Proof.
  unfold brickCollisions.
  cut (brickStore (world (foldl hitBrick f (bricks f))) = brickStore (world f) ∨
       (GameObject.velocityY (playerRef (world (foldl hitBrick f (bricks f)))) = 2 ∧
        ∃ (r : ref) brick, brickStore (world f) !! r = Some brick ∧ Brick.broken brick = false ∧
          brickStore (world (foldl hitBrick f (bricks f)))
          = <[r := Brick.set_broken true brick]> (brickStore (world f)))).
  { intros [H | (_ & H)]; [by left | by right]. }
  apply (foldl_kept (λ f',
    brickStore (world f') = brickStore (world f) ∨
    (GameObject.velocityY (playerRef (world f')) = 2 ∧
     ∃ (r : ref) brick, brickStore (world f) !! r = Some brick ∧ Brick.broken brick = false ∧
       brickStore (world f') = <[r := Brick.set_broken true brick]> (brickStore (world f)))));
    [by left |].
  intros a r [Ha | (Hv & Ha)].
  - destruct (hitBrick_cases a r) as [E | (brick & E1 & E2 & E3 & E4)].
    + left. congruence.
    + right. split; [done |]. exists r, brick. rewrite <- Ha. done.
  - right. rewrite hitBrick_not_rising; [done |]. rewrite Hv. lra.
Qed.

(** Outside the brick loop a tick only adds intact bricks. *)
Lemma approach_bricks (env : Closure) (w : World) :
  ∃ new, brickStore (world (approach random env w)) = brickStore w ++ new ∧
         Forall (λ b, Brick.broken b = false) new.
Proof.
  unfold approach. simpl.
  destruct (handleInput_calm env w) as [_ E1].
  destruct (integrate_calm (handleInput env w)) as [_ E2].
  rewrite <- E1, <- E2. generalize (integrate (handleInput env w)). intros v.
  unfold spawnIfNeeded. destruct (needsSpawn v) as [lastPlatform |]; simpl.
  - by destruct (spawnGroup_grows random lastPlatform v) as (_ & _ & _ & _ & _ & _ & _ & H).
  - exists []. by rewrite app_nil_r.
Qed.

Lemma updateGame_bricks (env : Closure) (w : World) :
  ∃ new, Forall (λ b, Brick.broken b = false) new ∧
         atMostOneBroken (brickStore w ++ new) (brickStore (updateGame random env w)).
Proof.
  destruct (approach_bricks env w) as (new & E & Hnew). exists new. split; [done |].
  unfold updateGame, resolve, updateEnemies.
  destruct (settle_calm (world (enemyLoop env
    (length (enemies (updatePowerUps (brickCollisions (platformCollisions (approach random env w))))))
    0 (updatePowerUps (brickCollisions (platformCollisions (approach random env w))))))) as [_ ->].
  destruct (enemyLoop_calm env
    (length (enemies (updatePowerUps (brickCollisions (platformCollisions (approach random env w))))))
    0 (updatePowerUps (brickCollisions (platformCollisions (approach random env w))))) as [_ ->].
  destruct (updatePowerUps_calm (brickCollisions (platformCollisions (approach random env w))))
    as [_ ->].
  pose proof (brickCollisions_atMostOne (platformCollisions (approach random env w))) as H.
  destruct (platformCollisions_calm (approach random env w)) as [_ E'].
  rewrite E', E in H. exact H.
Qed.

(** A brick found broken among old bricks followed by intact new ones is
    an old one. *)
Lemma broken_is_old (old new : list Brick.t) (r : ref) (brick : Brick.t) :
  Forall (λ b, Brick.broken b = false) new →
  (old ++ new) !! r = Some brick → Brick.broken brick = true →
  old !! r = Some brick.
Proof.
  intros Hnew Hr Hb. apply lookup_app_Some in Hr as [Hr | [_ Hr]]; [done |].
  apply list_elem_of_lookup_2 in Hr. rewrite Forall_forall in Hnew.
  apply Hnew in Hr. congruence.
Qed.

(** C10. In one tick at most one brick goes from intact to broken: the
    break sets the player's vertical velocity to 2, and no brick tested
    later in the sweep finds the player moving upward. *)
Theorem one_brick_per_tick (env : Closure) (w : World) (r1 r2 : ref) :
  breaks w (updateGame random env w) r1 →
  breaks w (updateGame random env w) r2 →
  r1 = r2.
Proof.
  destruct (updateGame_bricks env w) as (new & Hnew & Hone).
  assert (Hwhich : ∀ r, breaks w (updateGame random env w) r →
            ∃ brick, (brickStore w ++ new) !! r = Some brick ∧ Brick.broken brick = false ∧
                     brickStore (updateGame random env w)
                     = <[r := Brick.set_broken true brick]> (brickStore w ++ new)).
  { intros r [(brick & Hr & Hb) Hnot].
    destruct Hone as [E | (r0 & brick0 & H0 & Hb0 & E)].
    - exfalso. apply Hnot. exists brick. split; [| done].
      rewrite E in Hr. by eapply broken_is_old.
    - destruct (decide (r = r0)) as [-> | Hne]; [by exists brick0 |].
      exfalso. apply Hnot. exists brick. split; [| done].
      rewrite E, list_lookup_insert_ne in Hr by done. by eapply broken_is_old. }
  intros H1 H2.
  destruct (Hwhich r1 H1) as (b1 & L1 & B1 & E1).
  destruct (Hwhich r2 H2) as (b2 & L2 & B2 & E2).
  destruct (decide (r1 = r2)) as [| Hne]; [done | exfalso].
  assert (Hl : brickStore (updateGame random env w) !! r2 = Some b2).
  { rewrite E1, list_lookup_insert_ne by done. done. }
  rewrite E2, list_lookup_insert_eq in Hl by (by eapply lookup_lt_Some).
  injection Hl as Hl. rewrite <- Hl in B2. done.
Qed.

End OneBrick.

(** The player rises into two intact bricks at once; only the first one
    tested breaks (the tick also generates two new bricks). *)
Lemma one_brick_per_tick_witness :
  let random := λ _ : nat, 0.5 in
  let env := mkClosure Active.none 0 in
  breaks underTwoBricks (updateGame random env underTwoBricks) 0%nat ∧
  0%nat = 0%nat.
Proof.
  assert (H0 : breaks underTwoBricks
                 (updateGame (λ _, 0.5) (mkClosure Active.none 0) underTwoBricks) 0%nat).
  { split.
    - eexists. split; [vm_compute; reflexivity | reflexivity].
    - intros (brick & Hr & Hb). vm_compute in Hr. injection Hr as <-. discriminate. }
  split; [exact H0 |].
  exact (one_brick_per_tick (λ _, 0.5) (mkClosure Active.none 0) underTwoBricks
           0%nat 0%nat H0 H0).
Defined.

Example second_brick_survives :
  let w' := updateGame (λ _, 0.5) (mkClosure Active.none 0) underTwoBricks in
  Brick.broken <$> brickStore w' = [true; false; false; false] ∧
  Qred (GameObject.velocityY (playerRef w')) = 2.
Proof. vm_compute. split; reflexivity. Qed.

(** ** Landing *)

Section Landing.

Variable random : nat → Q.
Hypothesis random_nonneg : ∀ n, 0 <= random n.

Lemma hitPlatform_besides (player : GameObject.t) (p : Platform.t) :
  besides player p → hitPlatform player p = player.
Proof.
  intros H. unfold hitPlatform, overlapsPlatform.
  destruct (overlaps _ _ _ _ _ _ _ _) eqn:E; [| done].
  apply overlaps_spec in E. destruct H; lra.
Qed.

Lemma sweep_besides (player : GameObject.t) (platforms : list Platform.t) :
  Forall (besides player) platforms → foldl hitPlatform player platforms = player.
Proof.
  induction 1 as [| p ps Hp _ IH]; simpl; [done |].
  by rewrite hitPlatform_besides.
Qed.

(** Among spaced platforms a player no wider than a gap overlaps at most one
    horizontally. *)
Lemma spaced_besides (player : GameObject.t) (before after : list Platform.t) (p : Platform.t) :
  spaced (before ++ p :: after) →
  GameObject.width player <= 100 →
  Platform.x p < GameObject.x player + GameObject.width player →
  GameObject.x player < Platform.x p + Platform.width p →
  Forall (besides player) before ∧ Forall (besides player) after.
Proof.
  intros [Hs Hw] Hn H1 H2.
  apply StronglySorted_app in Hs as (Hba & _ & Hpa).
  apply StronglySorted_cons in Hpa as [Hpa _].
  split; apply Forall_forall.
  - intros q Hq. left. specialize (Hba q p Hq). unfold gap in Hba.
    assert (Hin : p ∈ p :: after) by (by left). specialize (Hba Hin). lra.
  - intros q Hq. right. rewrite Forall_forall in Hpa. specialize (Hpa q Hq).
    unfold gap in Hpa. lra.
Qed.

(** The landing branch of the sweep, when [p] is the one platform in the
    player's way. *)
Lemma platformSweep_lands (player : GameObject.t) (platforms : list Platform.t) (p : Platform.t) :
  spaced platforms →
  GameObject.width player <= 100 →
  p ∈ platforms →
  overlapsPlatform player p = true →
  0 < GameObject.velocityY player →
  GameObject.y player < Platform.y p →
  platformSweep player platforms
  = GameObject.mk (GameObject.x player) (Platform.y p - GameObject.height player)
      (GameObject.width player) (GameObject.height player)
      (GameObject.velocityX player) 0 true.
Proof.
  intros Hs Hn Hin Hon Hv Hy.
  apply list_elem_of_split in Hin as (before & after & ->).
  pose proof Hon as Hrect. unfold overlapsPlatform in Hrect. apply overlaps_spec in Hrect.
  destruct Hrect as (Hx1 & Hx2 & _).
  destruct (spaced_besides player before after p Hs Hn Hx2 Hx1) as [Hb Ha].
  assert (Hhit : hitPlatform (GameObject.set_onGround false player) p
                 = GameObject.mk (GameObject.x player) (Platform.y p - GameObject.height player)
                     (GameObject.width player) (GameObject.height player)
                     (GameObject.velocityX player) 0 true).
  { unfold hitPlatform. unfold overlapsPlatform in *. simpl. rewrite Hon.
    apply Qgtb_gt in Hv. apply Qltb_lt in Hy. by rewrite Hv, Hy. }
  unfold platformSweep. rewrite foldl_app. simpl.
  rewrite (sweep_besides (GameObject.set_onGround false player) before) by exact Hb.
  rewrite Hhit. apply sweep_besides. exact Ha.
Qed.

(** *** The platform array stays spaced *)

Lemma spaced_filter (keep : Platform.t → bool) (platforms : list Platform.t) :
  spaced platforms → spaced (List.filter keep platforms).
Proof.
  intros [Hs Hw]. split.
  - induction Hs as [| p ps _ IH Hp]; simpl; [constructor |].
    apply Forall_cons in Hw as [_ Hw].
    destruct (keep p); [| by apply IH]. constructor; [by apply IH |].
    apply Forall_forall. intros q Hq%list_elem_of_In%filter_In.
    rewrite Forall_forall in Hp. apply Hp, list_elem_of_In, Hq.
  - apply Forall_forall. intros q Hq%list_elem_of_In%filter_In.
    rewrite Forall_forall in Hw. apply Hw, list_elem_of_In, Hq.
Qed.

Lemma spaced_push (platforms : list Platform.t) (lastPlatform : Platform.t) (w : World) :
  spaced platforms → last platforms = Some lastPlatform →
  spaced (platforms ++ [nextPlatform random lastPlatform w]).
Proof.
  intros [Hs Hw] Hlast.
  apply last_Some in Hlast as (front & ->).
  pose proof (random_nonneg (drawn w)) as R0.
  pose proof (random_nonneg (S (S (drawn w)))) as R2.
  assert (Hlw : 0 <= Platform.width lastPlatform).
  { rewrite Forall_forall in Hw. apply Hw. apply elem_of_app. right. by left. }
  split.
  - apply StronglySorted_app. split; [| split; [done | by repeat constructor]].
    intros p q Hp Hq. apply list_elem_of_singleton in Hq as ->.
    unfold gap, nextPlatform. simpl.
    apply elem_of_app in Hp as [Hp | Hp].
    + apply StronglySorted_app in Hs as (Hfl & _ & _).
      assert (Hin : lastPlatform ∈ [lastPlatform]) by (by left).
      specialize (Hfl p lastPlatform Hp Hin). unfold gap in Hfl. lra.
    + apply list_elem_of_singleton in Hp as ->. lra.
  - apply Forall_app. split; [done |]. repeat constructor. simpl. lra.
Qed.

Lemma approach_platforms (env : Closure) (w : World) :
  spaced (platformsRef w) →
  spaced (platforms (approach random env w)) ∧
  spaced (platformsRef (world (approach random env w))).
Proof.
  intros Hs. unfold approach. simpl.
  destruct (handleInput_calm env w) as [(_ & _ & E1 & _) _].
  destruct (integrate_calm (handleInput env w)) as [(_ & _ & E2 & _) _].
  rewrite <- E1, <- E2 in Hs. revert Hs.
  generalize (integrate (handleInput env w)). intros v Hs.
  unfold spawnIfNeeded.
  destruct (needsSpawn v) as [lastPlatform |] eqn:Hn; simpl; [| done].
  assert (Hlast : last (platformsRef v) = Some lastPlatform).
  { unfold needsSpawn in Hn. destruct (last (platformsRef v)); [| done].
    destruct (Qgtb _ _); congruence. }
  rewrite spawnGroup_platforms. split.
  - by apply spaced_push.
  - apply spaced_filter. by apply spaced_push.
Qed.

Lemma approach_player_width (env : Closure) (w : World) :
  GameObject.width (playerRef (world (approach random env w))) = GameObject.width (playerRef w).
Proof.
  unfold approach. simpl.
  destruct (spawnIfNeeded_kept random env (integrate (handleInput env w))) as (_ & -> & _).
  destruct (handleInput_calm env w) as [(_ & _ & _ & E1 & _) _].
  destruct (integrate_calm (handleInput env w)) as [(_ & _ & _ & E2 & _) _].
  congruence.
Qed.

Lemma updateGame_wellFormed (env : Closure) (w : World) :
  wellFormed w → wellFormed (updateGame random env w).
Proof.
  intros [Hs Hw]. unfold updateGame.
  destruct (settle_calm (world (resolve env (approach random env w))))
    as [(_ & _ & E1 & E2 & _) _].
  destruct (resolve_quiet env (approach random env w)) as (_ & _ & E3 & E4 & _).
  split.
  - rewrite E1, E3. by apply approach_platforms.
  - rewrite E2, E4, approach_player_width. done.
Qed.

Lemma handle_wellFormed (e : Event) (w : World) :
  wellFormed w → wellFormed (handle random e w).
Proof.
  intros Hw.
  assert (H0 : wellFormed (resetGame w)).
  { split; [| done]. split; simpl; repeat constructor. done. }
  destruct e as [key | key | | | |]; simpl.
  - unfold handleKeyDown. by case_match.
  - done.
  - unfold gameLoop. case_match; [| done]. by apply updateGame_wellFormed.
  - unfold expire. by case_match.
  - by repeat case_match.
  - by case_match.
Qed.

Lemma reachable_wellFormed (w : World) : reachable random w → wellFormed w.
Proof.
  apply (reachable_kept random wellFormed).
  - split; [| done]. split; simpl; repeat constructor. done.
  - done.
  - intros e v. apply handle_wellFormed.
Qed.

(** C9. In a tick begun in any reachable state, for every platform the
    player overlaps after the position update: if the player's vertical
    velocity is positive and its y is above the platform's y, the collision
    sweep leaves the player at y = platform.y - height, with vertical
    velocity 0 and grounded. *)
Theorem landing_on_platform (env : Closure) (w : World) (p : Platform.t) :
  reachable random w →
  let f := approach random env w in
  let player := playerRef (world f) in
  p ∈ platforms f →
  overlapsPlatform player p = true →
  0 < GameObject.velocityY player →
  GameObject.y player < Platform.y p →
  let player' := playerRef (world (platformCollisions f)) in
  GameObject.y player' = Platform.y p - GameObject.height player ∧
  GameObject.velocityY player' = 0 ∧
  GameObject.onGround player' = true.
Proof.
  intros Hreach f player Hin Hon Hv Hy player'.
  destruct (reachable_wellFormed w Hreach) as [Hs Hw].
  assert (Hwidth : GameObject.width player <= 100).
  { unfold player, f. rewrite approach_player_width, Hw. lra. }
  destruct (approach_platforms env w Hs) as [Hlocal _].
  unfold player'.
  change (playerRef (world (platformCollisions f))) with (platformSweep player (platforms f)).
  by rewrite (platformSweep_lands player (platforms f) p Hlocal Hwidth Hin Hon Hv Hy).
Qed.

End Landing.

(** With every [Math.random()] equal to 0.5 the player, left alone, falls
    from y = 300 and reaches the starting ground in the thirteenth tick:
    the one run at mount and twelve frames. *)
Lemma landing_on_platform_witness :
  let random := λ _ : nat, 0.5 in
  let w := run random (replicate 11 AnimationFrame) (mounted random) in
  let f := approach random (loop w) w in
  (∀ n, 0 <= random n) ∧
  reachable random w ∧
  startingGround ∈ platforms f ∧
  overlapsPlatform (playerRef (world f)) startingGround = true ∧
  0 < GameObject.velocityY (playerRef (world f)) ∧
  GameObject.y (playerRef (world f)) < Platform.y startingGround ∧
  GameObject.y (playerRef (world (platformCollisions f)))
  = Platform.y startingGround - GameObject.height (playerRef (world f)).
Proof.
  intros random w f.
  assert (H0 : ∀ n, 0 <= random n) by (intros n; vm_compute; discriminate).
  assert (H1 : reachable random w) by (exists (replicate 11 AnimationFrame); reflexivity).
  assert (H2 : startingGround ∈ platforms f) by (vm_compute; left).
  assert (H3 : overlapsPlatform (playerRef (world f)) startingGround = true)
    by (vm_compute; reflexivity).
  assert (H4 : 0 < GameObject.velocityY (playerRef (world f))) by (vm_compute; reflexivity).
  assert (H5 : GameObject.y (playerRef (world f)) < Platform.y startingGround)
    by (vm_compute; reflexivity).
  exact (conj H0 (conj H1 (conj H2 (conj H3 (conj H4 (conj H5
           (proj1 (landing_on_platform random H0 (loop w) w startingGround H1 H2 H3 H4 H5)))))))).
Defined.

(** ** Cleanup *)


Lemma elem_of_prefix {A : Type} (l1 l2 : list A) (x : A) :
  l1 `prefix_of` l2 → x ∈ l1 → x ∈ l2.
Proof. intros [k ->] H. apply elem_of_app. by left. Qed.

Lemma removeOld_arrays (c : Q) (w : World) :
  platformsRef (removeOld c w)
  = List.filter (λ p, Qgtb (Platform.x p + Platform.width p) (c - 200)) (platformsRef w) ∧
  bricksRef (removeOld c w)
  = List.filter (λ b, match brickStore w !! b with
                      | Some b => Qgtb (Brick.x b) (c - 200)
                      | None => false end) (bricksRef w) ∧
  enemiesRef (removeOld c w)
  = List.filter (λ e, match enemyStore w !! e with
                      | Some e => Qgtb (GameObject.x e) (c - 200)
                      | None => false end) (enemiesRef w) ∧
  coinsRef (removeOld c w)
  = List.filter (λ c', Qgtb (Coin.x c') (c - 200)) (coinsRef w) ∧
  powerUpsRef (removeOld c w)
  = List.filter (λ p, match powerUpStore w !! p with
                      | Some p => Qgtb (PowerUp.x p) (c - 200)
                      | None => false end) (powerUpsRef w).
Proof. repeat split. Qed.

Lemma List_filter_sublist {A : Type} (keep : A → bool) (l : list A) :
  List.filter keep l `sublist_of` l.
Proof.
  induction l as [| a l IH]; simpl; [constructor |].
  destruct (keep a); by constructor.
Qed.

Section Cleanup.

Variable random : nat → Q.



(** The generator always completes when there is a platform to continue
    from, which the test of line 271 has checked. *)
Lemma spawnObstacles_total (offset : Q) (w : World) :
  platformsRef w ≠ [] → is_Some (spawnObstacles random offset w).
Proof.
  intros Hne. unfold spawnObstacles.
  destruct (last (platformsRef w)) as [lastPlatform |] eqn:E; simpl; [by eexists |].
  by apply last_None in E.
Qed.

End Cleanup.



(** ** Adequacy of the model *)

(** The last platform of a spaced array is the rightmost one. *)
Lemma last_is_rightmost (platforms : list Platform.t) (lastPlatform p : Platform.t) :
  spaced platforms → last platforms = Some lastPlatform → p ∈ platforms →
  Platform.x p <= Platform.x lastPlatform.
Proof.
  intros [Hs Hw] Hlast Hp.
  apply last_Some in Hlast as (front & ->).
  apply elem_of_app in Hp as [Hp | Hp].
  - apply StronglySorted_app in Hs as (Hfl & _ & _).
    assert (Hin : lastPlatform ∈ [lastPlatform]) by (by left).
    specialize (Hfl p lastPlatform Hp Hin). unfold gap in Hfl.
    rewrite Forall_forall in Hw.
    assert (0 <= Platform.width p) by (apply Hw, elem_of_app; by left). lra.
  - apply list_elem_of_singleton in Hp as ->. lra.
Qed.

(** The hazard loop never lengthens the array it runs over. *)
Lemma stepEnemy_length (env : Closure) (f : Frame) (r : ref) :
  (length (enemies (stepEnemy env f r)) ≤ length (enemies f))%nat.
Proof.
  unfold stepEnemy, spliceEnemy.
  repeat case_match; simpl; try lia; apply sublist_length, sublist_delete.
Qed.

(** So as many passes as the array is long let the iterator run off its
    end: further passes would do nothing. *)
Lemma enemyLoop_enough (env : Closure) (passes extra i : nat) (f : Frame) :
  (length (enemies f) ≤ passes + i)%nat →
  enemyLoop env (passes + extra) i f = enemyLoop env passes i f.
Proof.
  revert i f. induction passes as [| n IH]; intros i f Hlen; simpl.
  - destruct extra as [| k]; simpl; [done |]. by rewrite lookup_ge_None_2 by lia.
  - destruct (enemies f !! i) as [r |] eqn:E; [| done].
    apply IH. pose proof (stepEnemy_length env f r). lia.
Qed.

(** * Further properties of the code *)

(** ** Keys and pause *)

Lemma World_eta (w : World) :
  mkWorld (gameState w) (score w) (cameraX w) (gameSpeed w) (powerUpActive w) (playerRef w)
    (platformsRef w) (bricksRef w) (enemiesRef w) (coinsRef w) (powerUpsRef w) (keysRef w)
    (brickStore w) (enemyStore w) (powerUpStore w) (timers w) (drawn w) (loop w) = w.
Proof. by destruct w. Qed.

(** X1. A key other than the pause key is held from its keydown to its
    keyup, and releasing a key that was not held before the press gives the
    world back as it was. *)
Theorem key_release_undoes_press (key : string) (w : World) :
  key ≠ "p" → key ≠ "P" →
  has (handleKeyDown key w) key = true ∧
  has (handleKeyUp key (handleKeyDown key w)) key = false ∧
  (key ∉ keysRef w → handleKeyUp key (handleKeyDown key w) = w).
Proof.
  intros Hp HP.
  assert (E : handleKeyDown key w = set_keysRef ({[ key ]} ∪ keysRef w) w).
  { unfold handleKeyDown. rewrite !bool_decide_eq_false_2 by done. done. }
  rewrite E. unfold has, handleKeyUp. simpl. split; [| split].
  - apply bool_decide_eq_true. set_solver.
  - apply bool_decide_eq_false. set_solver.
  - intros Hk. destruct w as [? ? ? ? ? ? ? ? ? ? ? keys ? ? ? ? ? ?]. simpl in *.
    unfold set_keysRef. simpl. f_equal. set_solver.
Qed.

Lemma key_release_undoes_press_witness :
  has (handleKeyDown "d" initialWorld) "d" = true ∧
  handleKeyUp "d" (handleKeyDown "d" initialWorld) = initialWorld.
Proof.
  assert (H1 : "d" ≠ "p") by discriminate.
  assert (H2 : "d" ≠ "P") by discriminate.
  assert (H3 : "d" ∉ keysRef initialWorld) by (simpl; set_solver).
  destruct (key_release_undoes_press "d" initialWorld H1 H2) as (Ha & _ & Hb).
  exact (conj Ha (Hb H3)).
Defined.

Lemma refresh_twice (w : World) : refresh (refresh w) = refresh w.
Proof. reflexivity. Qed.

(** X2. The pause key is edge-triggered: it never enters the set of held
    keys.  While the game is paused frames change nothing.  Resuming (by
    key or by the Resume button) sets the frame loop up on the current
    camera and modifiers and runs a tick at once: pausing, letting any
    number of frames pass and resuming do to the world together what one
    frame does to it when its loop sees the current camera and
    modifiers. *)
Theorem pause_freezes_world (random : nat → Q) (n : nat) (w : World) (resume : Event) :
  gameState w = playing →
  resume = KeyDown "p" ∨ resume = KeyDown "P" ∨ resume = ClickResume →
  keysRef (dispatch random (KeyDown "p") w) = keysRef w ∧
  gameState (dispatch random (KeyDown "p") w) = paused ∧
  run random (KeyDown "p" :: replicate n AnimationFrame) w = refresh (set_gameState paused w) ∧
  run random (KeyDown "p" :: replicate n AnimationFrame ++ [resume]) w
  = dispatch random AnimationFrame (refresh w).
Proof.
  intros Hs Hr.
  set (frozen := refresh (set_gameState paused w)).
  assert (H1 : dispatch random (KeyDown "p") w = frozen).
  { unfold dispatch, handle, handleKeyDown, rerender. simpl. rewrite Hs. simpl.
    by apply setUp_outside_playing. }
  assert (H2 : ∀ k, run random (replicate k AnimationFrame) frozen = frozen).
  { induction k as [| k IH]; [done |].
    change (replicate (S k) AnimationFrame) with ([AnimationFrame] ++ replicate k AnimationFrame).
    unfold run in *. rewrite foldl_app. simpl.
    rewrite (frame_outside_playing random frozen) by done. exact IH. }
  assert (H3 : handle random resume frozen = refresh w).
  { unfold refresh. rewrite <- (World_eta w) at 3.
    destruct Hr as [-> | [-> | ->]];
      unfold handle, handleKeyDown, frozen, refresh; simpl;
      unfold set_loop, set_gameState; simpl; by rewrite Hs. }
  assert (H4 : dispatch random resume frozen = dispatch random AnimationFrame (refresh w)).
  { unfold dispatch at 1. rewrite H3. unfold rerender.
    rewrite decide_False by (simpl; rewrite Hs; done).
    apply setUp_fresh, refresh_twice. }
  rewrite H1. split; [done |]. split; [done |].
  change (KeyDown "p" :: replicate n AnimationFrame)
    with ([KeyDown "p"] ++ replicate n AnimationFrame).
  change (KeyDown "p" :: replicate n AnimationFrame ++ [resume])
    with ([KeyDown "p"] ++ replicate n AnimationFrame ++ [resume]).
  unfold run in *. rewrite !foldl_app. simpl. rewrite H1, H2. split; [done | exact H4].
Qed.

Lemma pause_freezes_world_witness :
  let random := λ _ : nat, 0.5 in
  run random (KeyDown "p" :: replicate 3 AnimationFrame ++ [ClickResume]) (mounted random)
  = dispatch random AnimationFrame (refresh (mounted random)).
Proof.
  intros random.
  assert (H1 : gameState (mounted random) = playing) by (vm_compute; reflexivity).
  assert (H2 : ClickResume = KeyDown "p" ∨ ClickResume = KeyDown "P" ∨ ClickResume = ClickResume)
    by (right; right; reflexivity).
  exact (proj2 (proj2 (proj2 (pause_freezes_world random 3 (mounted random) ClickResume H1 H2)))).
Defined.

(** ** Modifiers and their timers *)

Lemma isActive_set (k k' : PowerUpKind) (v : bool) (a : Active.t) :
  isActive k' (Active.set k v a) = if decide (k' = k) then v else isActive k' a.
Proof. by destruct k, k'. Qed.

(** X3. Activating a modifier that is already on schedules a second expiry
    without cancelling the first: when the first one fires the modifier goes
    off although the second is still pending, and the second firing then
    changes no flag. *)
Theorem reactivation_expires_early (k : PowerUpKind) (w : World) :
  timers w = [] →
  let twice := activatePowerUp k (activatePowerUp k w) in
  isActive k (powerUpActive twice) = true ∧
  timers twice = [k; k] ∧
  isActive k (powerUpActive (expire twice)) = false ∧
  timers (expire twice) = [k] ∧
  powerUpActive (expire (expire twice)) = powerUpActive (expire twice) ∧
  timers (expire (expire twice)) = [].
Proof.
  intros Ht. unfold activatePowerUp, expire. simpl. rewrite Ht. simpl.
  rewrite !isActive_set. rewrite !decide_True by done.
  repeat split. by destruct k, (powerUpActive w).
Qed.

Lemma reactivation_expires_early_witness :
  isActive Kind.shield
    (powerUpActive (expire (activatePowerUp Kind.shield (activatePowerUp Kind.shield initialWorld))))
  = false.
Proof.
  assert (H : timers initialWorld = []) by reflexivity.
  exact (proj1 (proj2 (proj2 (reactivation_expires_early Kind.shield initialWorld H)))).
Defined.

(** ** Camera *)

(** X4. The camera never overshoots: a tick leaves the offset between its
    old value and the clamped target, on the side it came from. *)
Theorem camera_never_overshoots (random : nat → Q) (env : Closure) (w : World) :
  let target := clampedCameraX (playerRef (integrate (handleInput env w))) in
  let after := cameraX (updateGame random env w) in
  (cameraX w <= target → cameraX w <= after <= target) ∧
  (target <= cameraX w → target <= after <= cameraX w).
Proof.
  intros target after. unfold after. rewrite updateGame_cameraX. fold target.
  destruct (cameraSpeed_cases (playerRef (integrate (handleInput env w)))) as [-> | [-> | ->]];
    split; intros H; lra.
Qed.

Lemma camera_never_overshoots_witness :
  let w := set_playerRef (GameObject.mk 1000 300 30 30 0 0 false) initialWorld in
  cameraX w <= cameraX (updateGame (λ _, 0) (loop w) w)
            <= clampedCameraX (playerRef (integrate (handleInput (loop w) w))).
Proof.
  intros w. apply (camera_never_overshoots (λ _, 0) (loop w) w). vm_compute. discriminate.
Defined.

(** ** Terrain *)

(** X5. In the air nothing holds the player: when the player overlaps no
    platform of the array after the position update, the platform loop
    leaves position and velocity as they are and the player is not
    grounded, whatever it was before. *)
Theorem free_fall_is_unhindered (player : GameObject.t) (platforms : list Platform.t) :
  Forall (λ p, overlapsPlatform player p = false) platforms →
  platformSweep player platforms = GameObject.set_onGround false player.
Proof.
  intros Hall. unfold platformSweep.
  assert (Hfree : Forall (λ p, overlapsPlatform (GameObject.set_onGround false player) p = false)
                    platforms) by done.
  revert Hfree. generalize (GameObject.set_onGround false player). clear Hall.
  intros q Hq. induction Hq as [| p ps Hp _ IH]; simpl; [done |].
  assert (E : hitPlatform q p = q) by (unfold hitPlatform; by rewrite Hp).
  by rewrite E.
Qed.

Lemma free_fall_is_unhindered_witness :
  platformSweep (GameObject.mk 250 300 30 30 5 2 true) [startingGround]
  = GameObject.mk 250 300 30 30 5 2 false.
Proof.
  apply (free_fall_is_unhindered (GameObject.mk 250 300 30 30 5 2 true) [startingGround]).
  repeat constructor.
Defined.

(** ** Hazards *)

Lemma patrol_lane (platforms : list Platform.t) (enemy : GameObject.t) :
  lane enemy (patrol platforms enemy).
Proof.
  unfold patrol, lane. simpl.
  destruct (findPlatform _ platforms) as [[onPlatform l] r].
  repeat case_match; simpl; (split; [done |]); (by left) || (right; ring).
Qed.

(** X6. A hazard that stands in a platform at least as wide as itself is
    kept within that platform's span by the patrol: after the move its left
    edge is not left of the platform's and its right edge not right of the
    platform's. *)
Theorem patrol_stays_on_platform (platforms : list Platform.t) (enemy : GameObject.t) (l r : Q) :
  findPlatform (advanced enemy) platforms = (true, l, r) →
  GameObject.width enemy <= r - l →
  let after := patrol platforms enemy in
  (∃ p, p ∈ platforms ∧ l = Platform.x p ∧ r = Platform.x p + Platform.width p) ∧
  l <= GameObject.x after ∧
  GameObject.x after + GameObject.width after <= r.
Proof.
  intros Hf Hw after.
  destruct (patrol_on_platform enemy platforms l r Hf) as (Hin & Hleft & Hright).
  destruct (findPlatform_on _ _ _ _ Hf) as (p & Hp & _ & El & Er).
  split; [by exists p |].
  assert (Ew : GameObject.width (advanced enemy) = GameObject.width enemy) by done.
  destruct (Qlt_le_dec l (GameObject.x (advanced enemy))) as [H1 | H1].
  - destruct (Qlt_le_dec (GameObject.x (advanced enemy) + GameObject.width (advanced enemy)) r)
      as [H2 | H2].
    + unfold after. rewrite (Hin (conj H1 H2)). lra.
    + unfold after. rewrite (Hright H1 H2). simpl. lra.
  - unfold after. rewrite (Hleft H1). simpl. lra.
Qed.

Lemma patrol_stays_on_platform_witness :
  let after := patrol [Platform.mk 400 350 130 20] (GameObject.mk 401 330 25 25 (-1.5) 0 true) in
  400 <= GameObject.x after ∧ GameObject.x after + GameObject.width after <= 530.
Proof.
  intros after.
  assert (H1 : findPlatform (advanced (GameObject.mk 401 330 25 25 (-1.5) 0 true))
                 [Platform.mk 400 350 130 20] = (true, 400, 400 + 130)) by reflexivity.
  assert (H2 : GameObject.width (GameObject.mk 401 330 25 25 (-1.5) 0 true) <= 400 + 130 - 400)
    by (vm_compute; discriminate).
  destruct (patrol_stays_on_platform _ _ _ _ H1 H2) as (_ & H3 & H4).
  split; [exact H3 |]. unfold after. lra.
Defined.

(** ** The books of a tick: score, run state, modifiers *)

Lemma bookkeeping_refl (s : bool) (w : World) : bookkeeping s w w.
Proof.
  split; [exists 0%nat; simpl; lia |]. split; [by left |]. split; [by left | done].
Qed.

Lemma bookkeeping_trans (s : bool) (w1 w2 w3 : World) :
  bookkeeping s w1 w2 → bookkeeping s w2 w3 → bookkeeping s w1 w3.
Proof.
  intros ([n1 S1] & G1 & A1 & T1) ([n2 S2] & G2 & A2 & T2).
  split; [exists (n1 + n2)%nat; lia |]. split; [| split].
  - destruct G2 as [E | ?]; [rewrite E; exact G1 | by right].
  - intros k Hk. destruct (A2 k Hk) as [H | H]; [| by right].
    destruct (A1 k H) as [H' | H']; [by left | right].
    by eapply elem_of_prefix.
  - by etrans.
Qed.

(** The same books: nothing of the four changed. *)
Lemma bookkeeping_same (s : bool) (w w' : World) :
  score w' = score w → gameState w' = gameState w →
  powerUpActive w' = powerUpActive w → timers w' = timers w →
  bookkeeping s w w'.
Proof.
  intros E1 E2 E3 E4. split; [exists 0%nat; lia |]. split; [by left |].
  split; [intros k Hk; left; congruence | by rewrite E4].
Qed.

Lemma bookkeeping_score (s : bool) (w w' : World) (n : nat) :
  score w' = (score w + 50 * Z.of_nat n)%Z → gameState w' = gameState w →
  powerUpActive w' = powerUpActive w → timers w' = timers w →
  bookkeeping s w w'.
Proof.
  intros E1 E2 E3 E4. split; [by exists n |]. split; [by left |].
  split; [intros k Hk; left; congruence | by rewrite E4].
Qed.

Lemma hitBrick_books (s : bool) (f : Frame) (r : ref) :
  bookkeeping s (world f) (world (hitBrick f r)).
Proof.
  unfold hitBrick. repeat case_match; simpl;
    first [ by apply bookkeeping_refl
          | by apply bookkeeping_same
          | by apply (bookkeeping_score s _ _ 2) ].
Qed.

Lemma stepPowerUp_books (s : bool) (f : Frame) (r : ref) :
  bookkeeping s (world f) (world (stepPowerUp f r)).
Proof.
  unfold stepPowerUp. repeat case_match; simpl;
    first [ by apply bookkeeping_refl | by apply bookkeeping_same | idtac ].
  split; [exists 1%nat; simpl; lia |]. split; [by left |]. split.
  - intros k. simpl. rewrite isActive_set. case_decide as E; [| by left].
    intros _. right. subst k. apply elem_of_app. right. by left.
  - simpl. by apply prefix_app_r.
Qed.

Lemma stepEnemy_books (env : Closure) (f : Frame) (r : ref) :
  bookkeeping (Active.shield (seen_powerUpActive env)) (world f) (world (stepEnemy env f r)).
Proof.
  unfold stepEnemy, spliceEnemy. repeat case_match; simpl;
    first [ by apply bookkeeping_refl
          | by apply bookkeeping_same
          | by apply (bookkeeping_score _ _ _ 2)
          | idtac ].
  split; [exists 0%nat; simpl; lia |]. split.
  - right. split; [| done]. by destruct (Active.shield _).
  - split; [by left | done].
Qed.

Lemma enemyLoop_books (env : Closure) (passes i : nat) (f : Frame) :
  bookkeeping (Active.shield (seen_powerUpActive env)) (world f)
    (world (enemyLoop env passes i f)).
Proof.
  revert i f. induction passes as [| n IH]; intros i f; simpl; [apply bookkeeping_refl |].
  destruct (enemies f !! i) as [r |]; [| apply bookkeeping_refl].
  eapply bookkeeping_trans; [apply stepEnemy_books | apply IH].
Qed.

Lemma collectCoin_books (s : bool) (w : World) (i : nat) : bookkeeping s w (collectCoin w i).
Proof.
  unfold collectCoin. repeat case_match; simpl;
    first [ by apply bookkeeping_refl | by apply (bookkeeping_score s _ _ 1) ].
Qed.

Lemma brickCollisions_books (s : bool) (f : Frame) :
  bookkeeping s (world f) (world (brickCollisions f)).
Proof.
  unfold brickCollisions.
  apply (foldl_kept (λ f', bookkeeping s (world f) (world f'))); [apply bookkeeping_refl |].
  intros a b Ha. eapply bookkeeping_trans; [exact Ha | apply hitBrick_books].
Qed.

Lemma updatePowerUps_books (s : bool) (f : Frame) :
  bookkeeping s (world f) (world (updatePowerUps f)).
Proof.
  unfold updatePowerUps.
  apply (foldl_kept (λ f', bookkeeping s (world f) (world f'))); [apply bookkeeping_refl |].
  intros a b Ha. eapply bookkeeping_trans; [exact Ha | apply stepPowerUp_books].
Qed.

Lemma resolve_books (env : Closure) (f : Frame) :
  bookkeeping (Active.shield (seen_powerUpActive env)) (world f) (world (resolve env f)).
Proof.
  unfold resolve, updateEnemies.
  eapply bookkeeping_trans; [| apply enemyLoop_books].
  eapply bookkeeping_trans; [| apply updatePowerUps_books].
  eapply bookkeeping_trans; [| apply brickCollisions_books].
  by apply bookkeeping_same.
Qed.

Lemma approach_books (random : nat → Q) (s : bool) (env : Closure) (w : World) :
  bookkeeping s w (world (approach random env w)).
Proof.
  unfold approach. simpl.
  assert (H : bookkeeping s w (integrate (handleInput env w))) by (by apply bookkeeping_same).
  eapply bookkeeping_trans; [exact H |].
  generalize (integrate (handleInput env w)). intros v.
  unfold spawnIfNeeded. destruct (needsSpawn v) as [lastPlatform |]; simpl.
  - destruct (spawnGroup_grows random lastPlatform v) as (E & _).
    injection E as E1 E2 _ _ E3 _ _ E4 _ _ _.
    by apply bookkeeping_same.
  - by apply bookkeeping_same.
Qed.

(** The books before the win test of line 478. *)
Lemma collisions_books (random : nat → Q) (env : Closure) (w : World) :
  bookkeeping (Active.shield (seen_powerUpActive env)) w
    (collectCoins (world (resolve env (approach random env w)))).
Proof.
  eapply bookkeeping_trans; [apply approach_books |].
  eapply bookkeeping_trans; [apply resolve_books |].
  unfold collectCoins. apply (foldl_kept (bookkeeping _ _)); [apply bookkeeping_refl |].
  intros a i Ha. eapply bookkeeping_trans; [exact Ha | apply collectCoin_books].
Qed.

Lemma settle_rest (w : World) :
  score (settle w) = score (collectCoins w) ∧
  powerUpActive (settle w) = powerUpActive (collectCoins w) ∧
  timers (settle w) = timers (collectCoins w).
Proof.
  unfold settle, updateSpeed, keepInBounds, checkWin. simpl. by case_match.
Qed.

Lemma gameLoop_score (random : nat → Q) (w : World) :
  ∃ n : nat, score (gameLoop random w) = (score w + 50 * Z.of_nat n)%Z.
Proof.
  unfold gameLoop. destruct (decide (gameState w = playing)); [| exists 0%nat; lia].
  unfold updateGame. destruct (settle_rest (world (resolve (loop w) (approach random (loop w) w))))
    as (-> & _).
  by destruct (collisions_books random (loop w) w) as (Hn & _).
Qed.

(** X7. No event but the restart lowers the score, and whatever an event
    adds is a multiple of 50. *)
Theorem score_rises_by_fifties (random : nat → Q) (e : Event) (w : World) :
  e ≠ ClickPlayAgain →
  ∃ n : nat, score (dispatch random e w) = (score w + 50 * Z.of_nat n)%Z.
Proof.
  intros He. unfold dispatch.
  apply (rerender_kept random (λ v, ∃ n : nat, score v = (score w + 50 * Z.of_nat n)%Z)).
  - done.
  - intros v [n Hn]. destruct (gameLoop_score random v) as [m Hm].
    exists (n + m)%nat. lia.
  - destruct e as [key | key | | | |]; simpl; try done.
    + exists 0%nat. unfold handleKeyDown. case_match; simpl; lia.
    + exists 0%nat. simpl. lia.
    + apply gameLoop_score.
    + exists 0%nat. unfold expire. case_match; simpl; lia.
    + exists 0%nat. case_match; simpl; lia.
Qed.

Lemma score_rises_by_fifties_witness :
  AnimationFrame ≠ ClickPlayAgain ∧
  ∃ n : nat, score (dispatch (λ _, 0.5) AnimationFrame underBrick)
             = (score underBrick + 50 * Z.of_nat n)%Z.
Proof.
  assert (H : AnimationFrame ≠ ClickPlayAgain) by discriminate.
  exact (conj H (score_rises_by_fifties (λ _, 0.5) AnimationFrame underBrick H)).
Defined.

(** X8. While the frame loop sees the shield on, a tick leaves the run
    state as it was unless the player ends it at or beyond the finish line:
    no hazard contact ends the run. *)
Theorem shield_keeps_run_going (random : nat → Q) (env : Closure) (w : World) :
  Active.shield (seen_powerUpActive env) = true →
  let w' := updateGame random env w in
  gameState w' = if Qgeb (GameObject.x (playerRef w')) FINISH_LINE then won else gameState w.
Proof.
  intros Hs w'. unfold w', updateGame.
  set (v := world (resolve env (approach random env w))).
  rewrite settle_gameState, settle_x.
  assert (Hg : gameState v = gameState w).
  { destruct (collisions_books random env w) as (_ & G & _). fold v in G.
    rewrite collectCoins_gameState in G. rewrite Hs in G. by destruct G as [G | [? _]]. }
  rewrite Hg.
  destruct (Qltb (GameObject.x (playerRef v)) 0) eqn:E; [| done].
  apply Qltb_lt in E.
  assert (H1 : Qgeb (GameObject.x (playerRef v)) FINISH_LINE = false).
  { apply Qgeb_lt. unfold FINISH_LINE. lra. }
  assert (H2 : Qgeb 0 FINISH_LINE = false) by reflexivity.
  by rewrite H1, H2.
Qed.

(** With the shield seen the hazard next to the player is harmless; without
    it the same tick ends the run. *)
Lemma shield_keeps_run_going_witness :
  let random := λ _ : nat, 0.5 in
  let shielded := mkClosure (Active.mk false false true) 0 in
  let bare := mkClosure (Active.mk false false false) 0 in
  gameState (updateGame random shielded besideHazard) = playing ∧
  gameState (updateGame random bare besideHazard) = gameOver.
Proof.
  intros random shielded bare.
  assert (H : Active.shield (seen_powerUpActive shielded) = true) by reflexivity.
  split; [| vm_compute; reflexivity].
  rewrite (shield_keeps_run_going random shielded besideHazard H).
  vm_compute. reflexivity.
Defined.

Lemma handle_expiring (random : nat → Q) (e : Event) (v : World) :
  expiring v → expiring (handle random e v).
Proof.
  intros IH.
  assert (Hreset : expiring (resetGame v)) by (intros k; by destruct k).
  destruct e as [key | key | | | |]; simpl.
  - unfold handleKeyDown. by case_match.
  - done.
  - unfold gameLoop. destruct (decide (gameState v = playing)); [| done].
    intros k Hk. unfold updateGame in *.
    destruct (settle_rest (world (resolve (loop v) (approach random (loop v) v))))
      as (_ & E1 & E2).
    rewrite E1 in Hk. rewrite E2.
    destruct (collisions_books random (loop v) v) as (_ & _ & A & T).
    destruct (A k Hk) as [Hon | Hin]; [| done].
    eapply elem_of_prefix; [exact T | by apply IH].
  - unfold expire. destruct (timers v) as [| type rest] eqn:Et; [done |].
    intros k. simpl. rewrite isActive_set. case_decide as E; [done |].
    intros Hk. specialize (IH k Hk). rewrite Et in IH.
    apply elem_of_cons in IH as [-> | IH]; done.
  - by repeat case_match.
  - by case_match.
Qed.

(** X9. In every state the component can reach, a modifier that is on has
    an expiry pending: no modifier stays on for ever. *)
Theorem modifiers_always_expire (random : nat → Q) (w : World) :
  reachable random w → expiring w.
Proof.
  apply (reachable_kept random expiring).
  - intros k. by destruct k.
  - done.
  - intros e v. apply handle_expiring.
Qed.

Lemma modifiers_always_expire_witness :
  let random := λ _ : nat, 0.5 in
  reachable random (run random [AnimationFrame; Timeout] (mounted random)) ∧
  expiring (run random [AnimationFrame; Timeout] (mounted random)).
Proof.
  intros random.
  assert (H : reachable random (run random [AnimationFrame; Timeout] (mounted random)))
    by (exists [AnimationFrame; Timeout]; reflexivity).
  exact (conj H (modifiers_always_expire random _ H)).
Defined.

(** ** World bounds and the head-up display *)

(** Where the end of the tick leaves the player. *)
Lemma settle_in_bounds (w : World) :
  0 <= GameObject.x (playerRef (settle w)) ∧ GameObject.y (playerRef (settle w)) <= 400.
Proof.
  unfold settle, updateSpeed, keepInBounds. simpl.
  rewrite checkWin_player, collectCoins_player.
  destruct (Qltb (GameObject.x (playerRef w)) 0) eqn:E1; simpl;
    destruct (Qgtb (GameObject.y (playerRef w)) 400) eqn:E2; simpl; compare_hyps; lra.
Qed.

Lemma handle_in_bounds (random : nat → Q) (e : Event) (w : World) :
  0 <= GameObject.x (playerRef w) ∧ GameObject.y (playerRef w) <= 400 →
  0 <= GameObject.x (playerRef (handle random e w)) ∧
  GameObject.y (playerRef (handle random e w)) <= 400.
Proof.
  intros Hw.
  assert (H0 : 0 <= GameObject.x (playerRef (resetGame w)) ∧
               GameObject.y (playerRef (resetGame w)) <= 400) by (simpl; lra).
  destruct e as [key | key | | | |]; simpl.
  - unfold handleKeyDown. by case_match.
  - done.
  - unfold gameLoop. case_match; [apply settle_in_bounds | done].
  - unfold expire. by case_match.
  - by repeat case_match.
  - by case_match.
Qed.

Lemma reachable_in_bounds (random : nat → Q) (w : World) :
  reachable random w →
  0 <= GameObject.x (playerRef w) ∧ GameObject.y (playerRef w) <= 400.
Proof.
  apply (reachable_kept random
           (λ w, 0 <= GameObject.x (playerRef w) ∧ GameObject.y (playerRef w) <= 400)).
  - simpl. lra.
  - done.
  - intros e v. apply handle_in_bounds.
Qed.

Lemma settle_gameSpeed (w : World) :
  gameSpeed (settle w) = (2 + Qfloor (GameObject.x (playerRef (settle w)) / 1000))%Z.
Proof.
  unfold settle. generalize (keepInBounds (checkWin (collectCoins w))). intros u.
  reflexivity.
Qed.

(** X10. A tick ends with the player inside the world: x is at least 0 and
    y at most 400, the player being grounded with no vertical velocity when
    it ends on that floor line after having been below it; and the speed
    tier is 2 plus the thousands of the final x, so at least 2. *)
Theorem tick_keeps_player_in_world (random : nat → Q) (env : Closure) (w : World) :
  let before := playerRef (world (resolve env (approach random env w))) in
  let after := playerRef (updateGame random env w) in
  0 <= GameObject.x after ∧
  GameObject.y after <= 400 ∧
  (400 < GameObject.y before →
   GameObject.y after = 400 ∧ GameObject.velocityY after = 0 ∧ GameObject.onGround after = true) ∧
  gameSpeed (updateGame random env w) = (2 + Qfloor (GameObject.x after / 1000))%Z ∧
  (2 <= gameSpeed (updateGame random env w))%Z.
Proof.
  intros before after. unfold after, updateGame.
  set (v := world (resolve env (approach random env w))).
  destruct (settle_in_bounds v) as [Hx Hy].
  split; [exact Hx |]. split; [exact Hy |]. split; [| split].
  - unfold before. fold v. clearbody v. intros Hb. apply Qgtb_gt in Hb.
    unfold settle, updateSpeed, keepInBounds. simpl.
    rewrite checkWin_player, collectCoins_player.
    destruct (Qltb (GameObject.x (playerRef v)) 0); simpl; by rewrite Hb.
  - apply settle_gameSpeed.
  - rewrite settle_gameSpeed.
    assert (H0 : (0 <= Qfloor (GameObject.x (playerRef (settle v)) / 1000))%Z); [| lia].
    rewrite <- (Qfloor_Z 0). apply Qfloor_resp_le.
    unfold Qdiv. change (/ 1000) with (1 # 1000).
    generalize dependent (GameObject.x (playerRef (settle v))). intros x Hx.
    change (inject_Z 0) with 0. lra.
Qed.

Lemma tick_keeps_player_in_world_witness :
  let w := set_playerRef (GameObject.mk 2500 395 30 30 0 10 false) initialWorld in
  let after := playerRef (updateGame (λ _, 0) (loop w) w) in
  GameObject.y after = 400 ∧ GameObject.velocityY after = 0 ∧ GameObject.onGround after = true.
Proof.
  intros w after.
  apply (tick_keeps_player_in_world (λ _, 0) (loop w) w). vm_compute. reflexivity.
Defined.

(** X11. In every state the component can reach the figures of the display
    are in range: the progress is between 0 and 100 per cent, the distance
    left between 0 and 10000, also after rounding, and the progress shows
    full exactly when no distance is left. *)
Theorem display_in_range (random : nat → Q) (w : World) :
  reachable random w →
  let player := playerRef w in
  0 <= progress player <= 100 ∧
  0 <= distanceLeft player <= FINISH_LINE ∧
  (0 <= Math_round (progress player) <= 100)%Z ∧
  (0 <= Math_round (distanceLeft player) <= 10000)%Z ∧
  (progress player == 100 ↔ distanceLeft player == 0).
Proof.
  intros Hw player. destruct (reachable_in_bounds random w Hw) as [Hx _]. fold player in Hx. clearbody player.
  assert (Hp : 0 <= progress player <= 100).
  { unfold progress, Math_min, FINISH_LINE, Qdiv. change (/ 10000) with (1 # 10000).
    case_match; compare_hyps; lra. }
  assert (Hd : 0 <= distanceLeft player <= FINISH_LINE).
  { unfold distanceLeft, Math_max, FINISH_LINE. case_match; compare_hyps; lra. }
  assert (Hround : ∀ (q : Q) (n : Z), 0 <= q <= inject_Z n → (0 <= Math_round q <= n)%Z).
  { intros q n [H1 H2]. unfold Math_round. split.
    - rewrite <- (Qfloor_Z 0). apply Qfloor_resp_le. change (inject_Z 0) with 0. lra.
    - assert (H3 : (Qfloor (q + 0.5) < n + 1)%Z); [| lia].
      rewrite Zlt_Qlt. eapply Qle_lt_trans; [apply Qfloor_le |].
      rewrite inject_Z_plus. change (inject_Z 1) with 1. lra. }
  split; [exact Hp |]. split; [exact Hd |].
  split; [apply (Hround _ 100%Z); exact Hp |].
  split; [apply (Hround _ 10000%Z); exact Hd |].
  unfold progress, distanceLeft, Math_min, Math_max, FINISH_LINE, Qdiv.
  change (/ 10000) with (1 # 10000).
  repeat case_match; compare_hyps; split; intros Heq; lra.
Qed.

Lemma display_in_range_witness :
  let random := λ _ : nat, 0.5 in
  let w := run random [KeyDown "d"; AnimationFrame] (mounted random) in
  reachable random w ∧ 0 <= progress (playerRef w) <= 100.
Proof.
  intros random w.
  assert (H : reachable random w) by (exists [KeyDown "d"; AnimationFrame]; reflexivity).
  exact (conj H (proj1 (display_in_range random w H))).
Defined.

(** ** Bricks and platforms over a run *)

Lemma gameLoop_broken (random : nat → Q) (w : World) (r : ref) :
  brokenAt w r → brokenAt (gameLoop random w) r.
Proof.
  intros (brick & Hr & Hb).
  unfold gameLoop. destruct (decide (gameState w = playing)); [| by exists brick].
  destruct (updateGame_bricks random (loop w) w) as (new & _ & [E | (r0 & b0 & L0 & B0 & E)]).
  - exists brick. split; [| done]. rewrite E. by apply lookup_app_l_Some.
  - destruct (decide (r = r0)) as [-> | Hne].
    + exists (Brick.set_broken true b0). split; [| done].
      rewrite E. apply list_lookup_insert_eq. by eapply lookup_lt_Some.
    + exists brick. split; [| done].
      rewrite E, list_lookup_insert_ne by done. by apply lookup_app_l_Some.
Qed.

(** X12. A broken brick stays broken whatever happens next: no event, the
    restart included, mends a brick object. *)
Theorem broken_stays_broken (random : nat → Q) (e : Event) (w : World) (r : ref) :
  brokenAt w r → brokenAt (dispatch random e w) r.
Proof.
  intros Hw. unfold dispatch. apply (rerender_kept random (λ v, brokenAt v r)).
  - done.
  - intros v. apply gameLoop_broken.
  - assert (Hk : ∀ v, brickStore v = brickStore w → brokenAt v r).
    { intros v E. destruct Hw as (brick & Hr & Hb). exists brick. by rewrite E. }
    destruct e as [key | key | | | |]; simpl.
    + apply Hk. unfold handleKeyDown. by case_match.
    + by apply Hk.
    + by apply gameLoop_broken.
    + apply Hk. unfold expire. by case_match.
    + apply Hk. by repeat case_match.
    + apply Hk. by case_match.
Qed.

Lemma broken_stays_broken_witness :
  let random := λ _ : nat, 0.5 in
  let w := set_gameState gameOver (dispatch random AnimationFrame underBrick) in
  brokenAt w 0%nat ∧ brokenAt (dispatch random ClickPlayAgain w) 0%nat.
Proof.
  intros random w.
  assert (H : brokenAt w 0%nat).
  { eexists. split; [vm_compute; reflexivity | reflexivity]. }
  exact (conj H (broken_stays_broken random ClickPlayAgain w 0%nat H)).
Defined.

Lemma StronglySorted_lookup {A : Type} (R : A → A → Prop) (l : list A) (i j : nat) (a b : A) :
  StronglySorted R l → (i < j)%nat → l !! i = Some a → l !! j = Some b → R a b.
Proof.
  intros Hs. revert i j. induction Hs as [| x l _ IH Hx]; intros i j Hij Ha Hb; [done |].
  destruct j as [| j]; [lia |]. simpl in Hb. destruct i as [| i]; simpl in Ha.
  - injection Ha as ->. rewrite Forall_forall in Hx. apply Hx. by eapply list_elem_of_lookup_2.
  - apply (IH i j); [lia | done | done].
Qed.

(** X13. In every state the component can reach, [Math.random] never
    returning a negative number, the platform array runs from left to right
    without overlap: each platform begins at least 100 beyond the right edge
    of every earlier one, and the last one is the rightmost. *)
Theorem platforms_left_to_right (random : nat → Q) (w : World) :
  (∀ n, 0 <= random n) → reachable random w →
  (∀ i j p q, (i < j)%nat → platformsRef w !! i = Some p → platformsRef w !! j = Some q →
              Platform.x p + Platform.width p + 100 <= Platform.x q) ∧
  (∀ p lastPlatform, last (platformsRef w) = Some lastPlatform → p ∈ platformsRef w →
                     Platform.x p <= Platform.x lastPlatform).
Proof.
  intros Hrandom Hw. destruct (reachable_wellFormed random Hrandom w Hw) as [Hs _]. split.
  - intros i j p q Hij Hp Hq. destruct Hs as [Hs _].
    exact (StronglySorted_lookup gap _ i j p q Hs Hij Hp Hq).
  - intros p lastPlatform Hl Hp. by eapply last_is_rightmost.
Qed.

Lemma platforms_left_to_right_witness :
  let random := λ _ : nat, 0.5 in
  let w := run random [AnimationFrame; AnimationFrame] (mounted random) in
  (∀ n, 0 <= random n) ∧ reachable random w ∧
  ∀ p lastPlatform, last (platformsRef w) = Some lastPlatform → p ∈ platformsRef w →
                    Platform.x p <= Platform.x lastPlatform.
Proof.
  intros random w.
  assert (H0 : ∀ n, 0 <= random n) by (intros n; vm_compute; discriminate).
  assert (H1 : reachable random w) by (exists [AnimationFrame; AnimationFrame]; reflexivity).
  exact (conj H0 (conj H1 (proj2 (platforms_left_to_right random w H0 H1)))).
Defined.

(** ** What the generator builds *)

Section Group.

Variable random : nat → Q.
Hypothesis random_range : ∀ n, 0 <= random n < 1.

(** X14. The platform of a new group begins 100 to 300 beyond the right
    edge of the last platform, is 80 to 180 wide and 20 high, and has its
    top 20 to 80 above the ground line 400. *)
Theorem generated_platform_geometry (lastPlatform : Platform.t) (w : World) :
  let p := nextPlatform random lastPlatform w in
  let edge := Platform.x lastPlatform + Platform.width lastPlatform in
  platformsRef (spawnGroup random lastPlatform w) = platformsRef w ++ [p] ∧
  edge + 100 <= Platform.x p < edge + 300 ∧
  80 <= Platform.width p < 180 ∧
  Platform.height p = 20 ∧
  320 < Platform.y p <= 380.
Proof.
  intros p edge. split; [apply spawnGroup_platforms |].
  pose proof (random_range (drawn w)) as R0.
  pose proof (random_range (S (drawn w))) as R1.
  pose proof (random_range (S (S (drawn w)))) as R2.
  unfold p, edge, nextPlatform. simpl. repeat split; lra.
Qed.

Lemma brickCount_range (r : Q) :
  0 <= r < 1 → (1 <= Z.to_nat (Math_floor (r * 3) + 1) <= 3)%nat.
Proof.
  intros [H0 H1]. unfold Math_floor.
  assert (Hlo : (0 <= Qfloor (r * 3))%Z).
  { rewrite <- (Qfloor_Z 0). apply Qfloor_resp_le. change (inject_Z 0) with 0. lra. }
  assert (Hhi : (Qfloor (r * 3) < 3)%Z).
  { rewrite Zlt_Qlt. eapply Qle_lt_trans; [apply Qfloor_le |].
    change (inject_Z 3) with 3. lra. }
  lia.
Qed.

Lemma spawnBrick_spec (spawnX platformY : Q) (i : nat) (w : World) :
  ∃ b, freshBrick spawnX platformY b ∧
       brickStore (spawnBrick random spawnX platformY i w) = brickStore w ++ [b] ∧
       bricksRef (spawnBrick random spawnX platformY i w) = bricksRef w ++ [length (brickStore w)] ∧
       (enemiesRef (spawnBrick random spawnX platformY i w),
        enemyStore (spawnBrick random spawnX platformY i w),
        coinsRef (spawnBrick random spawnX platformY i w),
        powerUpsRef (spawnBrick random spawnX platformY i w),
        powerUpStore (spawnBrick random spawnX platformY i w))
       = (enemiesRef w, enemyStore w, coinsRef w, powerUpsRef w, powerUpStore w).
Proof.
  pose proof (random_range (drawn w)) as R0.
  assert (Hi : 0 <= inject_Z (Z.of_nat i)).
  { change 0 with (inject_Z 0). rewrite <- Zle_Qle. lia. }
  unfold spawnBrick, Math_random. simpl.
  destruct (Qgtb (random (S (drawn w))) 0.7); simpl;
    (eexists; split; [| split; [reflexivity | split; reflexivity]];
     unfold freshBrick; simpl; repeat split;
     try done; try (by eexists); try (intros [? ?]; done); lra).
Qed.

Lemma spawnBricks_spec (spawnX platformY : Q) (count i : nat) (w : World) :
  ∃ new, Forall (freshBrick spawnX platformY) new ∧ length new = count ∧
         brickStore (spawnBricks random spawnX platformY count i w) = brickStore w ++ new ∧
         bricksRef (spawnBricks random spawnX platformY count i w)
         = bricksRef w ++ seq (length (brickStore w)) count ∧
         (enemiesRef (spawnBricks random spawnX platformY count i w),
          enemyStore (spawnBricks random spawnX platformY count i w),
          coinsRef (spawnBricks random spawnX platformY count i w),
          powerUpsRef (spawnBricks random spawnX platformY count i w),
          powerUpStore (spawnBricks random spawnX platformY count i w))
         = (enemiesRef w, enemyStore w, coinsRef w, powerUpsRef w, powerUpStore w).
Proof.
  revert i w. induction count as [| n IH]; intros i w; simpl.
  - exists []. rewrite !app_nil_r. by repeat split.
  - destruct (spawnBrick_spec spawnX platformY i w) as (b & Hb & E1 & E2 & E3).
    destruct (IH (S i) (spawnBrick random spawnX platformY i w)) as (new & Hn & Hl & F1 & F2 & F3).
    exists (b :: new). split; [by constructor |]. split; [simpl; lia |].
    rewrite F1, F2, F3, E1, E2, E3, length_app. simpl.
    rewrite <- !app_assoc. simpl. repeat split. by rewrite Nat.add_1_r.
Qed.

(** X15. Besides its platform a new group holds one to three bricks, at
    most one hazard and at most one coin, and no boost.  The bricks are
    intact, 25 by 25, carry a reward exactly when flagged, and lie above the
    platform, not left of its beginning; the hazard rests on the platform's
    top moving at 1.5 either way; the coin is uncollected.  All of it is
    appended: what the arrays and stores held before stays in place. *)
Theorem generated_group_contents (lastPlatform : Platform.t) (w : World) :
  let p := nextPlatform random lastPlatform w in
  let w' := spawnGroup random lastPlatform w in
  (∃ new, brickStore w' = brickStore w ++ new ∧
          bricksRef w' = bricksRef w ++ seq (length (brickStore w)) (length new) ∧
          (1 <= length new <= 3)%nat ∧
          Forall (freshBrick (Platform.x p) (Platform.y p)) new) ∧
  (∃ new, enemyStore w' = enemyStore w ++ new ∧
          enemiesRef w' = enemiesRef w ++ seq (length (enemyStore w)) (length new) ∧
          (length new <= 1)%nat ∧
          Forall (freshHazard (Platform.x p) (Platform.y p)) new) ∧
  (∃ new, coinsRef w' = coinsRef w ++ new ∧
          (length new <= 1)%nat ∧
          Forall (freshCoin (Platform.x p) (Platform.y p)) new) ∧
  powerUpsRef w' = powerUpsRef w ∧ powerUpStore w' = powerUpStore w.
Proof.
  intros p w'. unfold w', spawnGroup. simpl.
  set (spawnX := Platform.x lastPlatform + Platform.width lastPlatform + random (drawn w) * 200 + 100).
  set (platformY := 400 - (random (S (drawn w)) * 60 + 20)).
  change (Platform.x p) with spawnX. change (Platform.y p) with platformY.
  set (w1 := spawnPlatform random spawnX platformY (set_drawn (S (S (drawn w))) (set_drawn (S (drawn w)) w))).
  assert (E1 : (bricksRef w1, brickStore w1, enemiesRef w1, enemyStore w1, coinsRef w1,
                powerUpsRef w1, powerUpStore w1)
               = (bricksRef w, brickStore w, enemiesRef w, enemyStore w, coinsRef w,
                  powerUpsRef w, powerUpStore w)) by reflexivity.
  clearbody w1.
  set (w2 := spawnBrickStack random spawnX platformY w1).
  assert (E2 : ∃ new, Forall (freshBrick spawnX platformY) new ∧ (1 <= length new <= 3)%nat ∧
                 brickStore w2 = brickStore w1 ++ new ∧
                 bricksRef w2 = bricksRef w1 ++ seq (length (brickStore w1)) (length new) ∧
                 (enemiesRef w2, enemyStore w2, coinsRef w2, powerUpsRef w2, powerUpStore w2)
                 = (enemiesRef w1, enemyStore w1, coinsRef w1, powerUpsRef w1, powerUpStore w1)).
  { unfold w2, spawnBrickStack. simpl.
    destruct (spawnBricks_spec spawnX platformY
                (Z.to_nat (Math_floor (random (drawn w1) * 3) + 1)) 0
                (set_drawn (S (drawn w1)) w1)) as (new & Hn & Hl & F1 & F2 & F3).
    exists new. split; [done |]. split.
    { rewrite Hl. apply brickCount_range, random_range. }
    rewrite Hl. done. }
  clearbody w2.
  set (w3 := spawnEnemy random spawnX platformY w2).
  assert (E3 : ∃ new, Forall (freshHazard spawnX platformY) new ∧ (length new <= 1)%nat ∧
                 enemyStore w3 = enemyStore w2 ++ new ∧
                 enemiesRef w3 = enemiesRef w2 ++ seq (length (enemyStore w2)) (length new) ∧
                 (bricksRef w3, brickStore w3, coinsRef w3, powerUpsRef w3, powerUpStore w3)
                 = (bricksRef w2, brickStore w2, coinsRef w2, powerUpsRef w2, powerUpStore w2)).
  { unfold w3, spawnEnemy, Math_random. simpl.
    destruct (Qgtb (random (drawn w2)) 0.3); simpl.
    - eexists [_]. split; [| split; [simpl; lia | repeat split; reflexivity]].
      constructor; [| constructor]. unfold freshHazard. simpl.
      split; [done |]. split; [ring |]. split; [done |]. split; [| done].
      destruct (Qgtb _ 0.5); auto.
    - exists []. simpl. rewrite !app_nil_r. repeat split; (done || lia). }
  clearbody w3.
  assert (E4 : ∃ new, Forall (freshCoin spawnX platformY) new ∧ (length new <= 1)%nat ∧
                 coinsRef (spawnCoin random spawnX platformY w3) = coinsRef w3 ++ new ∧
                 (bricksRef (spawnCoin random spawnX platformY w3),
                  brickStore (spawnCoin random spawnX platformY w3),
                  enemiesRef (spawnCoin random spawnX platformY w3),
                  enemyStore (spawnCoin random spawnX platformY w3),
                  powerUpsRef (spawnCoin random spawnX platformY w3),
                  powerUpStore (spawnCoin random spawnX platformY w3))
                 = (bricksRef w3, brickStore w3, enemiesRef w3, enemyStore w3,
                    powerUpsRef w3, powerUpStore w3)).
  { unfold spawnCoin, Math_random. simpl.
    pose proof (random_range (S (drawn w3))) as R.
    destruct (Qgtb (random (drawn w3)) 0.2); simpl.
    - eexists [_]. split; [| split; [simpl; lia | repeat split; reflexivity]].
      constructor; [| constructor]. unfold freshCoin. simpl.
      split; [done |]. split; [lra | ring].
    - exists []. simpl. rewrite !app_nil_r. repeat split; (done || lia). }
  generalize dependent (spawnCoin random spawnX platformY w3). intros w4 E4.
  destruct E2 as (newB & HB & LB & B1 & B2 & B3).
  destruct E3 as (newE & HE & LE & N1 & N2 & N3).
  destruct E4 as (newC & HC & LC & C1 & C2).
  injection E1 as P1 P2 P3 P4 P5 P6 P7.
  injection B3 as Q1 Q2 Q3 Q4 Q5.
  injection N3 as R1 R2 R3 R4 R5.
  injection C2 as S1 S2 S3 S4 S5 S6.
  split; [| split; [| split; [| split]]].
  - exists newB. split; [congruence |]. split; [| done]. congruence.
  - exists newE. split; [congruence |]. split; [| done]. congruence.
  - exists newC. split; [congruence | done].
  - congruence.
  - congruence.
Qed.

End Group.

Lemma generated_platform_geometry_witness :
  let random := λ _ : nat, 0.5 in
  (∀ n, 0 <= random n < 1) ∧
  Platform.height (nextPlatform random startingGround initialWorld) = 20.
Proof.
  intros random.
  assert (H : ∀ n, 0 <= random n < 1) by (intros n; split; vm_compute; [discriminate | reflexivity]).
  exact (conj H (proj1 (proj2 (proj2 (proj2
           (generated_platform_geometry random H startingGround initialWorld)))))).
Defined.

Lemma generated_group_contents_witness :
  let random := λ _ : nat, 0.5 in
  (∀ n, 0 <= random n < 1) ∧
  powerUpsRef (spawnGroup random startingGround initialWorld) = powerUpsRef initialWorld.
Proof.
  intros random.
  assert (H : ∀ n, 0 <= random n < 1) by (intros n; split; vm_compute; [discriminate | reflexivity]).
  exact (conj H (proj1 (proj2 (proj2 (proj2
           (generated_group_contents random H startingGround initialWorld)))))).
Defined.

(** ** Coins *)

Lemma collectCoin_at (w : World) (seen rest : list Coin.t) (coin : Coin.t) :
  coinsRef w = seen ++ coin :: rest →
  let w' := collectCoin w (length seen) in
  coinsRef w' = (seen ++ [pocket (playerRef w) coin]) ++ rest ∧
  score w' = (score w + if pocketed (playerRef w) coin then 50 else 0)%Z ∧
  playerRef w' = playerRef w.
Proof.
  intros E.
  assert (Hc : collectCoin w (length seen) =
            if pocketed (playerRef w) coin
            then set_score (score w + 50)%Z
                   (set_coinsRef (seen ++ Coin.set_collected true coin :: rest) w)
            else w).
  { unfold collectCoin, pocketed. rewrite E, list_lookup_middle by reflexivity.
    destruct (_ && _); [| reflexivity].
    by rewrite insert_app_r_alt, Nat.sub_diag by reflexivity. }
  cbv zeta. rewrite Hc. unfold pocket.
  destruct (pocketed (playerRef w) coin); simpl; rewrite <- app_assoc; simpl.
  - split; [reflexivity | split; reflexivity].
  - split; [exact E | split; [lia | reflexivity]].
Qed.

Lemma collectCoins_from (rest seen : list Coin.t) (w : World) :
  coinsRef w = seen ++ rest →
  let w' := foldl collectCoin w (seq (length seen) (length rest)) in
  coinsRef w' = seen ++ (pocket (playerRef w) <$> rest) ∧
  score w' = (score w + 50 * Z.of_nat (length (List.filter (pocketed (playerRef w)) rest)))%Z.
Proof.
  revert seen w. induction rest as [| coin rest IH]; intros seen w E; simpl.
  - rewrite app_nil_r in E |- *. split; [exact E | lia].
  - destruct (collectCoin_at w seen rest coin E) as (E1 & E2 & E3).
    specialize (IH (seen ++ [pocket (playerRef w) coin]) (collectCoin w (length seen)) E1).
    rewrite length_app, Nat.add_1_r in IH. simpl in IH. destruct IH as [I1 I2].
    rewrite E3 in I1, I2. rewrite I1, I2, E2, <- app_assoc. simpl. split; [done |].
    destruct (pocketed (playerRef w) coin); simpl; lia.
Qed.

(** With no coin to take the loop leaves the world as it is. *)
Lemma collectCoins_nothing (w : World) :
  Forall (λ c, pocketed (playerRef w) c = false) (coinsRef w) → collectCoins w = w.
Proof.
  intros Hnone. unfold collectCoins.
  apply (foldl_kept (λ v, v = w)); [done |].
  intros v i ->. unfold collectCoin.
  destruct (coinsRef w !! i) as [coin |] eqn:E; [| done].
  rewrite Forall_forall in Hnone.
  specialize (Hnone coin (list_elem_of_lookup_2 _ _ _ E)).
  unfold pocketed in Hnone. by rewrite Hnone.
Qed.

Lemma pocket_twice (player : GameObject.t) (coin : Coin.t) :
  pocketed player (pocket player coin) = false.
Proof.
  unfold pocket. destruct (pocketed player coin) eqn:E; [| done].
  unfold pocketed. done.
Qed.

(** X16. The coin loop marks exactly the uncollected coins the player
    overlaps and pays 50 for each of them, leaving order and the other coins
    alone; a coin is paid once: running the loop again changes nothing. *)
Theorem coins_paid_once (w : World) :
  let player := playerRef w in
  coinsRef (collectCoins w) = pocket player <$> coinsRef w ∧
  score (collectCoins w)
  = (score w + 50 * Z.of_nat (length (List.filter (pocketed player) (coinsRef w))))%Z ∧
  collectCoins (collectCoins w) = collectCoins w.
Proof.
  intros player.
  destruct (collectCoins_from (coinsRef w) [] w eq_refl) as [E1 E2].
  simpl in E1, E2. fold (collectCoins w) in E1, E2. fold player in E1, E2.
  split; [exact E1 |]. split; [exact E2 |].
  apply collectCoins_nothing. rewrite collectCoins_player, E1. fold player.
  apply Forall_forall. intros c (c0 & -> & _)%list_elem_of_fmap. apply pocket_twice.
Qed.

(** ** Cleanup, again *)

Lemma List_filter_twice_ext {A : Type} (keep keep' : A → bool) (l : list A) :
  (∀ a, keep' a = keep a) →
  List.filter keep' (List.filter keep l) = List.filter keep l.
Proof.
  intros Hext. induction l as [| a l IH]; simpl; [done |].
  destruct (keep a) eqn:E; simpl; [| done]. by rewrite Hext, E, IH.
Qed.

Lemma World_ext (a b : World) :
  gameState a = gameState b → score a = score b → cameraX a = cameraX b →
  gameSpeed a = gameSpeed b → powerUpActive a = powerUpActive b → playerRef a = playerRef b →
  platformsRef a = platformsRef b → bricksRef a = bricksRef b → enemiesRef a = enemiesRef b →
  coinsRef a = coinsRef b → powerUpsRef a = powerUpsRef b → keysRef a = keysRef b →
  brickStore a = brickStore b → enemyStore a = enemyStore b → powerUpStore a = powerUpStore b →
  timers a = timers b → drawn a = drawn b → loop a = loop b →
  a = b.
Proof. destruct a, b. simpl. by intros -> -> -> -> -> -> -> -> -> -> -> -> -> -> -> -> -> ->. Qed.

(** X17. The cleanup only removes: each of the five arrays it leaves is a
    sublist, in the old order, of the array it found, the stored objects are
    untouched, and cleaning up again at the same camera position removes
    nothing more. *)
Theorem cleanup_only_removes (offset : Q) (w : World) :
  let w' := removeOld offset w in
  platformsRef w' `sublist_of` platformsRef w ∧
  bricksRef w' `sublist_of` bricksRef w ∧
  enemiesRef w' `sublist_of` enemiesRef w ∧
  coinsRef w' `sublist_of` coinsRef w ∧
  powerUpsRef w' `sublist_of` powerUpsRef w ∧
  (brickStore w', enemyStore w', powerUpStore w') = (brickStore w, enemyStore w, powerUpStore w) ∧
  removeOld offset w' = w'.
Proof.
  intros w'.
  destruct (removeOld_arrays offset w) as (E1 & E2 & E3 & E4 & E5). fold w' in E1, E2, E3, E4, E5.
  rewrite E1, E2, E3, E4, E5.
  repeat (split; [apply List_filter_sublist |]). split; [reflexivity |].
  destruct (removeOld_arrays offset w') as (F1 & F2 & F3 & F4 & F5).
  apply World_ext; try reflexivity.
  - rewrite F1, E1. by apply List_filter_twice_ext.
  - rewrite F2, E2. by apply List_filter_twice_ext.
  - rewrite F3, E3. by apply List_filter_twice_ext.
  - rewrite F4, E4. by apply List_filter_twice_ext.
  - rewrite F5, E5. by apply List_filter_twice_ext.
Qed.

(** ** Stomping a hazard *)

Lemma indexOf_Some (l : list ref) (r : ref) :
  r ∈ l → ∃ i, indexOf l r = Some i ∧ l !! i = Some r.
Proof.
  induction l as [| r' l IH]; [by intros ?%elem_of_nil |].
  intros Hin. simpl. destruct (decide (r' = r)) as [-> | Hne]; [by exists 0%nat |].
  apply elem_of_cons in Hin as [-> | Hin]; [done |].
  destruct (IH Hin) as (i & -> & Hi). by exists (S i).
Qed.

Lemma indexOf_first (l : list ref) (r : ref) (i : nat) :
  indexOf l r = Some i → NoDup l → r ∉ delete i l.
Proof.
  revert i. induction l as [| r' l IH]; intros i; simpl; [done |].
  destruct (decide (r' = r)) as [-> | Hne].
  - intros [= <-] Hnd. simpl. by apply NoDup_cons in Hnd as [? _].
  - destruct (indexOf l r) as [j |] eqn:E; [| done]. simpl. intros [= <-] Hnd.
    apply NoDup_cons in Hnd as [_ Hnd]. simpl.
    apply not_elem_of_cons. split; [done | by apply IH].
Qed.

(** The loop body when the player comes down on the hazard. *)
Lemma stepEnemy_stomp (env : Closure) (f : Frame) (r : ref) (enemy : GameObject.t) (index : nat) :
  enemyStore (world f) !! r = Some enemy →
  indexOf (enemies f) r = Some index →
  let player := playerRef (world f) in
  let moved := patrol (platforms f) enemy in
  overlaps (GameObject.x player) (GameObject.y player)
           (GameObject.width player) (GameObject.height player)
           (GameObject.x moved) (GameObject.y moved)
           (GameObject.width moved) (GameObject.height moved) = true →
  0 < GameObject.velocityY player →
  GameObject.y player < GameObject.y moved →
  stepEnemy env f r =
    let w := set_enemyStore (<[r := moved]> (enemyStore (world f))) (world f) in
    let f1 := spliceEnemy index (with_world w f) in
    let f2 := with_world (set_score (score (world f1) + 100)%Z (world f1)) f1 in
    with_world (set_playerRef (GameObject.set_velocityY (JUMP_FORCE / 2) (playerRef (world f2)))
                  (world f2)) f2.
Proof.
  intros Hr Hi player moved Hover Hv Hy.
  unfold stepEnemy. rewrite Hr. fold moved. simpl. fold player. rewrite Hover.
  apply Qgtb_gt in Hv. apply Qltb_lt in Hy. rewrite Hv, Hy. simpl. by rewrite Hi.
Qed.

(** X18. When the player comes down on a hazard of the array the loop runs
    over, the score rises by 100, the player rebounds with half the jump
    force, the run state is left alone and the hazard leaves that array.
    It leaves [enemiesRef] too unless the generator has rebound the ref
    earlier in the tick: then the defeated hazard stays in the world. *)
Theorem stomp_defeats_hazard (env : Closure) (f : Frame) (r : ref) (enemy : GameObject.t) :
  enemyStore (world f) !! r = Some enemy →
  r ∈ enemies f →
  let player := playerRef (world f) in
  let moved := patrol (platforms f) enemy in
  overlaps (GameObject.x player) (GameObject.y player)
           (GameObject.width player) (GameObject.height player)
           (GameObject.x moved) (GameObject.y moved)
           (GameObject.width moved) (GameObject.height moved) = true →
  0 < GameObject.velocityY player →
  GameObject.y player < GameObject.y moved →
  let f' := stepEnemy env f r in
  score (world f') = (score (world f) + 100)%Z ∧
  GameObject.velocityY (playerRef (world f')) = JUMP_FORCE / 2 ∧
  gameState (world f') = gameState (world f) ∧
  (∃ index, enemies f !! index = Some r ∧ enemies f' = delete index (enemies f) ∧
            enemiesRef (world f') = if rebound f then enemiesRef (world f)
                                    else delete index (enemiesRef (world f))) ∧
  (NoDup (enemies f) → r ∉ enemies f').
Proof.
  intros Hr Hin player moved Hover Hv Hy.
  destruct (indexOf_Some (enemies f) r Hin) as (index & Hi & Hl).
  pose proof (stepEnemy_stomp env f r enemy index Hr Hi Hover Hv Hy) as Hstep.
  cbv zeta. rewrite Hstep. clear Hstep. unfold spliceEnemy. simpl.
  split; [by destruct (rebound f) |]. split; [done |]. split; [by destruct (rebound f) |].
  split.
  - exists index. split; [done |]. split; [done |]. by destruct (rebound f).
  - intros Hnd. by apply indexOf_first.
Qed.

Lemma stomp_defeats_hazard_witness :
  let f := mkFrame
    (set_enemyStore [GameObject.mk 100 320 25 25 0 0 true]
       (set_enemiesRef [0%nat]
          (set_playerRef (GameObject.mk 100 300 30 30 0 4 false) initialWorld)))
    [Platform.mk 0 340 300 20] [0%nat] [] [] true in
  score (world (stepEnemy (mkClosure Active.none 0) f 0%nat)) = 100%Z ∧
  enemies (stepEnemy (mkClosure Active.none 0) f 0%nat) = [] ∧
  enemiesRef (world (stepEnemy (mkClosure Active.none 0) f 0%nat)) = [0%nat].
Proof.
  intros f.
  assert (H1 : enemyStore (world f) !! 0%nat = Some (GameObject.mk 100 320 25 25 0 0 true))
    by reflexivity.
  assert (H2 : 0%nat ∈ enemies f) by (simpl; left).
  assert (H3 : overlaps (GameObject.x (playerRef (world f))) (GameObject.y (playerRef (world f)))
           (GameObject.width (playerRef (world f))) (GameObject.height (playerRef (world f)))
           (GameObject.x (patrol (platforms f) (GameObject.mk 100 320 25 25 0 0 true)))
           (GameObject.y (patrol (platforms f) (GameObject.mk 100 320 25 25 0 0 true)))
           (GameObject.width (patrol (platforms f) (GameObject.mk 100 320 25 25 0 0 true)))
           (GameObject.height (patrol (platforms f) (GameObject.mk 100 320 25 25 0 0 true)))
           = true) by (vm_compute; reflexivity).
  assert (H4 : 0 < GameObject.velocityY (playerRef (world f))) by (vm_compute; reflexivity).
  assert (H5 : GameObject.y (playerRef (world f))
               < GameObject.y (patrol (platforms f) (GameObject.mk 100 320 25 25 0 0 true)))
    by (vm_compute; reflexivity).
  destruct (stomp_defeats_hazard (mkClosure Active.none 0) f 0%nat _ H1 H2 H3 H4 H5)
    as (E1 & _ & _ & (index & Hi & E2 & E3) & _).
  split; [exact E1 |].
  destruct index as [| index]; [| vm_compute in Hi; discriminate Hi].
  split; [exact E2 | exact E3].
Defined.

(** ** Falling boosts *)

Lemma landPowerUp_clear (powerUp : PowerUp.t) (p : Platform.t) :
  clearOf powerUp p → landPowerUp powerUp p = powerUp.
Proof.
  intros H. unfold landPowerUp.
  destruct (overlaps _ _ _ _ _ _ _ _) eqn:E; [| done].
  apply overlaps_spec in E. destruct H; lra.
Qed.

Lemma fall_clear (powerUp : PowerUp.t) (platforms : list Platform.t) :
  Forall (clearOf powerUp) platforms → foldl landPowerUp powerUp platforms = powerUp.
Proof.
  induction 1 as [| p ps Hp _ IH]; simpl; [done |].
  by rewrite landPowerUp_clear.
Qed.

(** X19. A boost falls with half the gravity; among spaced platforms, when
    its fall brings it onto a platform from above it comes to rest exactly
    on the platform's top with no vertical velocity, and no other platform
    moves it; its x, size and kind never change. *)
Theorem boost_rests_on_platform (platforms : list Platform.t) (powerUp : PowerUp.t)
    (p : Platform.t) :
  spaced platforms →
  PowerUp.width powerUp <= 100 →
  p ∈ platforms →
  let moving := dropped powerUp in
  overlaps (PowerUp.x moving) (PowerUp.y moving) (PowerUp.width moving) (PowerUp.height moving)
           (Platform.x p) (Platform.y p) (Platform.width p) (Platform.height p) = true →
  0 < PowerUp.velocityY moving →
  PowerUp.y moving < Platform.y p →
  PowerUp.velocityY moving = PowerUp.velocityY powerUp + 0.8 * 0.5 ∧
  fallen platforms powerUp
  = PowerUp.mk (PowerUp.x powerUp) (Platform.y p - PowerUp.height powerUp)
      (PowerUp.width powerUp) (PowerUp.height powerUp) (PowerUp.type powerUp)
      (PowerUp.collected powerUp) 0.
Proof.
  intros [Hs Hw] Hn Hin moving Hon Hv Hy. split; [reflexivity |].
  apply list_elem_of_split in Hin as (before & after & ->).
  pose proof Hon as Hrect. apply overlaps_spec in Hrect. destruct Hrect as (Hx1 & Hx2 & _).
  apply StronglySorted_app in Hs as (Hba & _ & Hpa).
  apply StronglySorted_cons in Hpa as [Hpa _].
  assert (Hb : Forall (clearOf moving) before).
  { apply Forall_forall. intros q Hq. left.
    assert (Hp : p ∈ p :: after) by (by left).
    specialize (Hba q p Hq Hp). unfold gap in Hba. simpl in *. lra. }
  assert (Ha : Forall (clearOf moving) after).
  { apply Forall_forall. intros q Hq. right. rewrite Forall_forall in Hpa.
    specialize (Hpa q Hq). unfold gap in Hpa. simpl in *. lra. }
  change (fallen (before ++ p :: after) powerUp)
    with (foldl landPowerUp moving (before ++ p :: after)).
  rewrite foldl_app. simpl. rewrite (fall_clear moving before Hb).
  assert (Hland : landPowerUp moving p
                  = PowerUp.mk (PowerUp.x powerUp) (Platform.y p - PowerUp.height powerUp)
                      (PowerUp.width powerUp) (PowerUp.height powerUp) (PowerUp.type powerUp)
                      (PowerUp.collected powerUp) 0).
  { unfold landPowerUp. rewrite Hon. apply Qgtb_gt in Hv. apply Qltb_lt in Hy.
    by rewrite Hv, Hy. }
  rewrite Hland. apply fall_clear. exact Ha.
Qed.

Lemma boost_rests_on_platform_witness :
  let powerUp := PowerUp.mk 50 379 20 20 Kind.speed false 2 in
  PowerUp.y (fallen [startingGround] powerUp) = Platform.y startingGround - 20 ∧
  PowerUp.velocityY (fallen [startingGround] powerUp) = 0.
Proof.
  intros powerUp.
  assert (H1 : spaced [startingGround]).
  { split; repeat constructor. vm_compute. discriminate. }
  assert (H2 : PowerUp.width powerUp <= 100) by (vm_compute; discriminate).
  assert (H3 : startingGround ∈ [startingGround]) by left.
  assert (H4 : overlaps (PowerUp.x (dropped powerUp)) (PowerUp.y (dropped powerUp))
                 (PowerUp.width (dropped powerUp)) (PowerUp.height (dropped powerUp))
                 (Platform.x startingGround) (Platform.y startingGround)
                 (Platform.width startingGround) (Platform.height startingGround) = true)
    by (vm_compute; reflexivity).
  assert (H5 : 0 < PowerUp.velocityY (dropped powerUp)) by (vm_compute; reflexivity).
  assert (H6 : PowerUp.y (dropped powerUp) < Platform.y startingGround)
    by (vm_compute; reflexivity).
  destruct (boost_rests_on_platform [startingGround] powerUp startingGround H1 H2 H3 H4 H5 H6)
    as [_ E].
  rewrite E. split; reflexivity.
Defined.

(** ** The generator keeps up with the player *)

Ltac track_cases step :=
  unfold step; repeat case_match; simpl; unfold sameTrack; simpl; repeat split; done.

Lemma sameTrack_refl (w : World) : sameTrack w w.
Proof. by split. Qed.

Lemma sameTrack_trans (w1 w2 w3 : World) : sameTrack w1 w2 → sameTrack w2 w3 → sameTrack w1 w3.
Proof. unfold sameTrack. intros [? ?] [? ?]. split; congruence. Qed.

Lemma hitBrick_track (f : Frame) (r : ref) : sameTrack (world f) (world (hitBrick f r)).
Proof. track_cases hitBrick. Qed.

Lemma stepPowerUp_track (f : Frame) (r : ref) : sameTrack (world f) (world (stepPowerUp f r)).
Proof. track_cases stepPowerUp. Qed.

Lemma stepEnemy_track (env : Closure) (f : Frame) (r : ref) :
  sameTrack (world f) (world (stepEnemy env f r)).
Proof. unfold stepEnemy, spliceEnemy. track_cases stepEnemy. Qed.

Lemma enemyLoop_track (env : Closure) (passes i : nat) (f : Frame) :
  sameTrack (world f) (world (enemyLoop env passes i f)).
Proof.
  revert i f. induction passes as [| n IH]; intros i f; simpl; [apply sameTrack_refl |].
  destruct (enemies f !! i) as [r |]; [| apply sameTrack_refl].
  eapply sameTrack_trans; [apply stepEnemy_track | apply IH].
Qed.

Lemma brickCollisions_track (f : Frame) : sameTrack (world f) (world (brickCollisions f)).
Proof.
  unfold brickCollisions.
  apply (foldl_kept (λ f', sameTrack (world f) (world f'))); [apply sameTrack_refl |].
  intros a r Ha. eapply sameTrack_trans; [exact Ha | apply hitBrick_track].
Qed.

Lemma updatePowerUps_track (f : Frame) : sameTrack (world f) (world (updatePowerUps f)).
Proof.
  unfold updatePowerUps.
  apply (foldl_kept (λ f', sameTrack (world f) (world f'))); [apply sameTrack_refl |].
  intros a r Ha. eapply sameTrack_trans; [exact Ha | apply stepPowerUp_track].
Qed.

(** After the platform loop nothing in the collision loops moves the player
    sideways. *)
Lemma resolve_track (env : Closure) (f : Frame) :
  sameTrack (world (platformCollisions f)) (world (resolve env f)).
Proof.
  unfold resolve, updateEnemies.
  eapply sameTrack_trans; [apply brickCollisions_track |].
  eapply sameTrack_trans; [apply updatePowerUps_track |].
  apply enemyLoop_track.
Qed.

Lemma hitPlatform_within (limit : Q) (player : GameObject.t) (p : Platform.t) :
  farEdge p <= limit → 0 <= Platform.width p →
  within limit player → within limit (hitPlatform player p).
Proof.
  unfold within, farEdge. intros Hp Hw (Hx & Hv & Hwd).
  unfold hitPlatform. repeat case_match; simpl; rewrite ?Hwd; repeat split; try done; try lra.
Qed.

Lemma platformSweep_within (limit : Q) (player : GameObject.t) (platforms : list Platform.t) :
  Forall (λ p, farEdge p <= limit ∧ 0 <= Platform.width p) platforms →
  within limit player → within limit (platformSweep player platforms).
Proof.
  intros Hps Hp. unfold platformSweep.
  assert (H0 : within limit (GameObject.set_onGround false player)) by done.
  revert H0. generalize (GameObject.set_onGround false player).
  induction Hps as [| p ps [Hp1 Hp2] _ IH]; intros q Hq; simpl; [done |].
  apply IH. by apply hitPlatform_within.
Qed.

(** No platform of a spaced array reaches further than the last one. *)
Lemma last_reaches_furthest (platforms : list Platform.t) (lastPlatform : Platform.t) :
  spaced platforms → last platforms = Some lastPlatform →
  Forall (λ p, farEdge p <= farEdge lastPlatform ∧ 0 <= Platform.width p) platforms.
Proof.
  intros [Hs Hw] Hlast. apply Forall_forall. intros p Hp.
  assert (Hpw : 0 <= Platform.width p) by (rewrite Forall_forall in Hw; by apply Hw).
  split; [| done].
  apply last_Some in Hlast as (front & ->).
  assert (Hlw : 0 <= Platform.width lastPlatform).
  { rewrite Forall_forall in Hw. apply Hw, elem_of_app. right. by left. }
  apply elem_of_app in Hp as [Hp | Hp].
  - apply StronglySorted_app in Hs as (Hfl & _ & _).
    assert (Hin : lastPlatform ∈ [lastPlatform]) by (by left).
    specialize (Hfl p lastPlatform Hp Hin). unfold gap in Hfl. unfold farEdge. lra.
  - apply list_elem_of_singleton in Hp as ->. lra.
Qed.

Lemma last_filter_snoc {A : Type} (keep : A → bool) (l : list A) (a : A) :
  keep a = true → last (List.filter keep (l ++ [a])) = Some a.
Proof.
  intros Ha. rewrite List.filter_app. simpl. rewrite Ha. apply last_snoc.
Qed.

Lemma handleInput_pace (env : Closure) (w : World) :
  -7.5 <= GameObject.velocityX (playerRef w) <= 7.5 →
  GameObject.x (playerRef (handleInput env w)) = GameObject.x (playerRef w) ∧
  -7.5 <= GameObject.velocityX (playerRef (handleInput env w)) <= 7.5.
Proof.
  intros Hv. unfold handleInput, MOVE_SPEED. repeat case_match; simpl; (split; [done | lra]).
Qed.

Lemma integrate_pace (w : World) :
  GameObject.x (playerRef (integrate w))
  = GameObject.x (playerRef w) + GameObject.velocityX (playerRef w) ∧
  GameObject.velocityX (playerRef (integrate w)) = GameObject.velocityX (playerRef w).
Proof. done. Qed.

Section Supply.

Variable random : nat → Q.
Hypothesis random_nonneg : ∀ n, 0 <= random n.

(** What lines 239-294 leave behind for the loops. *)
Lemma approach_supplied (env : Closure) (w : World) (lastPlatform : Platform.t) :
  wellFormed w →
  last (platformsRef w) = Some lastPlatform →
  200 <= farEdge lastPlatform →
  cameraX w + 192.5 <= farEdge lastPlatform →
  seen_cameraX env + 192.5 <= farEdge lastPlatform →
  within (farEdge lastPlatform + 200) (playerRef w) →
  ∃ newest,
    last (platformsRef (world (approach random env w))) = Some newest ∧
    last (platforms (approach random env w)) = Some newest ∧
    farEdge lastPlatform <= farEdge newest ∧
    cameraX (world (approach random env w)) + 192.5 <= farEdge newest ∧
    within (farEdge newest + 200) (playerRef (world (approach random env w))).
Proof.
  intros [Hs Hwd] Hlast H200 Hcam Hseen (Hx & Hv & _).
  unfold approach.
  destruct (handleInput_pace env w Hv) as [Ex Hv'].
  destruct (integrate_pace (handleInput env w)) as [Ex' Ev'].
  destruct (handleInput_calm env w) as [(Ec1 & _ & Ep1 & Ew1 & _) _].
  destruct (integrate_calm (handleInput env w)) as [(Ec2 & _ & Ep2 & Ew2 & _) _].
  assert (Hreach : GameObject.x (playerRef (integrate (handleInput env w)))
                   <= farEdge lastPlatform + 207.5) by (rewrite Ex', Ex; lra).
  rewrite <- Ev' in Hv'.
  rewrite <- Ep1, <- Ep2 in Hlast, Hs. rewrite <- Ec1, <- Ec2 in Hcam.
  rewrite <- Ew1, <- Ew2 in Hwd.
  revert Hreach Hv' Hlast Hs Hcam Hwd. clear Ex' Ev' Ec1 Ec2 Ep1 Ep2 Ew1 Ew2 Ex.
  generalize (integrate (handleInput env w)). intros v Hreach Hvv Hlast Hs Hcam Hwd.
  assert (Hlw : 0 <= Platform.width lastPlatform).
  { destruct Hs as [_ Hw]. rewrite Forall_forall in Hw. apply Hw.
    apply last_Some in Hlast as (front & ->). apply elem_of_app. right. by left. }
  assert (Hcamera : ∀ u limit, playerRef u = playerRef v → cameraX u = cameraX v →
            farEdge lastPlatform <= limit →
            cameraX (followPlayer u) + 192.5 <= limit).
  { intros u limit Ep Ec Hl. unfold followPlayer. simpl. rewrite Ep, Ec.
    assert (Ht : clampedCameraX (playerRef v) + 192.5 <= limit).
    { unfold clampedCameraX, Math_max, Math_min.
      assert (Eh : CANVAS_WIDTH / 2 == 400) by reflexivity.
      revert Eh. generalize (CANVAS_WIDTH / 2). intros half Eh.
      unfold CANVAS_WIDTH, FINISH_LINE. repeat case_match; compare_hyps; lra. }
    destruct (cameraSpeed_cases (playerRef v)) as [-> | [-> | ->]]; lra. }
  unfold spawnIfNeeded.
  destruct (needsSpawn v) as [lp |] eqn:Hn.
  - assert (lp = lastPlatform) as ->.
    { unfold needsSpawn in Hn. rewrite Hlast in Hn. destruct (Qgtb _ _); congruence. }
    set (newest := nextPlatform random lastPlatform v).
    assert (Hfar : farEdge lastPlatform + 180 <= farEdge newest).
    { unfold newest, nextPlatform, farEdge. simpl.
      pose proof (random_nonneg (drawn v)). pose proof (random_nonneg (S (S (drawn v)))).
      lra. }
    destruct (spawnGroup_grows random lastPlatform v) as (E & _).
    injection E as _ _ Ec _ _ Ep _ _ _ _ _.
    exists newest. simpl. rewrite spawnGroup_platforms. fold newest.
    split; [| split; [apply last_snoc | split; [lra | split]]].
    + apply last_filter_snoc. compare_goal. fold (farEdge newest). lra.
    + apply Hcamera; [done | done | lra].
    + rewrite Ep. repeat split; [lra | lra | lra | done].
  - exists lastPlatform. simpl.
    assert (Hback : GameObject.x (playerRef v) <= Platform.x lastPlatform - 200).
    { unfold needsSpawn in Hn. rewrite Hlast in Hn.
      destruct (Qgtb _ _) eqn:E; [done |]. by apply Qgtb_le in E. }
    split; [done | split; [done | split; [lra | split]]].
    + apply Hcamera; [done | done | lra].
    + unfold farEdge. repeat split; [lra | lra | lra | done].
Qed.

Lemma updateGame_supplied (w : World) :
  wellFormed w → supplied w → supplied (updateGame random (loop w) w).
Proof.
  intros Hw (lastPlatform & Hlast & H200 & Hcam & Hseen & Hp).
  destruct (approach_supplied (loop w) w lastPlatform Hw Hlast H200 Hcam Hseen Hp)
    as (newest & Hl1 & Hl2 & Hfar & Hc & Hin).
  destruct Hw as [Hs _]. apply (approach_platforms random random_nonneg (loop w)) in Hs as [Hs _].
  assert (Eloop : loop (world (approach random (loop w) w)) = loop w).
  { unfold approach. simpl.
    destruct (spawnIfNeeded_kept random (loop w) (integrate (handleInput (loop w) w)))
      as (_ & _ & ->). done. }
  revert Hl1 Hl2 Hc Hin Hs Eloop. unfold updateGame.
  generalize (approach random (loop w) w). intros f Hl1 Hl2 Hc Hin Hs Eloop.
  destruct (settle_calm (world (resolve (loop w) f))) as [(Ec1 & _ & Ep1 & _ & El1) _].
  destruct (resolve_quiet (loop w) f) as (Ec2 & _ & Ep2 & Ew2 & El2).
  destruct (resolve_track (loop w) f) as [Tx Tv].
  exists newest. rewrite Ec1, Ec2, Ep1, Ep2, El1, El2, Eloop.
  split; [done | split; [lra | split; [done | split; [lra |]]]].
  assert (Hswept : within (farEdge newest + 200)
                     (platformSweep (playerRef (world f)) (platforms f))).
  { apply platformSweep_within; [| done].
    eapply Forall_impl; [by apply last_reaches_furthest |].
    simpl. intros p [? ?]. split; [lra | done]. }
  destruct Hswept as (Sx & Sv & Sw).
  change (playerRef (world (platformCollisions f)))
    with (platformSweep (playerRef (world f)) (platforms f)) in Tx, Tv.
  revert Tx Tv Ew2. generalize (world (resolve (loop w) f)). intros u Tx Tv Ew2.
  unfold settle, updateSpeed, keepInBounds, within. simpl.
  rewrite !checkWin_player, !collectCoins_player.
  destruct Hin as (_ & _ & Hwidth).
  repeat case_match; simpl; compare_hyps; rewrite ?Tx, ?Tv, ?Ew2; repeat split; try lra; done.
Qed.

Lemma refresh_supplied (w : World) : supplied w → supplied (refresh w).
Proof.
  intros (lp & H1 & H2 & H3 & H4 & H5). exists lp.
  exact (conj H1 (conj H2 (conj H3 (conj H3 H5)))).
Qed.

Lemma gameLoop_supplied (w : World) :
  wellFormed w ∧ supplied w → wellFormed (gameLoop random w) ∧ supplied (gameLoop random w).
Proof.
  intros [Hw Hsup].
  split; [by apply (handle_wellFormed random random_nonneg AnimationFrame) |].
  unfold gameLoop. case_match; [| done]. by apply updateGame_supplied.
Qed.

Lemma dispatch_supplied (e : Event) (w : World) :
  wellFormed w ∧ supplied w →
  wellFormed (dispatch random e w) ∧ supplied (dispatch random e w).
Proof.
  intros [Hw Hsup].
  assert (Hwf : wellFormed (handle random e w))
    by (by apply (handle_wellFormed random random_nonneg)).
  assert (Hstate : ∀ s, supplied (set_gameState s w)).
  { intros s. destruct Hsup as (lp & ?). by exists lp. }
  assert (Hkept : supplied (handle random e w) →
            wellFormed (dispatch random e w) ∧ supplied (dispatch random e w)).
  { intros Hs. unfold dispatch.
    apply (rerender_kept random (λ v, wellFormed v ∧ supplied v)).
    - intros v [? ?]. split; [done | by apply refresh_supplied].
    - apply gameLoop_supplied.
    - done. }
  assert (Hreset : gameState w ≠ playing →
            wellFormed (rerender random w (resetGame w)) ∧
            supplied (rerender random w (resetGame w))).
  { intros Hne.
    apply (rerender_kept_fresh random (λ v, wellFormed v ∧ supplied v)).
    - intros v [? ?]. split; [done | by apply refresh_supplied].
    - apply gameLoop_supplied.
    - simpl. intros E. by rewrite <- E in Hne.
    - split.
      + split; [| done]. split; simpl; repeat constructor. done.
      + exists (Platform.mk 0 400 200 40). unfold farEdge, within. simpl.
        repeat split; try lra; done. }
  destruct e as [key | key | | | |].
  - apply Hkept. simpl. unfold handleKeyDown. case_match; [apply Hstate |].
    destruct Hsup as (lp & ?). by exists lp.
  - apply Hkept. simpl. destruct Hsup as (lp & ?). by exists lp.
  - apply Hkept. by apply gameLoop_supplied.
  - apply Hkept. simpl. unfold expire. case_match; [done |].
    destruct Hsup as (lp & ?). by exists lp.
  - unfold dispatch. simpl.
    destruct (decide (gameState w = gameOver)) as [E |]; [apply Hreset; congruence |].
    destruct (decide (gameState w = won)) as [E |]; [apply Hreset; congruence |].
    assert (Hsame : supplied (handle random ClickPlayAgain w)).
    { simpl. by rewrite !decide_False by done. }
    apply Hkept in Hsame. unfold dispatch in Hsame. simpl in Hsame.
    by rewrite !decide_False in Hsame by done.
  - apply Hkept. simpl. case_match; [apply Hstate | done].
Qed.

Lemma reachable_supplied (w : World) : reachable random w → supplied w.
Proof.
  intros [es ->].
  assert (H : wellFormed (run random es (mounted random)) ∧
              supplied (run random es (mounted random))); [| by destruct H].
  induction es as [| e es IH] using rev_ind.
  - apply (setUp_kept random (λ v, wellFormed v ∧ supplied v)).
    + intros v [? ?]. split; [done | by apply refresh_supplied].
    + apply gameLoop_supplied.
    + split.
      * split; [| done]. split; simpl; repeat constructor. done.
      * exists startingGround. unfold farEdge, within. simpl. repeat split; try lra; done.
  - rewrite run_snoc. by apply dispatch_supplied.
Qed.

(** X20. With [Math.random() >= 0], in every state the mounted component
    can reach the platform array is not empty, its last platform ends
    beyond the cleanup line (200 behind the camera, as the state and as the
    frame closure see it), and the player is at most 200 past that
    platform's far edge; so the generator never reads a missing last
    platform, and the cleanup never empties the platform array. *)
Theorem generator_keeps_up (w : World) :
  reachable random w →
  (∃ lastPlatform,
     last (platformsRef w) = Some lastPlatform ∧
     cameraX w - 200 < farEdge lastPlatform ∧
     seen_cameraX (loop w) - 200 < farEdge lastPlatform ∧
     GameObject.x (playerRef w) <= farEdge lastPlatform + 200) ∧
  is_Some (spawnObstacles random (seen_cameraX (loop w)) w) ∧
  (∀ w', spawnObstacles random (seen_cameraX (loop w)) w = Some w' → platformsRef w' ≠ []).
Proof.
  intros Hr. destruct (reachable_supplied w Hr) as (lp & Hlast & H200 & Hc & Hs & Hx & _).
  split; [exists lp; repeat split; [done | lra | lra | done] |].
  unfold spawnObstacles. rewrite Hlast. simpl. split; [by eexists |].
  intros w' [= <-]. destruct (removeOld_arrays (seen_cameraX (loop w)) (spawnGroup random lp w))
    as (-> & _).
  rewrite spawnGroup_platforms.
  assert (Hk : last (List.filter (λ p, Qgtb (Platform.x p + Platform.width p)
                                         (seen_cameraX (loop w) - 200))
                       (platformsRef w ++ [nextPlatform random lp w]))
               = Some (nextPlatform random lp w)).
  { apply last_filter_snoc. compare_goal. unfold nextPlatform, farEdge in *. simpl.
    pose proof (random_nonneg (drawn w)). pose proof (random_nonneg (S (S (drawn w)))). lra. }
  intros E. rewrite E in Hk. done.
Qed.

End Supply.

Lemma generator_keeps_up_witness :
  let w := run (λ _, 0) (replicate 3 AnimationFrame) (mounted (λ _, 0)) in
  is_Some (spawnObstacles (λ _, 0) (seen_cameraX (loop w)) w).
Proof.
  intros w.
  assert (H0 : ∀ n : nat, 0 <= (λ _ : nat, 0) n) by (intros n; simpl; lra).
  assert (Hr : reachable (λ _, 0) w) by (by exists (replicate 3 AnimationFrame)).
  exact (proj1 (proj2 (generator_keeps_up (λ _, 0) H0 w Hr))).
Defined.

(** ** Standing *)

Lemma not_rising_at_rest (player : GameObject.t) :
  GameObject.velocityY player = 0 →
  Qltb (GameObject.velocityY player) 0 = false ∧ Qgtb (GameObject.velocityY player) 0 = false.
Proof. intros ->. split; reflexivity. Qed.

Lemma hitPlatform_standing (all : list Platform.t) (player : GameObject.t) (p : Platform.t) :
  p ∈ all → standing all player → standing all (hitPlatform player p).
Proof.
  intros Hp Hs. unfold hitPlatform.
  destruct (overlapsPlatform player p); [| done].
  destruct (Qgtb (GameObject.velocityY player) 0 && Qltb (GameObject.y player) (Platform.y p)).
  { intros _. split; [done |]. right. by exists p. }
  destruct (Qltb (GameObject.velocityY player) 0 && Qgtb (GameObject.y player) (Platform.y p))
    eqn:E.
  { intros Hg. simpl in Hg. apply andb_true_iff in E as [E _].
    destruct (Hs Hg) as [Hv _]. apply not_rising_at_rest in Hv as [Hv _]. congruence. }
  repeat case_match; done.
Qed.

Lemma sweep_standing (all todo : list Platform.t) (player : GameObject.t) :
  Forall (λ p, p ∈ all) todo → standing all player →
  standing all (foldl hitPlatform player todo).
Proof.
  intros Hin. revert player.
  induction Hin as [| p ps Hp _ IH]; intros q Hq; simpl; [done |].
  apply IH. by apply hitPlatform_standing.
Qed.

Lemma platformSweep_standing (player : GameObject.t) (platforms : list Platform.t) :
  standing platforms (platformSweep player platforms).
Proof.
  unfold platformSweep. apply sweep_standing; [by apply Forall_forall | by intros ?].
Qed.

Lemma hitBrick_standing (all : list Platform.t) (f : Frame) (r : ref) :
  standing all (playerRef (world f)) → standing all (playerRef (world (hitBrick f r))).
Proof.
  intros Hs. unfold hitBrick.
  destruct (brickStore (world f) !! r) as [brick |]; [| done].
  destruct (negb (Brick.broken brick) && _); [| done].
  destruct (Qltb (GameObject.velocityY (playerRef (world f))) 0 && _) eqn:E; [| done].
  apply andb_true_iff in E as [E _].
  assert (Hair : GameObject.onGround (playerRef (world f)) = false).
  { destruct (GameObject.onGround (playerRef (world f))) eqn:Hg; [| done].
    destruct (Hs Hg) as [Hv _]. apply not_rising_at_rest in Hv as [Hv _]. congruence. }
  intros Hg. exfalso. revert Hg.
  destruct (Brick.hasPowerUp brick), (Brick.powerUpType brick) as [[| type] |]; simpl; congruence.
Qed.

Lemma stepPowerUp_player (f : Frame) (r : ref) :
  playerRef (world (stepPowerUp f r)) = playerRef (world f).
Proof. unfold stepPowerUp. by repeat case_match. Qed.

Lemma stepEnemy_standing (env : Closure) (all : list Platform.t) (f : Frame) (r : ref) :
  standing all (playerRef (world f)) → standing all (playerRef (world (stepEnemy env f r))).
Proof.
  intros Hs. unfold stepEnemy.
  destruct (enemyStore (world f) !! r) as [enemy |]; [| done]. simpl.
  destruct (overlaps _ _ _ _ _ _ _ _); [| done].
  destruct (Qgtb (GameObject.velocityY (playerRef (world f))) 0 && _) eqn:E.
  - apply andb_true_iff in E as [E _].
    assert (Hair : GameObject.onGround (playerRef (world f)) = false).
    { destruct (GameObject.onGround (playerRef (world f))) eqn:Hg; [| done].
      destruct (Hs Hg) as [Hv _]. apply not_rising_at_rest in Hv as [_ Hv]. congruence. }
    intros Hg. exfalso. revert Hg. unfold spliceEnemy.
    destruct (indexOf (enemies f) r); simpl; [destruct (rebound f) |]; simpl; congruence.
  - by destruct (negb _).
Qed.

Lemma enemyLoop_standing (env : Closure) (all : list Platform.t) (passes i : nat) (f : Frame) :
  standing all (playerRef (world f)) →
  standing all (playerRef (world (enemyLoop env passes i f))).
Proof.
  revert i f. induction passes as [| n IH]; intros i f Hs; simpl; [done |].
  destruct (enemies f !! i) as [r |]; [| done].
  apply IH. by apply stepEnemy_standing.
Qed.

Lemma brickCollisions_standing (all : list Platform.t) (f : Frame) :
  standing all (playerRef (world f)) → standing all (playerRef (world (brickCollisions f))).
Proof.
  intros Hs. unfold brickCollisions.
  apply (foldl_kept (λ f', standing all (playerRef (world f')))); [done |].
  intros a r Ha. by apply hitBrick_standing.
Qed.

Lemma updatePowerUps_player (f : Frame) :
  playerRef (world (updatePowerUps f)) = playerRef (world f).
Proof.
  unfold updatePowerUps.
  apply (foldl_kept (λ f', playerRef (world f') = playerRef (world f))); [done |].
  intros a r Ha. by rewrite stepPowerUp_player.
Qed.

(** X21. At the end of every tick a grounded player is at rest: its
    vertical velocity is 0 and it stands either on the floor line y = 400
    or exactly on top of one of the platforms the tick's collision loop ran
    over. *)
Theorem grounded_player_stands (random : nat → Q) (env : Closure) (w : World) :
  let after := playerRef (updateGame random env w) in
  GameObject.onGround after = true →
  GameObject.velocityY after = 0 ∧
  (GameObject.y after = 400 ∨
   ∃ p, p ∈ platforms (approach random env w) ∧
        GameObject.y after = Platform.y p - GameObject.height after).
Proof.
  intros after. subst after. unfold updateGame.
  generalize (approach random env w). intros f.
  assert (Hs : standing (platforms f) (playerRef (world (resolve env f)))).
  { unfold resolve, updateEnemies. apply enemyLoop_standing.
    rewrite updatePowerUps_player. apply brickCollisions_standing.
    apply platformSweep_standing. }
  revert Hs. generalize (world (resolve env f)). intros u Hs.
  unfold settle, updateSpeed, keepInBounds. simpl.
  rewrite !checkWin_player, !collectCoins_player.
  destruct (Qgtb (GameObject.y _) 400) eqn:Ey.
  - intros _. simpl. split; [done | by left].
  - destruct (Qltb (GameObject.x (playerRef u)) 0); simpl; exact Hs.
Qed.

Lemma grounded_player_stands_witness :
  let after := playerRef (updateGame (λ _, 0) (mkClosure (Active.mk false false false) 0)
                            (set_playerRef (GameObject.mk 100 369 30 30 0 1 false) initialWorld)) in
  GameObject.velocityY after = 0 ∧
  (GameObject.y after = 400 ∨
   ∃ p, p ∈ platforms (approach (λ _, 0) (mkClosure (Active.mk false false false) 0)
                         (set_playerRef (GameObject.mk 100 369 30 30 0 1 false) initialWorld)) ∧
        GameObject.y after = Platform.y p - GameObject.height after).
Proof.
  apply (grounded_player_stands (λ _, 0)). vm_compute. reflexivity.
Defined.

(** ** Collected boosts *)

Lemma keepsSpent_same (w w' : World) : powerUpStore w' = powerUpStore w → keepsSpent w w'.
Proof. intros E r p Hr _. by rewrite E. Qed.

Lemma keepsSpent_trans (w1 w2 w3 : World) :
  keepsSpent w1 w2 → keepsSpent w2 w3 → keepsSpent w1 w3.
Proof. intros H1 H2 r p Hr Hc. apply H2; [| done]. by apply H1. Qed.

Lemma hitBrick_spent (f : Frame) (r : ref) : keepsSpent (world f) (world (hitBrick f r)).
Proof.
  unfold hitBrick.
  destruct (brickStore (world f) !! r) as [brick |]; [| by apply keepsSpent_same].
  destruct (negb (Brick.broken brick) && _); [| by apply keepsSpent_same].
  destruct (Qltb _ 0 && _); [| by apply keepsSpent_same].
  destruct (Brick.hasPowerUp brick), (Brick.powerUpType brick) as [[| type] |]; simpl;
    try (by apply keepsSpent_same).
  intros q p Hq _. simpl. by apply lookup_app_l_Some.
Qed.

Lemma stepPowerUp_spent (f : Frame) (r : ref) : keepsSpent (world f) (world (stepPowerUp f r)).
Proof.
  unfold stepPowerUp.
  destruct (powerUpStore (world f) !! r) as [powerUp |] eqn:Hr; [| by apply keepsSpent_same].
  destruct (PowerUp.collected powerUp) eqn:Hc; simpl; [by apply keepsSpent_same |].
  assert (Hother : ∀ new q p, powerUpStore (world f) !! q = Some p → PowerUp.collected p = true →
                     <[r := new]> (powerUpStore (world f)) !! q = Some p).
  { intros new q p Hq Hp. destruct (decide (q = r)) as [-> | Hne].
    { assert (E : Some powerUp = Some p) by (rewrite <- Hr; exact Hq).
      injection E as ->. congruence. }
    by rewrite list_lookup_insert_ne. }
  destruct (overlaps _ _ _ _ _ _ _ _); intros q p Hq Hp; simpl; by apply Hother.
Qed.

Lemma stepEnemy_spent (env : Closure) (f : Frame) (r : ref) :
  powerUpStore (world (stepEnemy env f r)) = powerUpStore (world f).
Proof. unfold stepEnemy, spliceEnemy. by repeat case_match. Qed.

Lemma enemyLoop_spent (env : Closure) (passes i : nat) (f : Frame) :
  powerUpStore (world (enemyLoop env passes i f)) = powerUpStore (world f).
Proof.
  revert i f. induction passes as [| n IH]; intros i f; simpl; [done |].
  destruct (enemies f !! i) as [r |]; [| done]. by rewrite IH, stepEnemy_spent.
Qed.

Lemma brickCollisions_spent (f : Frame) : keepsSpent (world f) (world (brickCollisions f)).
Proof.
  unfold brickCollisions.
  apply (foldl_kept (λ f', keepsSpent (world f) (world f'))); [by apply keepsSpent_same |].
  intros a r Ha. eapply keepsSpent_trans; [exact Ha | apply hitBrick_spent].
Qed.

Lemma updatePowerUps_spent (f : Frame) : keepsSpent (world f) (world (updatePowerUps f)).
Proof.
  unfold updatePowerUps.
  apply (foldl_kept (λ f', keepsSpent (world f) (world f'))); [by apply keepsSpent_same |].
  intros a r Ha. eapply keepsSpent_trans; [exact Ha | apply stepPowerUp_spent].
Qed.

Lemma collectCoins_spent (w : World) : powerUpStore (collectCoins w) = powerUpStore w.
Proof.
  unfold collectCoins.
  apply (foldl_kept (λ w', powerUpStore w' = powerUpStore w)); [done |].
  intros a i Ha. unfold collectCoin. by repeat case_match.
Qed.

Lemma settle_spent (w : World) : powerUpStore (settle w) = powerUpStore w.
Proof.
  unfold settle, updateSpeed, keepInBounds, checkWin. simpl.
  rewrite <- (collectCoins_spent w). by case_match.
Qed.

Lemma approach_spent (random : nat → Q) (env : Closure) (w : World) :
  powerUpStore (world (approach random env w)) = powerUpStore w.
Proof.
  unfold approach. simpl.
  assert (E : powerUpStore (integrate (handleInput env w)) = powerUpStore w) by done.
  revert E. generalize (integrate (handleInput env w)). intros v <-.
  unfold spawnIfNeeded. destruct (needsSpawn v) as [lastPlatform |]; simpl; [| done].
  destruct (spawnGroup_grows random lastPlatform v) as (E & _).
  by injection E as _ _ _ _ _ _ _ _ _ _ ->.
Qed.

Lemma updateGame_spent (random : nat → Q) (env : Closure) (w : World) :
  keepsSpent w (updateGame random env w).
Proof.
  unfold updateGame. intros r p Hr Hc.
  rewrite settle_spent. unfold resolve, updateEnemies. rewrite enemyLoop_spent.
  apply updatePowerUps_spent; [| done]. apply brickCollisions_spent; [| done].
  change (powerUpStore (world (approach random env w)) !! r = Some p).
  by rewrite approach_spent.
Qed.

Lemma gameLoop_spent (random : nat → Q) (w : World) : keepsSpent w (gameLoop random w).
Proof.
  unfold gameLoop. case_match; [apply updateGame_spent | by apply keepsSpent_same].
Qed.

(** X22. A collected boost is spent for good: no event, the restart
    included, changes the stored object again, so it never moves and is
    never uncollected. *)
Theorem collected_boost_is_spent (random : nat → Q) (e : Event) (w : World) (r : ref)
    (powerUp : PowerUp.t) :
  powerUpStore w !! r = Some powerUp →
  PowerUp.collected powerUp = true →
  powerUpStore (dispatch random e w) !! r = Some powerUp.
Proof.
  intros Hr Hc. unfold dispatch.
  apply (rerender_kept random (λ v, powerUpStore v !! r = Some powerUp)).
  - done.
  - intros v Hv. by apply gameLoop_spent.
  - destruct e as [key | key | | | |]; simpl.
    + unfold handleKeyDown. by case_match.
    + done.
    + by apply gameLoop_spent.
    + unfold expire. by case_match.
    + by repeat case_match.
    + by case_match.
Qed.

Lemma collected_boost_is_spent_witness :
  let w := set_powerUpStore [PowerUp.mk 100 350 20 20 Kind.speed true 0]
             (set_powerUpsRef [0%nat] initialWorld) in
  powerUpStore (dispatch (λ _, 0) AnimationFrame w) !! 0%nat
  = Some (PowerUp.mk 100 350 20 20 Kind.speed true 0).
Proof.
  intros w.
  apply (collected_boost_is_spent (λ _, 0) AnimationFrame w 0%nat); reflexivity.
Defined.

(** ** The hazard loop and the array it shortens *)

Lemma stepEnemy_other (env : Closure) (f : Frame) (r q : ref) :
  q ≠ r → enemyStore (world (stepEnemy env f r)) !! q = enemyStore (world f) !! q.
Proof.
  intros Hne. unfold stepEnemy.
  destruct (enemyStore (world f) !! r) as [enemy |]; [| done].
  assert (E : <[r := patrol (platforms f) enemy]> (enemyStore (world f)) !! q
              = enemyStore (world f) !! q) by (by apply list_lookup_insert_ne).
  unfold spliceEnemy. repeat case_match; simpl; exact E.
Qed.

(** What lies at or after position [S i] once the body has run was at or
    after position [S i] before. *)
Lemma stepEnemy_rest (env : Closure) (f : Frame) (r q : ref) (i : nat) :
  (∀ j, (S i ≤ j)%nat → enemies f !! j ≠ Some q) →
  ∀ j, (S i ≤ j)%nat → enemies (stepEnemy env f r) !! j ≠ Some q.
Proof.
  intros Hq j Hj.
  assert (Hdel : ∀ index, delete index (enemies f) !! j ≠ Some q).
  { intros index. destruct (decide (j < index)%nat).
    - rewrite list_lookup_delete_lt by done. by apply Hq.
    - rewrite list_lookup_delete_ge by lia. apply Hq. lia. }
  unfold stepEnemy, spliceEnemy. repeat case_match; simpl; (apply Hdel || by apply Hq).
Qed.

(** A hazard the iterator will not come to is left as it is. *)
Lemma enemyLoop_untouched (env : Closure) (passes i : nat) (f : Frame) (q : ref) :
  (∀ j, (i ≤ j)%nat → enemies f !! j ≠ Some q) →
  enemyStore (world (enemyLoop env passes i f)) !! q = enemyStore (world f) !! q.
Proof.
  revert i f. induction passes as [| n IH]; intros i f Hq; simpl; [done |].
  destruct (enemies f !! i) as [r |] eqn:Hi; [| done].
  assert (Hne : q ≠ r).
  { intros ->. by apply (Hq i). }
  rewrite IH; [by apply stepEnemy_other |].
  apply stepEnemy_rest. intros j Hj. apply Hq. lia.
Qed.

Lemma indexOf_NoDup (l : list ref) (r : ref) (i : nat) :
  NoDup l → l !! i = Some r → indexOf l r = Some i.
Proof.
  intros Hnd Hi.
  assert (Hin : r ∈ l) by (apply list_elem_of_lookup; by exists i).
  destruct (indexOf_Some l r Hin) as (k & Hk & Hl).
  by rewrite (NoDup_lookup l i k r Hnd Hi Hl).
Qed.

(** X23. Removing a defeated hazard from the array inside the loop makes
    the iterator pass over the hazard that followed it: that hazard is not
    moved in this tick, however many passes the loop goes on to make. *)
Theorem stomp_spares_next_hazard (env : Closure) (f : Frame) (passes i : nat)
    (r next : ref) (enemy : GameObject.t) :
  NoDup (enemies f) →
  enemies f !! i = Some r →
  enemies f !! S i = Some next →
  enemyStore (world f) !! r = Some enemy →
  let player := playerRef (world f) in
  let moved := patrol (platforms f) enemy in
  overlaps (GameObject.x player) (GameObject.y player)
           (GameObject.width player) (GameObject.height player)
           (GameObject.x moved) (GameObject.y moved)
           (GameObject.width moved) (GameObject.height moved) = true →
  0 < GameObject.velocityY player →
  GameObject.y player < GameObject.y moved →
  enemies (stepEnemy env f r) !! i = Some next ∧
  enemyStore (world (enemyLoop env (S passes) i f)) !! next = enemyStore (world f) !! next.
Proof.
  intros Hnd Hi Hnext Hr player moved Hover Hv Hy.
  pose proof (indexOf_NoDup (enemies f) r i Hnd Hi) as Hidx.
  pose proof (stepEnemy_stomp env f r enemy i Hr Hidx Hover Hv Hy) as Hstep.
  assert (Harr : enemies (stepEnemy env f r) = delete i (enemies f)).
  { rewrite Hstep. reflexivity. }
  assert (Hne : next ≠ r).
  { intros ->. pose proof (NoDup_lookup _ _ _ _ Hnd Hi Hnext). lia. }
  split.
  - rewrite Harr, list_lookup_delete_ge by lia. exact Hnext.
  - simpl. rewrite Hi. rewrite enemyLoop_untouched; [by apply stepEnemy_other |].
    intros j Hj. rewrite Harr, list_lookup_delete_ge by lia. intros Hj'.
    pose proof (NoDup_lookup _ _ _ _ Hnd Hnext Hj'). lia.
Qed.

Lemma stomp_spares_next_hazard_witness :
  let f := mkFrame
    (set_enemyStore [GameObject.mk 100 320 25 25 0 0 true; GameObject.mk 200 315 25 25 (-1.5) 0 true]
       (set_enemiesRef [0%nat; 1%nat]
          (set_playerRef (GameObject.mk 100 300 30 30 0 4 false) initialWorld)))
    [Platform.mk 0 340 300 20] [0%nat; 1%nat] [] [] false in
  enemyStore (world (updateEnemies (mkClosure Active.none 0) f)) !! 1%nat
  = Some (GameObject.mk 200 315 25 25 (-1.5) 0 true).
Proof.
  intros f.
  assert (H0 : NoDup (enemies f)) by (simpl; apply NoDup_ListNoDup; repeat constructor; simpl; lia).
  assert (H1 : enemies f !! 0%nat = Some 0%nat) by reflexivity.
  assert (H2 : enemies f !! 1%nat = Some 1%nat) by reflexivity.
  assert (H3 : enemyStore (world f) !! 0%nat = Some (GameObject.mk 100 320 25 25 0 0 true))
    by reflexivity.
  assert (H4 : overlaps (GameObject.x (playerRef (world f))) (GameObject.y (playerRef (world f)))
           (GameObject.width (playerRef (world f))) (GameObject.height (playerRef (world f)))
           (GameObject.x (patrol (platforms f) (GameObject.mk 100 320 25 25 0 0 true)))
           (GameObject.y (patrol (platforms f) (GameObject.mk 100 320 25 25 0 0 true)))
           (GameObject.width (patrol (platforms f) (GameObject.mk 100 320 25 25 0 0 true)))
           (GameObject.height (patrol (platforms f) (GameObject.mk 100 320 25 25 0 0 true)))
           = true) by (vm_compute; reflexivity).
  assert (H5 : 0 < GameObject.velocityY (playerRef (world f))) by (vm_compute; reflexivity).
  assert (H6 : GameObject.y (playerRef (world f))
               < GameObject.y (patrol (platforms f) (GameObject.mk 100 320 25 25 0 0 true)))
    by (vm_compute; reflexivity).
  exact (proj2 (stomp_spares_next_hazard (mkClosure Active.none 0) f 1 0 0%nat 1%nat _
                  H0 H1 H2 H3 H4 H5 H6)).
Defined.

(** ** Hazards over a run *)

Lemma lane_refl (enemy : GameObject.t) : lane enemy enemy.
Proof. split; [done | by left]. Qed.

Lemma lane_trans (e1 e2 e3 : GameObject.t) : lane e1 e2 → lane e2 e3 → lane e1 e3.
Proof.
  intros [E1 V1] [E2 V2]. split; [congruence |].
  destruct V1 as [V1 | V1], V2 as [V2 | V2]; rewrite V2, V1; (by left) || (right; ring) || (left; ring).
Qed.

Lemma keepsLanes_same (w w' : World) : enemyStore w' = enemyStore w → keepsLanes w w'.
Proof. intros E r enemy Hr. exists enemy. split; [by rewrite E | apply lane_refl]. Qed.

Lemma keepsLanes_trans (w1 w2 w3 : World) :
  keepsLanes w1 w2 → keepsLanes w2 w3 → keepsLanes w1 w3.
Proof.
  intros H1 H2 r e1 Hr. destruct (H1 r e1 Hr) as (e2 & Hr2 & L2).
  destruct (H2 r e2 Hr2) as (e3 & Hr3 & L3). exists e3. split; [done | by eapply lane_trans].
Qed.

Lemma stepEnemy_lanes (env : Closure) (f : Frame) (r : ref) :
  keepsLanes (world f) (world (stepEnemy env f r)).
Proof.
  unfold stepEnemy.
  destruct (enemyStore (world f) !! r) as [enemy |] eqn:Hr; [| by apply keepsLanes_same].
  assert (Hmoved : ∀ q e, enemyStore (world f) !! q = Some e →
                     ∃ e', <[r := patrol (platforms f) enemy]> (enemyStore (world f)) !! q = Some e' ∧
                           lane e e').
  { intros q e Hq. destruct (decide (q = r)) as [-> | Hne].
    - exists (patrol (platforms f) enemy). split.
      + apply list_lookup_insert_eq. by eapply lookup_lt_Some.
      + assert (E : Some enemy = Some e) by (rewrite <- Hr; exact Hq).
        injection E as <-. apply patrol_lane.
    - exists e. split; [by rewrite list_lookup_insert_ne | apply lane_refl]. }
  unfold spliceEnemy. repeat case_match; simpl; exact Hmoved.
Qed.

Lemma enemyLoop_lanes (env : Closure) (passes i : nat) (f : Frame) :
  keepsLanes (world f) (world (enemyLoop env passes i f)).
Proof.
  revert i f. induction passes as [| n IH]; intros i f; simpl; [by apply keepsLanes_same |].
  destruct (enemies f !! i) as [r |]; [| by apply keepsLanes_same].
  eapply keepsLanes_trans; [apply stepEnemy_lanes | apply IH].
Qed.

Lemma brickCollisions_enemyStore (f : Frame) :
  enemyStore (world (brickCollisions f)) = enemyStore (world f).
Proof.
  unfold brickCollisions.
  apply (foldl_kept (λ f', enemyStore (world f') = enemyStore (world f))); [done |].
  intros a r <-. unfold hitBrick. by repeat case_match.
Qed.

Lemma updatePowerUps_enemyStore (f : Frame) :
  enemyStore (world (updatePowerUps f)) = enemyStore (world f).
Proof.
  unfold updatePowerUps.
  apply (foldl_kept (λ f', enemyStore (world f') = enemyStore (world f))); [done |].
  intros a r <-. unfold stepPowerUp. by repeat case_match.
Qed.

Lemma settle_enemyStore (w : World) : enemyStore (settle w) = enemyStore w.
Proof.
  unfold settle, updateSpeed, keepInBounds, checkWin. simpl.
  assert (E : enemyStore (collectCoins w) = enemyStore w).
  { unfold collectCoins. apply (foldl_kept (λ w', enemyStore w' = enemyStore w)); [done |].
    intros a i <-. unfold collectCoin. by repeat case_match. }
  rewrite <- E. by case_match.
Qed.

Lemma approach_lanes (random : nat → Q) (env : Closure) (w : World) :
  keepsLanes w (world (approach random env w)).
Proof.
  unfold approach. simpl.
  assert (E : enemyStore (integrate (handleInput env w)) = enemyStore w) by done.
  revert E. generalize (integrate (handleInput env w)). intros v E.
  eapply keepsLanes_trans; [apply keepsLanes_same, E |]. clear E.
  unfold spawnIfNeeded. destruct (needsSpawn v) as [lastPlatform |]; simpl;
    [| by apply keepsLanes_same].
  destruct (spawnGroup_grows random lastPlatform v) as (_ & _ & _ & _ & _ & _ & [new E] & _).
  intros r enemy Hr. exists enemy. split; [| apply lane_refl].
  change (enemyStore (spawnGroup random lastPlatform v) !! r = Some enemy).
  rewrite E. by apply lookup_app_l_Some.
Qed.

Lemma updateGame_lanes (random : nat → Q) (env : Closure) (w : World) :
  keepsLanes w (updateGame random env w).
Proof.
  unfold updateGame.
  apply (keepsLanes_trans w (world (approach random env w))); [apply approach_lanes |].
  generalize (approach random env w). intros f.
  apply (keepsLanes_trans _ (world (resolve env f)));
    [| apply keepsLanes_same, settle_enemyStore].
  unfold resolve, updateEnemies.
  apply (keepsLanes_trans _ (world (updatePowerUps (brickCollisions (platformCollisions f)))));
    [| apply enemyLoop_lanes].
  apply keepsLanes_same. by rewrite updatePowerUps_enemyStore, brickCollisions_enemyStore.
Qed.

Lemma gameLoop_lanes (random : nat → Q) (w : World) : keepsLanes w (gameLoop random w).
Proof.
  unfold gameLoop. case_match; [apply updateGame_lanes | by apply keepsLanes_same].
Qed.

(** X24. No event takes a hazard object away or lifts it: whatever
    happens, the restart included, every hazard object is still there with
    the y, size, vertical velocity and grounded flag it had, and with its
    horizontal velocity as it was or reversed. *)
Theorem hazards_keep_their_lane (random : nat → Q) (e : Event) (w : World) (r : ref)
    (enemy : GameObject.t) :
  enemyStore w !! r = Some enemy →
  ∃ enemy', enemyStore (dispatch random e w) !! r = Some enemy' ∧ lane enemy enemy'.
Proof.
  intros Hr.
  assert (Hsame : ∀ v, enemyStore v = enemyStore w →
            ∃ enemy', enemyStore v !! r = Some enemy' ∧ lane enemy enemy').
  { intros v E. exists enemy. split; [by rewrite E | apply lane_refl]. }
  unfold dispatch.
  apply (rerender_kept random
           (λ v, ∃ enemy', enemyStore v !! r = Some enemy' ∧ lane enemy enemy')).
  - done.
  - intros v (e1 & H1 & L1). destruct (gameLoop_lanes random v r e1 H1) as (e2 & H2 & L2).
    exists e2. split; [done | by eapply lane_trans].
  - destruct e as [key | key | | | |]; simpl.
    + apply Hsame. unfold handleKeyDown. by case_match.
    + by apply Hsame.
    + by apply gameLoop_lanes.
    + apply Hsame. unfold expire. by case_match.
    + apply Hsame. by repeat case_match.
    + apply Hsame. by case_match.
Qed.

Lemma hazards_keep_their_lane_witness :
  ∃ enemy', enemyStore (dispatch (λ _, 0) AnimationFrame besideHazard) !! 0%nat = Some enemy' ∧
            lane (GameObject.mk 510 380 25 25 0 0 true) enemy'.
Proof.
  apply (hazards_keep_their_lane (λ _, 0) AnimationFrame besideHazard 0%nat). reflexivity.
Defined.

(** ** The frame loop's closure *)

Lemma updateGame_loop (random : nat → Q) (env : Closure) (w : World) :
  loop (updateGame random env w) = loop w.
Proof.
  unfold updateGame.
  destruct (settle_calm (world (resolve env (approach random env w)))) as [(_ & _ & _ & _ & ->) _].
  destruct (resolve_quiet env (approach random env w)) as (_ & _ & _ & _ & ->).
  unfold approach. simpl.
  destruct (spawnIfNeeded_kept random env (integrate (handleInput env w))) as (_ & _ & ->).
  done.
Qed.

(** No handler writes to the closure of the running loop. *)
Lemma handle_loop (random : nat → Q) (e : Event) (w : World) :
  loop (handle random e w) = loop w.
Proof.
  destruct e as [key | key | | | |]; simpl.
  - unfold handleKeyDown. by case_match.
  - done.
  - unfold gameLoop. case_match; [apply updateGame_loop | done].
  - unfold expire. by case_match.
  - by repeat case_match.
  - by case_match.
Qed.

(** X25. The frame loop is set up again only when the run state changes.
    Through any events that leave the run state as it is, ticks, key
    presses, boosts collected and modifiers expired among them, the loop
    keeps the closure it started with: each further tick is computed with
    the modifier flags and the camera offset of that closure, not with the
    current ones. *)
Theorem closure_is_stale (random : nat → Q) (w : World) (es : list Event) :
  steady random w es →
  gameState (run random es w) = gameState w ∧
  loop (run random es w) = loop w ∧
  (gameState w = playing →
   handle random AnimationFrame (run random es w) = updateGame random (loop w) (run random es w)).
Proof.
  intros Hs.
  assert (H : gameState (run random es w) = gameState w ∧ loop (run random es w) = loop w).
  { revert w Hs. induction es as [| e es IH]; intros w Hs; simpl; [done |].
    destruct Hs as [Hg Hs]. destruct (IH _ Hs) as [-> ->].
    unfold dispatch, rerender. rewrite decide_True by done.
    split; [done | apply handle_loop]. }
  destruct H as [Hg Hl]. split; [done | split; [done |]].
  intros Hp. simpl. unfold gameLoop. rewrite Hg, Hl. by rewrite decide_True.
Qed.

Lemma closure_is_stale_witness :
  let random := λ _ : nat, 0 in
  let w := set_powerUpActive (Active.mk true false false) initialWorld in
  let es := [KeyDown "ArrowRight"; AnimationFrame; Timeout; AnimationFrame] in
  loop (run random es w) = mkClosure (Active.mk false false false) 0.
Proof.
  intros random w es.
  assert (Hs : steady random w es) by (vm_compute; repeat split; reflexivity).
  exact (proj1 (proj2 (closure_is_stale random w es Hs))).
Defined.
